(** * Bounds widening for null-terminated arrays: canonical expression trees,
      structural comparison and the work queue of the fixpoint engine.

    Shallow embedding of
    - [clang/include/clang/AST/ExprUtils.h]  (class [QueueSet]),
    - [PreorderAST.cpp]                      (the n-ary preorder AST),
    - [clang/include/clang/Sema/BoundsWideningAnalysis.h] (interface only). *)

From Stdlib Require Import ZArith List Bool Lia.
From Equations Require Import Equations.
From stdpp Require Import base decidable countable functions gmap sets
  list sorting.
Import ListNotations.

Set Warnings "-register-all".
Local Open Scope Z_scope.

(* ===================================================================== *)
(** ** QueueSet: a queue backed by a set (ExprUtils.h)                     *)
(* ===================================================================== *)

Module QueueSet.
Section QueueSet.
(** [T *] in the source: blocks are identified by their address, hence
    any type with decidable equality and an enumeration. *)
Context {T : Type} `{Countable T}.

(** [std::queue<T *> _queue; llvm::DenseSet<T *> _set;]
    The head of the list is the front of the queue. *)
Record t : Type := mk { _queue : list T; _set : gset T }.

Definition init : t := mk [] ∅.

(** [T *next() const { return _queue.front(); }]
    ([front] of an empty [std::queue] is undefined: [None]). *)
Definition next (q : t) : option T := head (_queue q).

(** [void remove(T *B)]: returns at once on an empty queue, otherwise
    pops the front and erases [B] from the set. *)
Definition remove (B : T) (q : t) : t :=
  match _queue q with
  | [] => q
  | _ :: rest => mk rest (_set q ∖ {[ B ]})
  end.

(** [void append(T *B)]: pushes only when [B] is not in the set. *)
Definition append (B : T) (q : t) : t :=
  if decide (B ∈ _set q)
  then q
  else mk (_queue q ++ [B]) ({[ B ]} ∪ _set q).

(** [bool empty() const] *)
Definition empty (q : t) : bool :=
  match _queue q with [] => true | _ => false end.

(** Sequences of calls. *)
Inductive op : Type := Append (B : T) | Remove (B : T).

Definition step (q : t) (o : op) : t :=
  match o with
  | Append B => append B q
  | Remove B => remove B q
  end.

Definition run (ops : list op) (q : t) : t := fold_left step ops q.

(** The way the fixpoint engine uses the queue: [remove] is only ever
    called with the element [next] has just returned. *)
Fixpoint front_discipline (ops : list op) (q : t) : Prop :=
  match ops with
  | [] => True
  | Append B :: ops' => front_discipline ops' (append B q)
  | Remove B :: ops' =>
      next q = Some B ∧ front_discipline ops' (remove B q)
  end.

(** Queue and set agree, and no element is pending twice. *)
Definition consistent (q : t) : Prop :=
  NoDup (_queue q) ∧ ∀ x, x ∈ _set q ↔ x ∈ _queue q.

End QueueSet.
End QueueSet.

(* ===================================================================== *)
(** ** The host's expressions, as far as PreorderAST.cpp looks at them     *)
(* ===================================================================== *)

(** [BinaryOperator::Opcode]; only the order of the codes matters
    ([Opc < B->Opc] in [Compare]).  Codes as in clang's OperationKinds. *)
Inductive BinaryOperatorKind : Type :=
  BO_Mul | BO_Div | BO_Rem | BO_Add | BO_Sub | BO_Shl | BO_Shr
| BO_And | BO_Xor | BO_Or.

Definition BinaryOpcode (Opc : BinaryOperatorKind) : Z :=
  match Opc with
  | BO_Mul => 2 | BO_Div => 3 | BO_Rem => 4 | BO_Add => 5 | BO_Sub => 6
  | BO_Shl => 7 | BO_Shr => 8 | BO_And => 16 | BO_Xor => 17 | BO_Or => 18
  end.

(** [UnaryOperatorKind]. *)
Inductive UnaryOperatorKind : Type :=
  UO_AddrOf | UO_Deref | UO_Plus | UO_Minus | UO_Not | UO_LNot.

Definition UnaryOpcode (Opc : UnaryOperatorKind) : Z :=
  match Opc with
  | UO_AddrOf => 4 | UO_Deref => 5 | UO_Plus => 6 | UO_Minus => 7
  | UO_Not => 8 | UO_LNot => 9
  end.

(** Declarations ([VarDecl *], [ValueDecl *]) and cast kinds are opaque to
    the tree: identifiers. *)
Definition VarId := nat.
Definition FieldId := nat.
Definition CastKind := nat.

(** [Expr *], after [IgnoreParens] and [IgnoreValuePreservingOperations]
    (both host functions): parentheses and value-preserving casts do not
    occur.  [OtherExpr] stands for every expression class [Create] has no
    case for (calls, string literals, ...). *)
Inductive Expr : Type :=
| DeclRefExpr (V : VarId)
| IntegerLiteral (Val : Z)
| BinaryOperator (Opc : BinaryOperatorKind) (LHS RHS : Expr)
| UnaryOperator (Opc : UnaryOperatorKind) (SubExpr : Expr)
| MemberExpr (Base : Expr) (Field : FieldId) (IsArrow : bool)
| ArraySubscriptExpr (Base Idx : Expr)
| ImplicitCastExpr (CK : CastKind) (SubExpr : Expr)
| OtherExpr (Id : nat).

Fixpoint Expr_size (E : Expr) : nat :=
  match E with
  | DeclRefExpr _ | IntegerLiteral _ | OtherExpr _ => 1
  | BinaryOperator _ L R => 2 + Expr_size L + Expr_size R
  | UnaryOperator _ Sub => 1 + Expr_size Sub
  | MemberExpr B _ _ => 1 + Expr_size B
  | ArraySubscriptExpr B Ix => 3 + Expr_size B + Expr_size Ix
  | ImplicitCastExpr _ Sub => 1 + Expr_size Sub
  end%nat.

(** [Ctx.getTargetInfo().getIntWidth()]: the width of [int] on the target. *)
Definition IntWidth : Z := 32.
Definition INT_MIN : Z := - 2 ^ (IntWidth - 1).
Definition INT_MAX : Z := 2 ^ (IntWidth - 1) - 1.

Definition InIntRange (v : Z) : bool := (INT_MIN <=? v) && (v <=? INT_MAX).

(** [llvm::APSInt::sadd_ov], [ssub_ov], [smul_ov] on [int]-wide signed
    values: the exact result, or [None] when the overflow flag is set. *)
Definition checked (v : Z) : option Z := if InIntRange v then Some v else None.
Definition sadd_ov (a b : Z) : option Z := checked (a + b).
Definition ssub_ov (a b : Z) : option Z := checked (a - b).
Definition smul_ov (a b : Z) : option Z := checked (a * b).

(** Modelled from the spec: the host's constant-expression evaluator
    ("integer arithmetic with overflow detection", section 6), which is not
    part of the sources at hand.  An expression is an integer constant when
    it is built from literals of type [int] with unary plus and minus and
    binary [+], [-], [*]; [Overflow] is what the evaluator reports with
    [note_constexpr_overflow]. *)
Inductive ConstEval : Type := NotConstant | Overflow | Value (v : Z).

Definition lift2 (f : Z -> Z -> option Z) (a b : ConstEval) : ConstEval :=
  match a, b with
  | Value x, Value y =>
      match f x y with Some v => Value v | None => Overflow end
  | NotConstant, _ | _, NotConstant => NotConstant
  | _, _ => Overflow
  end.

Fixpoint EvaluateKnownConstIntCheckOverflow (E : Expr) : ConstEval :=
  match E with
  | IntegerLiteral v => if InIntRange v then Value v else NotConstant
  | UnaryOperator UO_Plus Sub => EvaluateKnownConstIntCheckOverflow Sub
  | UnaryOperator UO_Minus Sub =>
      lift2 ssub_ov (Value 0) (EvaluateKnownConstIntCheckOverflow Sub)
  | BinaryOperator BO_Add L R =>
      lift2 sadd_ov (EvaluateKnownConstIntCheckOverflow L)
                    (EvaluateKnownConstIntCheckOverflow R)
  | BinaryOperator BO_Sub L R =>
      lift2 ssub_ov (EvaluateKnownConstIntCheckOverflow L)
                    (EvaluateKnownConstIntCheckOverflow R)
  | BinaryOperator BO_Mul L R =>
      lift2 smul_ov (EvaluateKnownConstIntCheckOverflow L)
                    (EvaluateKnownConstIntCheckOverflow R)
  | _ => NotConstant
  end.

(** [E->isIntegerConstantExpr(Val, Ctx)]: the value when [E] is an integer
    constant expression (one that evaluates without overflow). *)
Definition isIntegerConstantExpr (E : Expr) : option Z :=
  match EvaluateKnownConstIntCheckOverflow E with
  | Value v => Some v
  | _ => None
  end.

(** The loop over [Diag] in [Create]: does evaluating [E] report
    [note_constexpr_overflow]? *)
Definition ReportsOverflow (E : Expr) : bool :=
  match EvaluateKnownConstIntCheckOverflow E with
  | Overflow => true
  | _ => false
  end.

(* ===================================================================== *)
(** ** PreorderAST: nodes and structural comparison                        *)
(* ===================================================================== *)

(** [enum class Result] of the comparator. *)
Inductive Result : Type := LessThan | Equal | GreaterThan.

(** [Lexicographic]: the host's orderings of leaf expressions and of
    declarations, handed to every comparison ([Lex.CompareExpr],
    [Lex.CompareDecl]). *)
Record Lexicographic : Type := {
  CompareExpr : Expr -> Expr -> Result;
  CompareDecl : FieldId -> FieldId -> Result
}.

(** The five node classes.  A node owns its children; the [Parent]
    back-reference of the source is passed as an argument to the functions
    that read it ([CanCoalesce]). *)
Inductive Node : Type :=
| BinaryOperatorNode (Opc : BinaryOperatorKind) (Children : list Node)
| UnaryOperatorNode (Opc : UnaryOperatorKind) (Child : Node)
| MemberNode (Base : Node) (Field : FieldId) (IsArrow : bool)
| ImplicitCastNode (CK : CastKind) (Child : Node)
| LeafExprNode (E : Expr).

Definition isa_BinaryOperatorNode (N : Node) : bool :=
  match N with BinaryOperatorNode _ _ => true | _ => false end.

Definition isa_LeafExprNode (N : Node) : bool :=
  match N with LeafExprNode _ => true | _ => false end.

(** Modelled from the spec: [Node::CompareKinds] is declared in
    PreorderAST.h, which is not among the sources; comparison is "first by
    node-kind tag", the tags in the order the node classes are listed. *)
Definition NodeKind (N : Node) : Z :=
  match N with
  | BinaryOperatorNode _ _ => 0
  | UnaryOperatorNode _ _ => 1
  | MemberNode _ _ _ => 2
  | ImplicitCastNode _ _ => 3
  | LeafExprNode _ => 4
  end.

Definition CompareZ (a b : Z) : Result :=
  if a <? b then LessThan else if a >? b then GreaterThan else Equal.

Definition CompareKinds (N Other : Node) : Result :=
  CompareZ (NodeKind N) (NodeKind Other).

(** The loop "match each child of the two nodes" of
    [BinaryOperatorNode::Compare], over two child vectors of the same
    length; [Child_Compare] is the call [Child1->Compare(Child2, Lex)]. *)
Definition CompareChildren (Child_Compare : Node -> Node -> Result)
    : list Node -> list Node -> Result :=
  fix loop (Cs1 Cs2 : list Node) {struct Cs1} : Result :=
    match Cs1, Cs2 with
    | Child1 :: Cs1', Child2 :: Cs2' =>
        match Child_Compare Child1 Child2 with
        | Equal => loop Cs1' Cs2'
        (* If any child differs between the two nodes. *)
        | ChildComparison => ChildComparison
        end
    | _, _ => Equal
    end.

(** [BinaryOperatorNode::Compare], [UnaryOperatorNode::Compare],
    [MemberNode::Compare], [ImplicitCastNode::Compare] and
    [LeafExprNode::Compare], dispatched on the class of the receiver. *)
Fixpoint Compare (Lex : Lexicographic) (N Other : Node) {struct N} : Result :=
  match CompareKinds N Other with
  | LessThan => LessThan
  | GreaterThan => GreaterThan
  | Equal =>
    match N, Other with
    | BinaryOperatorNode Opc Children, BinaryOperatorNode BOpc BChildren =>
        (* If the Opcodes mismatch. *)
        if BinaryOpcode Opc <? BinaryOpcode BOpc then LessThan
        else if BinaryOpcode Opc >? BinaryOpcode BOpc then GreaterThan
        (* If the number of children of the two nodes mismatch. *)
        else if (length Children <? length BChildren)%nat then LessThan
        else if (length BChildren <? length Children)%nat then GreaterThan
        (* Match each child of the two nodes. *)
        else CompareChildren (Compare Lex) Children BChildren
    | UnaryOperatorNode Opc Child, UnaryOperatorNode UOpc UChild =>
        (* If the Opcodes mismatch. *)
        if UnaryOpcode Opc <? UnaryOpcode UOpc then LessThan
        else if UnaryOpcode Opc >? UnaryOpcode UOpc then GreaterThan
        else Compare Lex Child UChild
    | MemberNode Base Field IsArrow, MemberNode MBase MField MIsArrow =>
        (* If the arrow flags mismatch. *)
        if IsArrow && negb MIsArrow then LessThan
        else if negb IsArrow && MIsArrow then GreaterThan
        else
          (* If the fields mismatch. *)
          match CompareDecl Lex Field MField with
          | Equal => Compare Lex Base MBase
          | FieldCompare => FieldCompare
          end
    | ImplicitCastNode CK Child, ImplicitCastNode ICK IChild =>
        (* If the cast kinds mismatch. *)
        if (CK <? ICK)%nat then LessThan
        else if (ICK <? CK)%nat then GreaterThan
        else Compare Lex Child IChild
    | LeafExprNode E, LeafExprNode LE => CompareExpr Lex E LE
    | _, _ => Equal (* not reached: the kinds are equal *)
    end
  end.

(** What the comparator needs of the host's orderings, and what it
    provides: a total order whose [Equal] is structural equality. *)
Record TotalOrder {A : Type} (cmp : A -> A -> Result) : Prop := {
  cmp_refl : forall a, cmp a a = Equal;
  cmp_eq : forall a b, cmp a b = Equal -> a = b;
  cmp_antisym : forall a b, cmp a b = LessThan <-> cmp b a = GreaterThan;
  cmp_trans : forall a b c,
    cmp a b = LessThan -> cmp b c = LessThan -> cmp a c = LessThan
}.

(* ===================================================================== *)
(** ** PreorderAST: construction                                           *)
(* ===================================================================== *)

(** The literal [0] that [AddZero] creates. *)
Definition ZeroLiteral : Expr := IntegerLiteral 0.

(** [PreorderAST::AddZero], given the node [Create] builds for [E]:
    a [+] node whose children are the leaf [0] and that node, in this
    order. *)
Definition AddZero (Created : Node) : Node :=
  BinaryOperatorNode BO_Add [LeafExprNode ZeroLiteral; Created].

(** The [ArrowBase] of a member expression: [a] for [a->f], [( *a).f] and
    [a[i].f] (then [a + i]); none for [a.f]. *)
Definition ArrowBase (Base : Expr) (IsArrow : bool) : option Expr :=
  if IsArrow then Some Base
  else match Base with
       | UnaryOperator UO_Deref SubExpr => Some SubExpr
       | ArraySubscriptExpr ABase AIdx =>
           Some (BinaryOperator BO_Add ABase AIdx)
       | _ => None
       end.

Definition is_BO_Sub (Opc : BinaryOperatorKind) : bool :=
  match Opc with BO_Sub => true | _ => false end.

Definition is_Some {A} (o : option A) : bool :=
  match o with Some _ => true | None => false end.

Definition inspect {A : Type} (x : A) : { y : A | x = y } :=
  exist _ x eq_refl.

(** [PreorderAST::Create(E, Parent)] for a non-null [Parent]: the subtree
    that ends up attached to [Parent]. *)
Equations? Create (E : Expr) : Node by wf (Expr_size E) lt :=
Create (BinaryOperator BinOp LHS RHS) :=
  (* (e1 - e2) becomes (e1 + -e2) if -e2 does not overflow. *)
  if is_BO_Sub BinOp && is_Some (isIntegerConstantExpr RHS)
     && negb (ReportsOverflow (UnaryOperator UO_Minus RHS))
  then BinaryOperatorNode BO_Add
         [Create LHS; Create (UnaryOperator UO_Minus RHS)]
  else BinaryOperatorNode BinOp [Create LHS; Create RHS];
Create (MemberExpr Base Field IsArrow)
  with inspect (ArrowBase Base IsArrow) := {
  | exist _ (Some AB) HAB => MemberNode (AddZero (Create AB)) Field true;
  | exist _ None _ => MemberNode (Create Base) Field false };
Create (UnaryOperator UO_Deref Child) :=
  UnaryOperatorNode UO_Deref (AddZero (Create Child));
Create (UnaryOperator Op SubExpr) :=
  if (match Op with UO_Plus | UO_Minus => true | _ => false end)
     && is_Some (isIntegerConstantExpr (UnaryOperator Op SubExpr))
  then LeafExprNode (UnaryOperator Op SubExpr)
  else UnaryOperatorNode Op (Create SubExpr);
Create (ArraySubscriptExpr ABase AIdx) :=
  (* e1[e2] has the same canonical form as *(e1 + e2). *)
  UnaryOperatorNode UO_Deref
    (AddZero (Create (BinaryOperator BO_Add ABase AIdx)));
Create (ImplicitCastExpr CK SubExpr) := ImplicitCastNode CK (Create SubExpr);
Create E := LeafExprNode E.
Proof.
  all: try (cbn; lia).
  unfold ArrowBase in HAB.
  destruct IsArrow; [inversion HAB; subst; cbn; lia|].
  destruct Base as [| | | [] | | | |]; inversion HAB; subst; cbn; lia.
Defined.

(** The tree under construction: [Root] and the [Error] flag. *)
Record PreorderAST : Type := { Root : option Node; Error : bool }.

(** [PreorderAST::AttachNode(N, nullptr)] on a tree whose root is null. *)
Definition AttachNode_root (N : Node) : PreorderAST :=
  if isa_BinaryOperatorNode N
  then {| Root := Some N; Error := false |}
  else {| Root := None; Error := true |}.

(** [PreorderAST::Create(E, nullptr)], the entry point: the root is made by
    [AddZero]. *)
Definition Create_root (E : Expr) : PreorderAST :=
  AttachNode_root (AddZero (Create E)).

(* ===================================================================== *)
(** ** PreorderAST: the rewriting passes                                   *)
(* ===================================================================== *)

(** Modelled from the spec: [IsOpCommutativeAndAssociative] is declared in
    PreorderAST.h, which is not among the sources; "commutativity and
    associativity of [+]/[*]". *)
Definition IsOpCommutativeAndAssociative (Opc : BinaryOperatorKind) : bool :=
  match Opc with BO_Add | BO_Mul => true | _ => false end.

Definition BinaryOperatorKind_eqb (a b : BinaryOperatorKind) : bool :=
  BinaryOpcode a =? BinaryOpcode b.

(** [BinaryOperatorNode::CanCoalesce].  [Parent] is [Some POpc] when the
    parent is a [BinaryOperatorNode] with operator [POpc], and [None] when
    it is null or of another class ([dyn_cast_or_null] fails). *)
Definition CanCoalesce (Opc : BinaryOperatorKind) (Children : list Node)
    (Parent : option BinaryOperatorKind) : bool :=
  if negb (IsOpCommutativeAndAssociative Opc) then false
  else match Parent with
       | None => false
       | Some POpc =>
           if negb (IsOpCommutativeAndAssociative POpc) then false
           else BinaryOperatorKind_eqb Opc POpc
                || (length Children =? 1)%nat
       end.

(** The two flags the passes update by reference. *)
Record Flags : Type := { Changed : bool; Err : bool }.

Definition SetChanged (st : Flags) : Flags :=
  {| Changed := true; Err := Err st |}.
Definition SetError (st : Flags) : Flags :=
  {| Changed := Changed st; Err := true |}.

(** What a call on a node leaves behind in the child vector of its parent:
    the node itself (rewritten in place), or, when the node coalesced, its
    children, which were pushed to the back of the parent's vector after
    the node was erased from it. *)
Inductive Outcome : Type :=
| Kept (N : Node)
| Merged (Children : list Node).

(** The effect of the call on element [I] of the parent's vector. *)
Definition apply_outcome (I : nat) (V : list Node) (o : Outcome) : list Node :=
  match o with
  | Kept N => <[I := N]> V
  | Merged Cs => delete I V ++ Cs
  end.

(** The child vector of a [BinaryOperatorNode] is an
    [llvm::SmallVector<Node *, 2>], a class of the host that is not among
    the sources.  It has room for two elements inside the node; [erase]
    shifts the elements that follow down in place; [push_back] on a full
    vector moves the elements to a heap buffer of capacity
    [2 * capacity + 1] and frees the heap buffer the vector had. *)
Definition InlineCapacity : nat := 2%nat.

Definition NewCapacity (Capacity : nat) : nat := (2 * Capacity + 1)%nat.

(** The capacity after the pushes that bring a vector of capacity
    [Capacity] to [Size] elements; [growths] bounds the number of moves. *)
Fixpoint Grow (growths Capacity Size : nat) : nat :=
  match growths with
  | O => Capacity
  | S growths' =>
      if (Size <=? Capacity)%nat then Capacity
      else Grow growths' (NewCapacity Capacity) Size
  end.

Definition CapacityFor (Capacity Size : nat) : nat := Grow Size Capacity Size.

(** The loop [for (auto *Child : Children) Child->Coalesce(Changed, Error)]
    of [BinaryOperatorNode::Coalesce].  The range-for takes [begin()] and
    [end()] once, when the loop starts, and walks that buffer by position
    ([remaining] counts the positions left), while the calls erase from and
    push to the vector [V]: after the child at position [I] has coalesced,
    the element that moved into position [I] is passed over in this round.

    [Capacity] is the capacity of the vector, and [Heap] says that the
    buffer the loop walks is a heap buffer.  When a coalescing child pushes
    more elements than the capacity holds, the vector moves to a new
    buffer.  A heap buffer is freed by the move: with positions left, the
    loop would go on reading the freed buffer, the behaviour is undefined
    and the result is [None].  The inline buffer of the node stays as the
    move found it, full: the loop has at most two positions there, and
    position 1 holds the element that the vector has at position 1.

    [Child_Coalesce] is the call on a child.  [None] also when the call on
    a child gave no result, or on a read past the end of the vector. *)
Fixpoint Coalesce_loop
    (Child_Coalesce : Node -> Flags -> option (Outcome * Flags))
    (Heap : bool) (remaining I Capacity : nat) (V : list Node) (st : Flags)
    {struct remaining} : option (list Node * Flags) :=
  match remaining with
  | O => Some (V, st)
  | S remaining' =>
      match V !! I with
      | None => None
      | Some Child =>
          match Child_Coalesce Child st with
          | None => None
          | Some (o, st') =>
              let V' := apply_outcome I V o in
              if (Capacity <? length V')%nat && Heap
                 && negb (remaining' =? 0)%nat
              then None
              else Coalesce_loop Child_Coalesce Heap remaining' (S I)
                     (CapacityFor Capacity (length V')) V' st'
          end
      end
  end.

(** [Coalesce] of the five node classes; [fuel] bounds the nesting depth
    ([None]: out of fuel, or undefined behaviour in a loop).
    [LeafExprNode::Coalesce] does nothing.

    A vector that was filled by [push_back] alone is in the inline buffer
    when it has at most two elements, and else in a heap buffer of the
    least capacity among 5, 11, 23, ... that holds its elements: so it is
    in the trees that [Create] builds, and [Coalesce] and [Sort] keep it
    so, as they add at least as many elements to a vector as they erase
    from it when every operator has operands.  [ConstantFold] erases
    elements, and a vector keeps its buffer when elements are erased.
    [Spare] says that a vector may have held more elements than it holds
    now: the buffer of a vector is then not determined by the tree, and it
    is taken to be a heap buffer of the least capacity that holds the
    elements, so that a result is given only where the loop is defined
    whatever the vector held before (a run that is defined thanks to room
    that is left over has the result [None] here). *)
Fixpoint Coalesce (fuel : nat) (Spare : bool) (N : Node)
    (Parent : option BinaryOperatorKind) (st : Flags)
    : option (Outcome * Flags) :=
  match fuel with
  | O => None
  | S fuel' =>
    if Err st then Some (Kept N, st)
    else
      match N with
      | BinaryOperatorNode Opc Children =>
          let Heap := (InlineCapacity <? length Children)%nat || Spare in
          let Capacity :=
            CapacityFor (if Heap then NewCapacity InlineCapacity
                         else InlineCapacity) (length Children) in
          (* Coalesce the children first. *)
          match Coalesce_loop
                  (fun Child st => Coalesce fuel' Spare Child (Some Opc) st)
                  Heap (length Children) O Capacity Children st with
          | None => None
          | Some (Children', st') =>
              if negb (CanCoalesce Opc Children' Parent)
              then Some (Kept (BinaryOperatorNode Opc Children'), st')
              else
                (* Remove the current node from its parent, move all its
                   children to the parent, delete the node. *)
                Some (Merged Children', SetChanged st')
          end
      | UnaryOperatorNode Opc Child =>
          match Coalesce fuel' Spare Child None st with
          | Some (Kept Child', st') =>
              Some (Kept (UnaryOperatorNode Opc Child'), st')
          | _ => None
          end
      | MemberNode Base Field IsArrow =>
          match Coalesce fuel' Spare Base None st with
          | Some (Kept Base', st') =>
              Some (Kept (MemberNode Base' Field IsArrow), st')
          | _ => None
          end
      | ImplicitCastNode CK Child =>
          match Coalesce fuel' Spare Child None st with
          | Some (Kept Child', st') =>
              Some (Kept (ImplicitCastNode CK Child'), st')
          | _ => None
          end
      | LeafExprNode E => Some (Kept N, st)
      end
  end.

(** [llvm::sort] with the comparator [LT]: the sorted arrangement of the
    vector (insertion from the back). *)
Fixpoint sort_insert (LT : Node -> Node -> bool) (N : Node) (Sorted : list Node)
    : list Node :=
  match Sorted with
  | [] => [N]
  | M :: Sorted' =>
      if LT M N then M :: sort_insert LT N Sorted' else N :: Sorted
  end.

Definition llvm_sort (LT : Node -> Node -> bool) (V : list Node) : list Node :=
  fold_right (sort_insert LT) [] V.

Definition Result_eqb (a b : Result) : bool :=
  match a, b with
  | LessThan, LessThan | Equal, Equal | GreaterThan, GreaterThan => true
  | _, _ => false
  end.

(** [Sort] of the five node classes. *)
Fixpoint Sort (Lex : Lexicographic) (N : Node) : Node :=
  match N with
  | BinaryOperatorNode Opc Children =>
      (* Sort the children first. *)
      let Children' := map (Sort Lex) Children in
      (* We can only sort if the operator is commutative and associative. *)
      if negb (IsOpCommutativeAndAssociative Opc)
      then BinaryOperatorNode Opc Children'
      else BinaryOperatorNode Opc
             (llvm_sort (fun N1 N2 =>
                           Result_eqb (Compare Lex N1 N2) LessThan)
                        Children')
  | UnaryOperatorNode Opc Child => UnaryOperatorNode Opc (Sort Lex Child)
  | MemberNode Base Field IsArrow => MemberNode (Sort Lex Base) Field IsArrow
  | ImplicitCastNode CK Child => ImplicitCastNode CK (Sort Lex Child)
  | LeafExprNode E => LeafExprNode E
  end.

(** The locals of [BinaryOperatorNode::ConstantFold]. *)
Record FoldLocals : Type := {
  ConstStartIdx : nat;
  NumConsts : nat;
  ConstFoldedVal : Z
}.

(** How the loop of [ConstantFold] is left: by running to the end of the
    vector, or by the [return] on overflow. *)
Inductive FoldLoopExit : Type :=
| LoopDone (V : list Node) (L : FoldLocals) (st : Flags)
| LoopOverflow (V : list Node) (st : Flags).

(** One constant leaf met by the loop of [ConstantFold]: the new locals, or
    [None] on overflow. *)
Definition FoldConstant (Opc : BinaryOperatorKind) (I : nat)
    (CurrConstVal : Z) (L : FoldLocals) : option FoldLocals :=
  let Num := S (NumConsts L) in
  if (Num =? 1)%nat
  then Some {| ConstStartIdx := I; NumConsts := Num;
               ConstFoldedVal := CurrConstVal |}
  else
    (* Constant fold based on the operator. *)
    match Opc with
    | BO_Add =>
        match sadd_ov (ConstFoldedVal L) CurrConstVal with
        | None => None
        | Some v => Some {| ConstStartIdx := ConstStartIdx L;
                            NumConsts := Num; ConstFoldedVal := v |}
        end
    | BO_Mul =>
        match smul_ov (ConstFoldedVal L) CurrConstVal with
        | None => None
        | Some v => Some {| ConstStartIdx := ConstStartIdx L;
                            NumConsts := Num; ConstFoldedVal := v |}
        end
    | _ => (* default: continue *)
        Some {| ConstStartIdx := ConstStartIdx L; NumConsts := Num;
                ConstFoldedVal := ConstFoldedVal L |}
    end.

(** The loop [for (size_t I = 0; I != Children.size(); ++I)] of
    [BinaryOperatorNode::ConstantFold].  It reads the live vector [V]: a
    child that folds to a single constant may coalesce into this node
    while the loop runs.  [steps] bounds the number of iterations. *)
Fixpoint ConstantFold_loop
    (Child_ConstantFold : Node -> Flags -> option (Outcome * Flags))
    (Opc : BinaryOperatorKind) (steps I : nat) (V : list Node)
    (L : FoldLocals) (st : Flags) {struct steps} : option FoldLoopExit :=
  match steps with
  | O => None
  | S steps' =>
    if (I =? length V)%nat then Some (LoopDone V L st)
    else
      match V !! I with
      | None => None
      | Some (LeafExprNode E) =>
          (* We can only constant fold if the operator is commutative and
             associative. *)
          if negb (IsOpCommutativeAndAssociative Opc)
          then ConstantFold_loop Child_ConstantFold Opc steps' (S I) V L st
          else
            (* Check if the child node is an integer constant. *)
            match isIntegerConstantExpr E with
            | None =>
                ConstantFold_loop Child_ConstantFold Opc steps' (S I) V L st
            | Some CurrConstVal =>
                match FoldConstant Opc I CurrConstVal L with
                | None => (* Overflow: Error = true; return *)
                    Some (LoopOverflow V (SetError st))
                | Some L' =>
                    ConstantFold_loop Child_ConstantFold Opc steps' (S I) V
                      L' st
                end
            end
      | Some Child =>
          (* Recursively constant fold the non-leaf children. *)
          match Child_ConstantFold Child st with
          | None => None
          | Some (o, st') =>
              ConstantFold_loop Child_ConstantFold Opc steps' (S I)
                (apply_outcome I V o) L st'
          end
      end
  end.

(** [ConstantFold] of the five node classes; [fuel] bounds both the
    nesting depth and the number of iterations ([None]: out of fuel).
    [LeafExprNode::ConstantFold] does nothing. *)
Fixpoint ConstantFold (fuel : nat) (N : Node)
    (Parent : option BinaryOperatorKind) (st : Flags)
    : option (Outcome * Flags) :=
  match fuel with
  | O => None
  | S fuel' =>
    if Err st then Some (Kept N, st)
    else
      match N with
      | BinaryOperatorNode Opc Children =>
          match ConstantFold_loop
                  (fun Child st => ConstantFold fuel' Child (Some Opc) st)
                  Opc fuel' O Children
                  {| ConstStartIdx := O; NumConsts := O;
                     ConstFoldedVal := 0 |} st with
          | None => None
          | Some (LoopOverflow V st') =>
              Some (Kept (BinaryOperatorNode Opc V), st')
          | Some (LoopDone V L st') =>
              (* To fold constants we need at least 2 constants. *)
              if (NumConsts L <=? 1)%nat
              then Some (Kept (BinaryOperatorNode Opc V), st')
              else
                (* Delete the folded constants: [NumConsts] elements,
                   starting at [ConstStartIdx]. *)
                let V1 := take (ConstStartIdx L) V
                          ++ drop (ConstStartIdx L + NumConsts L) V in
                (* Add the constant folded expression. *)
                let V2 := V1 ++ [LeafExprNode
                                   (IntegerLiteral (ConstFoldedVal L))] in
                (* If the constant folded expr is the only child of this
                   node we can coalesce the node.  (The one child is a
                   leaf; the vector has had elements erased.) *)
                if (length V2 =? 1)%nat && CanCoalesce Opc V2 Parent
                then
                  match Coalesce 2 true (BinaryOperatorNode Opc V2) Parent
                          st' with
                  | None => None
                  | Some (o, st'') => Some (o, SetChanged st'')
                  end
                else Some (Kept (BinaryOperatorNode Opc V2), SetChanged st')
          end
      | UnaryOperatorNode Opc Child =>
          match ConstantFold fuel' Child None st with
          | Some (Kept Child', st') =>
              Some (Kept (UnaryOperatorNode Opc Child'), st')
          | _ => None
          end
      | MemberNode Base Field IsArrow =>
          match ConstantFold fuel' Base None st with
          | Some (Kept Base', st') =>
              Some (Kept (MemberNode Base' Field IsArrow), st')
          | _ => None
          end
      | ImplicitCastNode CK Child =>
          match ConstantFold fuel' Child None st with
          | Some (Kept Child', st') =>
              Some (Kept (ImplicitCastNode CK Child'), st')
          | _ => None
          end
      | LeafExprNode E => Some (Kept N, st)
      end
  end.

(** Number of nodes of a tree: bounds the work of every pass. *)
Fixpoint Node_size (N : Node) : nat :=
  match N with
  | BinaryOperatorNode _ Children =>
      S (fold_right (fun C n => (Node_size C + n)%nat) O Children)
  | UnaryOperatorNode _ Child => S (Node_size Child)
  | MemberNode Base _ _ => S (Node_size Base)
  | ImplicitCastNode _ Child => S (Node_size Child)
  | LeafExprNode _ => 1%nat
  end.

Definition list_size (V : list Node) : nat :=
  fold_right (fun C n => (Node_size C + n)%nat) O V.

Definition outcome_size (o : Outcome) : nat :=
  match o with Kept N => Node_size N | Merged Cs => list_size Cs end.

(** Every [BinaryOperatorNode] has at least one child (what [Create]
    builds, and what the passes keep). *)
Fixpoint WellFormed (N : Node) : bool :=
  match N with
  | BinaryOperatorNode _ Children =>
      negb (length Children =? 0)%nat && forallb WellFormed Children
  | UnaryOperatorNode _ Child => WellFormed Child
  | MemberNode Base _ _ => WellFormed Base
  | ImplicitCastNode _ Child => WellFormed Child
  | LeafExprNode _ => true
  end.

(** The operator at the root of a tree, if the root is a
    [BinaryOperatorNode]. *)
Definition RootOpc (N : Node) : option BinaryOperatorKind :=
  match N with BinaryOperatorNode Opc _ => Some Opc | _ => None end.

(** The value of a child that is a leaf holding an integer constant. *)
Definition IsConstantLeaf (N : Node) : option Z :=
  match N with
  | LeafExprNode E => isIntegerConstantExpr E
  | _ => None
  end.

(** The values of the integer-constant leaves among the children. *)
Definition ConstantLeaves (Children : list Node) : list Z :=
  omap IsConstantLeaf Children.

(** Every node with a commutative and associative operator has at most
    one integer-constant leaf among its children: [ConstantFold] erases
    nothing from such a tree. *)
Fixpoint Folded (N : Node) : bool :=
  match N with
  | BinaryOperatorNode Opc Children =>
      (negb (IsOpCommutativeAndAssociative Opc)
       || (length (ConstantLeaves Children) <=? 1)%nat)
      && forallb Folded Children
  | UnaryOperatorNode _ Child => Folded Child
  | MemberNode Base _ _ => Folded Base
  | ImplicitCastNode _ Child => Folded Child
  | LeafExprNode _ => true
  end.

(** The loop [while (Changed)] of [PreorderAST::Normalize]: at most [iters]
    rounds; the result is the root and the [Error] flag.  [Spare] (see
    [Coalesce]) is set for the rounds that follow a round in which
    [ConstantFold] had elements to erase. *)
Fixpoint Normalize_while (iters : nat) (Lex : Lexicographic) (Spare : bool)
    (Root : Node) (Error : bool) : option (Node * bool) :=
  match iters with
  | O => None
  | S iters' =>
      (* Changed = false; Root->Coalesce(Changed, Error); *)
      match Coalesce (S (Node_size Root)) Spare Root None
              {| Changed := false; Err := Error |} with
      | Some (Kept Root1, st1) =>
          if Err st1 then Some (Root1, true)
          else
            (* Root->Sort(Lex); Root->ConstantFold(Changed, Error, Ctx); *)
            let Root2 := Sort Lex Root1 in
            match ConstantFold (S (Node_size Root2)) Root2 None st1 with
            | Some (Kept Root3, st3) =>
                if Err st3 then Some (Root3, true)
                else if Changed st3
                     then Normalize_while iters' Lex
                            (Spare || negb (Folded Root2)) Root3 false
                     else Some (Root3, false)
            | _ => None
            end
      | _ => None
      end
  end.

(** [PreorderAST::Normalize], on a tree whose vectors were filled by
    [push_back] alone, as [Create] leaves them; every round that changes
    the tree removes a node, so the size of the tree bounds the number of
    rounds.  [Spare] is set from the start when an operator of the tree
    has no operand: [Coalesce] then erases from a vector without adding
    to it. *)
Definition Normalize (Lex : Lexicographic) (T : PreorderAST)
    : option PreorderAST :=
  match Root T with
  | None => None
  | Some R =>
      match Normalize_while (S (Node_size R)) Lex (negb (WellFormed R)) R
              (Error T) with
      | None => None
      | Some (R', E') => Some {| Root := Some R'; Error := E' |}
      end
  end.

(** The loop [for (size_t I = 0; I != B1->Children.size(); ++I)] of
    [GetDerefOffset] over the children of the two roots; [None] is
    [return false]. *)
Fixpoint GetDerefOffset_loop (Lex : Lexicographic) (Opc : BinaryOperatorKind)
    (Cs1 Cs2 : list Node) (Offset : Z) {struct Cs1} : option Z :=
  match Cs1, Cs2 with
  | Child1 :: Cs1', Child2 :: Cs2' =>
      if Result_eqb (Compare Lex Child1 Child2) Equal
      then GetDerefOffset_loop Lex Opc Cs1' Cs2' Offset
      else
        (* If the children are not equal we require that they be integer
           constant leaf nodes. *)
        match Child1, Child2 with
        | LeafExprNode E1, LeafExprNode E2 =>
            match isIntegerConstantExpr E1 with
            | None => None
            | Some UpperOffset =>
                match isIntegerConstantExpr E2 with
                | None => None
                | Some DerefOffset =>
                    (* Offset should always be of the form (ptr + offset). *)
                    if negb (BinaryOperatorKind_eqb Opc BO_Add) then None
                    (* This guards us from a case where the constants were
                       not folded for some reason. *)
                    else if negb (Offset =? 0) then None
                    else
                      (* offset = deref offset - declared upper bound
                         offset. *)
                      match ssub_ov DerefOffset UpperOffset with
                      | None => None
                      | Some Offset' =>
                          GetDerefOffset_loop Lex Opc Cs1' Cs2' Offset'
                      end
                end
            end
        | _, _ => None
        end
  | _, _ => Some Offset
  end.

(** [PreorderAST::GetDerefOffset(UpperNode, DerefNode, Offset)]: [Some] of
    the final [Offset] when the function returns [true].  [Offset] is
    passed by reference: its value on entry is an argument. *)
Definition GetDerefOffset (Lex : Lexicographic) (UpperNode DerefNode : Node)
    (Offset : Z) : option Z :=
  match UpperNode, DerefNode with
  | BinaryOperatorNode Opc1 Children1, BinaryOperatorNode Opc2 Children2 =>
      (* If the opcodes mismatch we cannot have a valid offset. *)
      if negb (BinaryOperatorKind_eqb Opc1 Opc2) then None
      (* Return false if the number of children mismatch. *)
      else if negb (length Children1 =? length Children2)%nat then None
      else GetDerefOffset_loop Lex Opc1 Children1 Children2 Offset
  | _, _ => None
  end.

(** Modelled from the spec: the host's ordering of leaf expressions
    ([Lexicographic::CompareExpr]) and of declarations
    ([Lexicographic::CompareDecl]) is not among the sources; section 6 asks
    for "a canonical ordering over declarations".  Expressions are ordered
    by class, then by content; declarations and variables by identifier. *)
Definition ExprClass (E : Expr) : Z :=
  match E with
  | DeclRefExpr _ => 0
  | IntegerLiteral _ => 1
  | BinaryOperator _ _ _ => 2
  | UnaryOperator _ _ => 3
  | MemberExpr _ _ _ => 4
  | ArraySubscriptExpr _ _ => 5
  | ImplicitCastExpr _ _ => 6
  | OtherExpr _ => 7
  end.

Definition CompareNat (a b : nat) : Result :=
  CompareZ (Z.of_nat a) (Z.of_nat b).

Definition CompareBool (a b : bool) : Result :=
  CompareZ (if a then 1 else 0) (if b then 1 else 0).

Definition Result_then (r : Result) (k : Result) : Result :=
  match r with Equal => k | _ => r end.

Fixpoint DefaultCompareExpr (E1 E2 : Expr) : Result :=
  Result_then (CompareZ (ExprClass E1) (ExprClass E2))
    match E1, E2 with
    | DeclRefExpr V1, DeclRefExpr V2 => CompareNat V1 V2
    | IntegerLiteral Val1, IntegerLiteral Val2 => CompareZ Val1 Val2
    | BinaryOperator Opc1 L1 R1, BinaryOperator Opc2 L2 R2 =>
        Result_then (CompareZ (BinaryOpcode Opc1) (BinaryOpcode Opc2))
          (Result_then (DefaultCompareExpr L1 L2) (DefaultCompareExpr R1 R2))
    | UnaryOperator Opc1 S1, UnaryOperator Opc2 S2 =>
        Result_then (CompareZ (UnaryOpcode Opc1) (UnaryOpcode Opc2))
          (DefaultCompareExpr S1 S2)
    | MemberExpr B1 F1 A1, MemberExpr B2 F2 A2 =>
        Result_then (CompareBool A1 A2)
          (Result_then (CompareNat F1 F2) (DefaultCompareExpr B1 B2))
    | ArraySubscriptExpr B1 I1, ArraySubscriptExpr B2 I2 =>
        Result_then (DefaultCompareExpr B1 B2) (DefaultCompareExpr I1 I2)
    | ImplicitCastExpr CK1 S1, ImplicitCastExpr CK2 S2 =>
        Result_then (CompareNat CK1 CK2) (DefaultCompareExpr S1 S2)
    | OtherExpr Id1, OtherExpr Id2 => CompareNat Id1 Id2
    | _, _ => Equal
    end.

Definition DefaultLex : Lexicographic :=
  {| CompareExpr := DefaultCompareExpr; CompareDecl := CompareNat |}.

(** Modelled from the spec: the entry points of the comparison engine
    ([Lexicographic::CompareExprSemantically] and
    [Lexicographic::GetDerefOffset] on expressions) are not among the
    sources.  A tree is built fresh for each expression and normalized; a
    tree marked Error makes the comparison report "not provably related". *)
Definition Canonicalize (Lex : Lexicographic) (E : Expr) : option Node :=
  match Normalize Lex (Create_root E) with
  | Some {| Root := Some R; Error := false |} => Some R
  | _ => None
  end.

Definition GetExprDerefOffset (Lex : Lexicographic) (UpperExpr DerefExpr : Expr)
    : option Z :=
  match Canonicalize Lex UpperExpr, Canonicalize Lex DerefExpr with
  | Some U, Some D => GetDerefOffset Lex U D 0
  | _, _ => None
  end.

Definition CompareExprSemantically (Lex : Lexicographic) (E1 E2 : Expr)
    : bool :=
  match Canonicalize Lex E1, Canonicalize Lex E2 with
  | Some N1, Some N2 => Result_eqb (Compare Lex N1 N2) Equal
  | _, _ => false
  end.


(** The contract of [GetDerefOffset] in the words of the specification
    (section 4.2), for comparison with the function above: both roots are
    additive [BinaryOperatorNode]s with equal operand count, all operands
    but the integer-constant leaves compare structurally equal, and the
    delta is the dereference constant minus the bound constant, computed
    with overflow detection. *)
Definition OperandsMatch (Lex : Lexicographic) (Cs1 Cs2 : list Node) : Prop :=
  Forall2 (λ C1 C2, Compare Lex C1 C2 = Equal
                    ∨ (is_Some (IsConstantLeaf C1) = true
                       ∧ is_Some (IsConstantLeaf C2) = true)) Cs1 Cs2.

(** The constant operand of a folded sum ([0] when there is none). *)
Definition ConstantPart (Children : list Node) : Z :=
  foldr Z.add 0 (ConstantLeaves Children).

Definition DerefOffset_spec (Lex : Lexicographic) (UpperNode DerefNode : Node)
    (Delta : Z) : Prop :=
  ∃ Cs1 Cs2,
    UpperNode = BinaryOperatorNode BO_Add Cs1
    ∧ DerefNode = BinaryOperatorNode BO_Add Cs2
    ∧ OperandsMatch Lex Cs1 Cs2
    ∧ ssub_ov (ConstantPart Cs2) (ConstantPart Cs1) = Some Delta.

(* ===================================================================== *)
(** ** Bounds widening facts (BoundsWideningAnalysis.h)                    *)
(* ===================================================================== *)

(** A variable that is a pointer to a null-terminated array, with the upper
    expression of its declared bounds ([BoundsMapTy] maps the variable to
    its bounds expression). *)
Record NtPtrDecl : Type := { NtVar : VarId; UpperExpr : Expr }.

(* ===================================================================== *)
(** ** Bounds widening: the fixpoint engine (BoundsWideningAnalysis.h)      *)
(* ===================================================================== *)

Module BoundsWidening.

(** [CFGBlock]s are identified by their block number. *)
Definition Block : Type := nat.

(** A bounds fact: a variable and its widened upper bound (the [k] of
    [upper_bound(p) = k]); [BoundsMapTy] as the set of its entries. *)
Definition Fact : Type := VarId * Z.
Definition BoundsMapTy : Type := gset Fact.
Definition VarSetTy : Type := gset VarId.
Definition WorkListTy : Type := QueueSet.t (T := Block).

(** Modelled from the spec: what the analysis is run on (sections 3, 4.3
    and 4.4).  [Blocks] are the blocks that take part ("the exit block and
    any unreachable/null block are excluded"), in the order in which they
    are put on the work list; [preds] gives the predecessors of a block;
    [Gen] and [Kill] are the per-block sets of section 4.3;
    [Dropped Pred Curr] are the facts edge pruning drops on the edge from
    [Pred] to [Curr]; [Top] is "the super set of all bounds expressions"
    ("bound expressions are drawn from a fixed finite set of candidates");
    [ParamFacts] are the "facts derived from parameter declarations" that
    seed the In set of the [Entry] block. *)
Record CFG : Type := {
  Blocks : list Block;
  preds : Block -> list Block;
  Gen : Block -> BoundsMapTy;
  Kill : Block -> VarSetTy;
  Dropped : Block -> Block -> BoundsMapTy;
  Top : BoundsMapTy;
  Entry : Block;
  ParamFacts : BoundsMapTy
}.

(** [BoundsMapTy In, Out] of every [ElevatedCFGBlock]. *)
Record InOut : Type := {
  In : Block -> BoundsMapTy;
  Out : Block -> BoundsMapTy
}.

(** Modelled from the spec: the set operations the header declares,
    [Difference<BoundsMapTy, VarSetTy>] ("the set difference of sets A and
    B": the facts of [A] about no variable of [B]),
    [Intersect<BoundsMapTy>], [Union<BoundsMapTy>] and
    [IsEqual<BoundsMapTy>]. *)
Definition Difference (A : BoundsMapTy) (B : VarSetTy) : BoundsMapTy :=
  filter (fun f => f.1 ∉ B) A.

Definition Intersect (A B : BoundsMapTy) : BoundsMapTy := A ∩ B.

Definition Union (A B : BoundsMapTy) : BoundsMapTy := A ∪ B.

Definition IsEqual (A B : BoundsMapTy) : bool := bool_decide (A = B).

(** Modelled from the spec: the statements the fact computation tells
    apart (BoundsWideningAnalysis.cpp is not among the sources).  Section
    4.3: facts are established by "conditions performing a provably-safe
    dereference" and invalidated for the "variables written to by the
    statement"; the header keeps the dereference of a condition as
    [TermCondDerefExpr].  The declaration of a variable with an
    initializer writes to the variable. *)
Inductive Stmt : Type :=
| Condition (DerefExpr : Expr)
| Write (V : VarId).

(** Modelled from the spec: [GetVarsInExpr], "the variables occurring in
    an expression". *)
Fixpoint GetVarsInExpr (E : Expr) : VarSetTy :=
  match E with
  | DeclRefExpr V => {[ V ]}
  | IntegerLiteral _ | OtherExpr _ => ∅
  | BinaryOperator _ L R => GetVarsInExpr L ∪ GetVarsInExpr R
  | UnaryOperator _ Sub => GetVarsInExpr Sub
  | MemberExpr Base _ _ => GetVarsInExpr Base
  | ArraySubscriptExpr Base Idx => GetVarsInExpr Base ∪ GetVarsInExpr Idx
  | ImplicitCastExpr _ Sub => GetVarsInExpr Sub
  end.

(** Modelled from the spec: the widening that a fact set holds for a
    variable, the [k] of its fact [upper_bound(V) = k] (the greatest, when
    the set holds the facts of several widenings of [V]); 0 when the set
    holds no fact about [V], whose bound is then the declared one. *)
Definition WideningIn (A : BoundsMapTy) (V : VarId) : Z :=
  set_fold (fun f k => if decide (f.1 = V) then Z.max f.2 k else k) 0 A.

(** Modelled from the spec: the Gen set of a statement.  Section 4.3:
    facts are established by "conditions performing a provably-safe
    dereference at a constant positive offset from the variable's current
    bound (validated via GetDerefOffset)"; section 7: the analysis "may
    under-approximate ... but must never over-approximate".  A dereference
    is provably safe when it is within the current bounds; the element at
    the upper bound of a null-terminated array can be read, and a condition
    that has read it makes the bound one element wider (section 8:
    "widened by exactly one element").  So the condition
    [if ( *DerefExpr)] gives the fact [upper_bound(V) = k + 1] when
    [GetDerefOffset] finds [DerefExpr] at the offset [k] from the declared
    upper bound of [V] and [k] is the widening [V] has before the
    statement; in every other case it gives no fact about [V].  A write
    (an assignment or an initialization) leaves the variable with its
    declared bound, which is the absence of a fact: it gives no fact.
    [AllNtPtrsInFunc] are the pointers to null-terminated arrays of the
    function, with their declared bounds. *)
Definition StmtGen (Lex : Lexicographic) (AllNtPtrsInFunc : list NtPtrDecl)
    (StmtIn : BoundsMapTy) (S : Stmt) : BoundsMapTy :=
  match S with
  | Condition DerefExpr =>
      list_to_set
        (omap (fun D =>
                 match GetExprDerefOffset Lex (UpperExpr D) DerefExpr with
                 | Some k =>
                     if k =? WideningIn StmtIn (NtVar D)
                     then Some (NtVar D, k + 1)
                     else None
                 | None => None
                 end) AllNtPtrsInFunc)
  | Write _ => ∅
  end.

(** Modelled from the spec: the Kill set of a statement, section 4.3:
    "the set of NT-pointers whose existing widened fact must be
    invalidated, computed from variables written to by the statement (the
    pointer itself, or any variable occurring in its current widened-bound
    expression)". *)
Definition StmtKill (AllNtPtrsInFunc : list NtPtrDecl) (S : Stmt) : VarSetTy :=
  match S with
  | Condition _ => ∅
  | Write V =>
      list_to_set
        (omap (fun D =>
                 if bool_decide (NtVar D = V
                                 ∨ V ∈ GetVarsInExpr (UpperExpr D))
                 then Some (NtVar D) else None) AllNtPtrsInFunc)
  end.

(** Modelled from the spec: [GetStmtOut], "the bounds widened after the
    statement": Out = (In − Kill) ∪ Gen for one statement. *)
Definition GetStmtOut (Lex : Lexicographic) (AllNtPtrsInFunc : list NtPtrDecl)
    (StmtIn : BoundsMapTy) (S : Stmt) : BoundsMapTy :=
  Union (Difference StmtIn (StmtKill AllNtPtrsInFunc S))
        (StmtGen Lex AllNtPtrsInFunc StmtIn S).

(** Modelled from the spec: the facts after the last of the statements
    [Stmts], "applied in source order", with [BlockIn] before the first. *)
Definition StmtsOut (Lex : Lexicographic) (AllNtPtrsInFunc : list NtPtrDecl)
    (BlockIn : BoundsMapTy) (Stmts : list Stmt) : BoundsMapTy :=
  foldl (GetStmtOut Lex AllNtPtrsInFunc) BlockIn Stmts.

Section Engine.
Variable G : CFG.

(** Modelled from the spec: [InitBlockInOutSets].  "Entry block's In is
    seeded with facts derived from parameter declarations"; every other
    set starts at [Top]. *)
Definition InitBlockInOutSets : InOut :=
  {| In := fun B => if decide (B = Entry G) then ParamFacts G else Top G;
     Out := fun _ => Top G |}.

(** Modelled from the spec: [PruneOutSet(PredEB, CurrEB)], "the pruned Out
    set for PredEB": on the edge the facts of [Dropped] are dropped. *)
Definition PruneOutSet (PredEB CurrEB : Block) (A : InOut) : BoundsMapTy :=
  Out A PredEB ∖ Dropped G PredEB CurrEB.

(** Modelled from the spec: [ComputeInSet], "meet = intersection of pruned
    predecessor Out sets"; a block without predecessors keeps the In set
    it was initialised with. *)
Definition ComputeInSet (EB : Block) (A : InOut) : InOut :=
  match preds G EB with
  | [] => A
  | P :: Ps =>
      {| In := <[EB := foldl (fun X Q => Intersect X (PruneOutSet Q EB A))
                          (PruneOutSet P EB A) Ps]> (In A);
         Out := Out A |}
  end.

(** Modelled from the spec: [ComputeOutSet], Out = (In − Kill) ∪ Gen.
    Section 4.4: "each block re-enqueued whenever its Out set changes";
    the header: "EB is added to WorkList if the Out set of EB changes". *)
Definition ComputeOutSet (EB : Block) (A : InOut) (WorkList : WorkListTy)
    : InOut * WorkListTy :=
  let OrigOut := Out A EB in
  let NewOut := Union (Difference (In A EB) (Kill G EB)) (Gen G EB) in
  let A' := {| In := In A; Out := <[EB := NewOut]> (Out A) |} in
  if IsEqual OrigOut NewOut then (A', WorkList)
  else (A', QueueSet.append EB WorkList).

(** Modelled from the spec: the loop of [WidenBounds], "iterating over a
    work queue ... until the queue is empty"; [fuel] bounds the number of
    iterations ([None]: out of fuel). *)
Fixpoint Iterate (fuel : nat) (A : InOut) (WorkList : WorkListTy)
    : option InOut :=
  match fuel with
  | O => None
  | S fuel' =>
      if QueueSet.empty WorkList then Some A
      else
        match QueueSet.next WorkList with
        | None => None
        | Some EB =>
            let WorkList1 := QueueSet.remove EB WorkList in
            let A1 := ComputeInSet EB A in
            let '(A2, WorkList2) := ComputeOutSet EB A1 WorkList1 in
            Iterate fuel' A2 WorkList2
        end
  end.

(** Modelled from the spec: "a work queue seeded with all blocks". *)
Definition InitWorkList : WorkListTy :=
  foldl (fun WL B => QueueSet.append B WL) QueueSet.init (Blocks G).

(** Every change of an Out set removes a fact from it, and between two
    changes the queue can only be emptied: this bounds the iterations. *)
Definition Iterations : nat :=
  S (length (Blocks G) * size (Top G) * S (length (Blocks G))
     + length (Blocks G)).

(** Modelled from the spec: [WidenBounds], the In and Out sets at the
    fixpoint. *)
Definition WidenBounds : option InOut :=
  Iterate Iterations InitBlockInOutSets InitWorkList.

(** The In set [ComputeInSet] gives a block, and the Out set
    [ComputeOutSet] then gives it. *)
Definition NewIn (EB : Block) (A : InOut) : BoundsMapTy :=
  In (ComputeInSet EB A) EB.

Definition NewOut (EB : Block) (A : InOut) : BoundsMapTy :=
  Union (Difference (NewIn EB A) (Kill G EB)) (Gen G EB).

(** No block is listed twice, and [Top] holds every fact. *)
Record WellFormedCFG : Prop := {
  wf_NoDup : NoDup (Blocks G);
  wf_Gen : ∀ B, B ∈ Blocks G → Gen G B ⊆ Top G;
  wf_Param : ParamFacts G ⊆ Top G
}.

(** What decreases with every iteration. *)
Definition Measure (A : InOut) (WorkList : WorkListTy) : nat :=
  (sum_list (map (fun B => size (Out A B)) (Blocks G))
   * S (length (Blocks G))
   + length (QueueSet._queue WorkList))%nat.

(** What holds between two iterations: no block is pending twice; no Out
    set would grow if its block were processed; and for a block that is
    not pending, the Out set is the one computed from its In set, and the
    In set holds the facts that all its predecessors pass on. *)
Record Inv (A : InOut) (WorkList : WorkListTy) : Prop := {
  inv_cons : QueueSet.consistent WorkList;
  inv_queue : ∀ B, B ∈ QueueSet._queue WorkList → B ∈ Blocks G;
  inv_post : ∀ B, B ∈ Blocks G → NewOut B A ⊆ Out A B;
  inv_top : ∀ B, Out A B ⊆ Top G;
  inv_in0 : ∀ B, preds G B = [] → In A B = In InitBlockInOutSets B;
  inv_out : ∀ B, B ∈ Blocks G → B ∉ QueueSet._queue WorkList →
            Out A B = Union (Difference (In A B) (Kill G B)) (Gen G B);
  inv_in : ∀ B, B ∈ Blocks G → B ∉ QueueSet._queue WorkList →
           NewIn B A ⊆ In A B
}.
End Engine.

(** A function with a loop: the blocks 3 (entry), 2 (loop head), 1 (loop
    body) and 0, with the edges 3 -> 2, 2 -> 1, 1 -> 2 and 2 -> 0. *)
Definition LoopCFG : CFG :=
  {| Blocks := [3%nat; 2%nat; 1%nat; 0%nat];
     preds := fun B => match B with
                       | 2%nat => [3%nat; 1%nat]
                       | 1%nat => [2%nat]
                       | 0%nat => [2%nat]
                       | _ => []
                       end;
     Gen := fun B => match B with
                     | 2%nat => {[ (0%nat, 1) ]}
                     | _ => ∅
                     end;
     Kill := fun B => match B with 1%nat => {[ 1%nat ]} | _ => ∅ end;
     Dropped := fun P B => match P, B with
                           | 2%nat, 0%nat => {[ (0%nat, 1) ]}
                           | _, _ => ∅
                           end;
     Top := {[ (0%nat, 1); (1%nat, 1) ]};
     Entry := 3%nat;
     ParamFacts := {[ (1%nat, 1) ]} |}.
End BoundsWidening.

(* ===================================================================== *)
(** ** The passes on vectors that stay in place                            *)
(* ===================================================================== *)

(** What the passes compute as long as no read follows a move of a vector:
    [Coalesce_loop] and [Coalesce] without the capacities.  Whenever
    [Coalesce] and [Normalize] return, they return what these return
    ([Coalesce_in_place_of], [Normalize_in_place_of]); the definitions
    serve to state and prove what the results of the passes are. *)

(** [Coalesce_loop] on a vector that stays in place: the walk by position
    over the vector [V], which the calls erase from and push to. *)
Fixpoint Coalesce_loop_in_place
    (Child_Coalesce : Node -> Flags -> option (Outcome * Flags))
    (remaining I : nat) (V : list Node) (st : Flags)
    {struct remaining} : option (list Node * Flags) :=
  match remaining with
  | O => Some (V, st)
  | S remaining' =>
      match V !! I with
      | None => None
      | Some Child =>
          match Child_Coalesce Child st with
          | None => None
          | Some (o, st') =>
              Coalesce_loop_in_place Child_Coalesce remaining' (S I)
                (apply_outcome I V o) st'
          end
      end
  end.

(** [Coalesce] on vectors that stay in place. *)
Fixpoint Coalesce_in_place (fuel : nat) (N : Node)
    (Parent : option BinaryOperatorKind) (st : Flags)
    : option (Outcome * Flags) :=
  match fuel with
  | O => None
  | S fuel' =>
    if Err st then Some (Kept N, st)
    else
      match N with
      | BinaryOperatorNode Opc Children =>
          (* Coalesce the children first. *)
          match Coalesce_loop_in_place
                  (fun Child st => Coalesce_in_place fuel' Child (Some Opc) st)
                  (length Children) O Children st with
          | None => None
          | Some (Children', st') =>
              if negb (CanCoalesce Opc Children' Parent)
              then Some (Kept (BinaryOperatorNode Opc Children'), st')
              else
                (* Remove the current node from its parent, move all its
                   children to the parent, delete the node. *)
                Some (Merged Children', SetChanged st')
          end
      | UnaryOperatorNode Opc Child =>
          match Coalesce_in_place fuel' Child None st with
          | Some (Kept Child', st') =>
              Some (Kept (UnaryOperatorNode Opc Child'), st')
          | _ => None
          end
      | MemberNode Base Field IsArrow =>
          match Coalesce_in_place fuel' Base None st with
          | Some (Kept Base', st') =>
              Some (Kept (MemberNode Base' Field IsArrow), st')
          | _ => None
          end
      | ImplicitCastNode CK Child =>
          match Coalesce_in_place fuel' Child None st with
          | Some (Kept Child', st') =>
              Some (Kept (ImplicitCastNode CK Child'), st')
          | _ => None
          end
      | LeafExprNode E => Some (Kept N, st)
      end
  end.

(** The rounds of [Normalize] on vectors that stay in place. *)
Fixpoint Normalize_while_in_place (iters : nat) (Lex : Lexicographic)
    (Root : Node) (Error : bool) : option (Node * bool) :=
  match iters with
  | O => None
  | S iters' =>
      (* Changed = false; Root->Coalesce(Changed, Error); *)
      match Coalesce_in_place (S (Node_size Root)) Root None
              {| Changed := false; Err := Error |} with
      | Some (Kept Root1, st1) =>
          if Err st1 then Some (Root1, true)
          else
            (* Root->Sort(Lex); Root->ConstantFold(Changed, Error, Ctx); *)
            let Root2 := Sort Lex Root1 in
            match ConstantFold (S (Node_size Root2)) Root2 None st1 with
            | Some (Kept Root3, st3) =>
                if Err st3 then Some (Root3, true)
                else if Changed st3
                     then Normalize_while_in_place iters' Lex Root3 false
                     else Some (Root3, false)
            | _ => None
            end
      | _ => None
      end
  end.

(** [Normalize] on vectors that stay in place. *)
Definition Normalize_in_place (Lex : Lexicographic) (T : PreorderAST)
    : option PreorderAST :=
  match Root T with
  | None => None
  | Some R =>
      match Normalize_while_in_place (S (Node_size R)) Lex R (Error T) with
      | None => None
      | Some (R', E') => Some {| Root := Some R'; Error := E' |}
      end
  end.

Definition Canonicalize_in_place (Lex : Lexicographic) (E : Expr)
    : option Node :=
  match Normalize_in_place Lex (Create_root E) with
  | Some {| Root := Some R; Error := false |} => Some R
  | _ => None
  end.

Definition GetExprDerefOffset_in_place (Lex : Lexicographic)
    (UpperExpr DerefExpr : Expr) : option Z :=
  match Canonicalize_in_place Lex UpperExpr,
        Canonicalize_in_place Lex DerefExpr with
  | Some U, Some D => GetDerefOffset Lex U D 0
  | _, _ => None
  end.

(* ===================================================================== *)
(** ** Invariants of the passes and of the comparisons                     *)
(* ===================================================================== *)

Definition outcome_wf (o : Outcome) : Prop :=
  match o with
  | Kept N => WellFormed N = true
  | Merged Cs => Cs ≠ [] ∧ Forall (λ C, WellFormed C = true) Cs
  end.

(** What a pass guarantees about the node it was called on. *)
Record pass_post (N : Node) (P : option BinaryOperatorKind) (st : Flags)
    (o : Outcome) (st' : Flags) : Prop := {
  post_wf : outcome_wf o;
  post_mono : Changed st = true → Changed st' = true;
  post_same : Changed st' = false → o = Kept N;
  post_size : (outcome_size o <= Node_size N)%nat;
  post_dec : Changed st = false → Changed st' = true → Err st' = false →
             (outcome_size o < Node_size N)%nat;
  post_root : ∀ N', o = Kept N' → RootOpc N' = RootOpc N;
  post_merged : ∀ Cs, o = Merged Cs → P ≠ None;
  post_err : Err st = true → Err st' = true
}.

(** What a loop over the children guarantees about the vector. *)
Record loop_post (V : list Node) (st : Flags) (V' : list Node) (st' : Flags)
    : Prop := {
  lp_wf : Forall (λ C, WellFormed C = true) V';
  lp_mono : Changed st = true → Changed st' = true;
  lp_same : Changed st' = false → V' = V;
  lp_size : (list_size V' <= list_size V)%nat;
  lp_dec : Changed st = false → Changed st' = true → Err st' = false →
           (list_size V' < list_size V)%nat;
  lp_length : (length V <= length V')%nat;
  lp_err : Err st = true → Err st' = true
}.

(** A call on a child that returns and keeps [pass_post], for every
    well-formed child of size below [bound]. *)
Definition child_call_ok
    (call : Node → Flags → option (Outcome * Flags))
    (P : option BinaryOperatorKind) (bound : nat) : Prop :=
  ∀ C st, WellFormed C = true → (Node_size C < bound)%nat →
    ∃ o st', call C st = Some (o, st') ∧ pass_post C P st o st'.

Definition child_call_ok1
    (call : Node → Flags → option (Outcome * Flags))
    (P : option BinaryOperatorKind) (bound : nat) : Prop :=
  ∀ C st, WellFormed C = true → (Node_size C < bound)%nat →
    ∃ o st', call C st = Some (o, st') ∧ pass_post C P st o st'
             ∧ (∀ Cs, o = Merged Cs → length Cs = 1%nat).

(** The constants counted so far lie before the current position. *)
Definition locals_ok (L : FoldLocals) (I : nat) : Prop :=
  (1 <= NumConsts L → ConstStartIdx L + NumConsts L <= I)%nat.

Definition fold_exit_post (Opc : BinaryOperatorKind) (I : nat) (L : FoldLocals)
    (V : list Node) (st : Flags) (x : FoldLoopExit) : Prop :=
  match x with
  | LoopDone V' L' st' =>
      loop_post V st V' st' ∧ length V' = length V
      ∧ locals_ok L' (length V')
      ∧ (Changed st' = false → IsOpCommutativeAndAssociative Opc = true →
         NumConsts L'
         = (NumConsts L + length (ConstantLeaves (drop I V)))%nat)
  | LoopOverflow V' st' =>
      ∃ st0, loop_post V st V' st0 ∧ st' = SetError st0
             ∧ length V' = length V
  end.

(** The final tree has at most one integer-constant leaf under a root with
    a commutative and associative operator. *)
Definition folded_root (N : Node) : Prop :=
  ∀ Opc Cs, N = BinaryOperatorNode Opc Cs →
    IsOpCommutativeAndAssociative Opc = true →
    (length (ConstantLeaves Cs) <= 1)%nat.

Definition flip (r : Result) : Result :=
  match r with
  | LessThan => GreaterThan
  | Equal => Equal
  | GreaterThan => LessThan
  end.

(** Arrow flags: [->] sorts before [.]. *)
Definition ArrowKey (IsArrow : bool) : Z := if IsArrow then 0 else 1.

Definition trans4 (r12 r23 r13 : Result) : Prop :=
  (r12 = LessThan → r23 = LessThan → r13 = LessThan)
  ∧ (r12 = LessThan → r23 = Equal → r13 = LessThan)
  ∧ (r12 = Equal → r23 = LessThan → r13 = LessThan)
  ∧ (r12 = Equal → r23 = Equal → r13 = Equal).

(* ===================================================================== *)
(** ** Sums and products: the normal form                                  *)
(* ===================================================================== *)

(** The comparison [Sort] hands to [llvm::sort], and the order it sorts
    into. *)
Definition NodeLT (Lex : Lexicographic) (N1 N2 : Node) : bool :=
  Result_eqb (Compare Lex N1 N2) LessThan.

Definition NodeLe (Lex : Lexicographic) (N1 N2 : Node) : Prop :=
  Compare Lex N1 N2 ≠ GreaterThan.

(** What a normalized child contributes to a parent with operator [Opc]:
    its children when it has the same operator, else itself. *)
Definition absorb (Opc : BinaryOperatorKind) (N : Node) : list Node :=
  match N with
  | BinaryOperatorNode Opc' Cs =>
      if BinaryOperatorKind_eqb Opc' Opc then Cs else [N]
  | _ => [N]
  end.

(** The normal form in closed form: nested nodes with the same operator
    are flattened and every child list is sorted.  It is what the rounds of
    [Coalesce], [Sort] and [ConstantFold] are compared with. *)
Fixpoint nf (Lex : Lexicographic) (N : Node) : Node :=
  match N with
  | BinaryOperatorNode Opc Cs =>
      BinaryOperatorNode Opc
        (llvm_sort (NodeLT Lex) (flat_map (fun C => absorb Opc (nf Lex C)) Cs))
  | _ => N
  end.

Definition contribution (Lex : Lexicographic) (Opc : BinaryOperatorKind)
    (V : list Node) : list Node :=
  flat_map (fun C => absorb Opc (nf Lex C)) V.

(** Trees of [+] and [*] nodes with at least two children over leaves
    that are not integer constants. *)
Fixpoint SumProduct (N : Node) : bool :=
  match N with
  | BinaryOperatorNode Opc Cs =>
      IsOpCommutativeAndAssociative Opc && (2 <=? length Cs)%nat
      && forallb SumProduct Cs
  | LeafExprNode E => negb (is_Some (isIntegerConstantExpr E))
  | _ => false
  end.

(** The children of the root: such trees, and integer-constant leaves. *)
Definition RootChild (C : Node) : Prop :=
  SumProduct C = true \/ is_Some (IsConstantLeaf C) = true.

(** No node of the tree can coalesce into its parent. *)
Fixpoint Flat (Parent : option BinaryOperatorKind) (N : Node) : bool :=
  match N with
  | BinaryOperatorNode Opc Cs =>
      negb (CanCoalesce Opc Cs Parent) && forallb (Flat (Some Opc)) Cs
  | _ => true
  end.

Definition outcome_list (o : Outcome) : list Node :=
  match o with Kept N => [N] | Merged Cs => Cs end.

(** What [Coalesce] guarantees on a child [C] of a node with operator [P]:
    the nodes it leaves in the parent contribute what [C] did. *)
Record sem_post (Lex : Lexicographic) (Q : Node -> Prop)
    (P : BinaryOperatorKind) (C : Node) (st : Flags) (o : Outcome)
    (st' : Flags) : Prop := {
  sp_err : Err st' = false;
  sp_Q : Forall Q (outcome_list o);
  sp_len : (1 <= length (outcome_list o))%nat;
  sp_perm : contribution Lex P (outcome_list o) ≡ₚ absorb P (nf Lex C);
  sp_mono : Changed st = true -> Changed st' = true;
  sp_flat : Changed st' = false -> o = Kept C /\ Flat (Some P) C = true
}.

(** Expressions built from [+] and [*] over variables. *)
Fixpoint SumProductExpr (E : Expr) : bool :=
  match E with
  | BinaryOperator Opc LHS RHS =>
      IsOpCommutativeAndAssociative Opc && SumProductExpr LHS
      && SumProductExpr RHS
  | DeclRefExpr _ => true
  | _ => false
  end.

(** Expressions built from [+] and [*] over variables and integer
    literals. *)
Fixpoint OnlySumProduct (E : Expr) : bool :=
  match E with
  | BinaryOperator Opc LHS RHS =>
      IsOpCommutativeAndAssociative Opc && OnlySumProduct LHS
      && OnlySumProduct RHS
  | DeclRefExpr _ | IntegerLiteral _ => true
  | _ => false
  end.

(** The constant operand [(INT_MAX * 2) * 0]. *)
Definition INT_MAX_times_2_times_0 : Expr :=
  BinaryOperator BO_Mul
    (BinaryOperator BO_Mul (IntegerLiteral INT_MAX) (IntegerLiteral 2))
    (IntegerLiteral 0).

(* ===================================================================== *)
(** ** Canonical trees, rearrangements and values                          *)
(* ===================================================================== *)

(** No [BinaryOperatorNode] of the tree can coalesce into its parent. *)
Fixpoint Coalesced (Parent : option BinaryOperatorKind) (N : Node) : bool :=
  match N with
  | BinaryOperatorNode Opc Children =>
      negb (CanCoalesce Opc Children Parent)
      && forallb (Coalesced (Some Opc)) Children
  | UnaryOperatorNode _ Child => Coalesced None Child
  | MemberNode Base _ _ => Coalesced None Base
  | ImplicitCastNode _ Child => Coalesced None Child
  | LeafExprNode _ => true
  end.

(** The children of every node with a commutative and associative operator
    are in the order of [Compare]. *)
Fixpoint Ordered (Lex : Lexicographic) (N : Node) : Prop :=
  match N with
  | BinaryOperatorNode Opc Children =>
      (IsOpCommutativeAndAssociative Opc = true →
       Sorted (NodeLe Lex) Children)
      ∧ fold_right (fun C P => Ordered Lex C ∧ P) True Children
  | UnaryOperatorNode _ Child => Ordered Lex Child
  | MemberNode Base _ _ => Ordered Lex Base
  | ImplicitCastNode _ Child => Ordered Lex Child
  | LeafExprNode _ => True
  end.

(** Rearrangement of an expression by the commutativity and associativity
    of [+] and [*], at any depth. *)
Inductive ACEquiv : Expr -> Expr -> Prop :=
| ACEquiv_refl E : ACEquiv E E
| ACEquiv_sym E1 E2 : ACEquiv E1 E2 -> ACEquiv E2 E1
| ACEquiv_trans E1 E2 E3 : ACEquiv E1 E2 -> ACEquiv E2 E3 -> ACEquiv E1 E3
| ACEquiv_comm Opc a b :
    IsOpCommutativeAndAssociative Opc = true ->
    ACEquiv (BinaryOperator Opc a b) (BinaryOperator Opc b a)
| ACEquiv_assoc Opc a b c :
    IsOpCommutativeAndAssociative Opc = true ->
    ACEquiv (BinaryOperator Opc (BinaryOperator Opc a b) c)
            (BinaryOperator Opc a (BinaryOperator Opc b c))
| ACEquiv_cong Opc a a' b b' :
    IsOpCommutativeAndAssociative Opc = true ->
    ACEquiv a a' -> ACEquiv b b' ->
    ACEquiv (BinaryOperator Opc a b) (BinaryOperator Opc a' b').

(** The value of an expression built from [+] and [*] over variables and
    literals in the integers, when the variables have the values [ρ]
    (other expressions are not interpreted). *)
Fixpoint ExprValue (ρ : VarId -> Z) (E : Expr) : Z :=
  match E with
  | DeclRefExpr V => ρ V
  | IntegerLiteral Val => Val
  | BinaryOperator BO_Add LHS RHS => ExprValue ρ LHS + ExprValue ρ RHS
  | BinaryOperator BO_Mul LHS RHS => ExprValue ρ LHS * ExprValue ρ RHS
  | _ => 0
  end.

(** The sum or the product of the values of the children. *)
Definition OpValue (Opc : BinaryOperatorKind) (Vals : list Z) : Z :=
  match Opc with
  | BO_Add => fold_right Z.add 0 Vals
  | BO_Mul => fold_right Z.mul 1 Vals
  | _ => 0
  end.

(** The value of a tree of [+] and [*] nodes over such leaves. *)
Fixpoint NodeValue (ρ : VarId -> Z) (N : Node) : Z :=
  match N with
  | BinaryOperatorNode Opc Children =>
      OpValue Opc (map (NodeValue ρ) Children)
  | LeafExprNode E => ExprValue ρ E
  | _ => 0
  end.

(** The constant [ConstantFold] accumulates over the constants of a node,
    from the first one [Acc] on: the sum or the product, or [None] when an
    intermediate result is not an [int]. *)
Fixpoint CheckedFold (Opc : BinaryOperatorKind) (Acc : Z) (Consts : list Z)
    : option Z :=
  match Consts with
  | [] => Some Acc
  | c :: Consts' =>
      match (match Opc with
             | BO_Add => sadd_ov Acc c
             | BO_Mul => smul_ov Acc c
             | _ => Some Acc
             end) with
      | Some v => CheckedFold Opc v Consts'
      | None => None
      end
  end.

(** A leaf that is not an integer constant. *)
Definition IsOperandLeaf (N : Node) : bool :=
  match N with
  | LeafExprNode E => negb (is_Some (isIntegerConstantExpr E))
  | _ => false
  end.

(** A leaf that is an integer constant, with its value. *)
Definition IsConstantLeafOf (N : Node) (c : Z) : Prop :=
  IsConstantLeaf N = Some c.

(** A call that leaves [Changed] unset has changed nothing. *)
Definition unchanged_post (Q : Node → Prop) (N : Node) (st : Flags)
    (o : Outcome) (st' : Flags) : Prop :=
  Err st' = Err st
  ∧ (Changed st = true → Changed st' = true)
  ∧ (Changed st' = false → o = Kept N ∧ st' = st ∧ (Err st = false → Q N)).

(** A call of [ConstantFold] that leaves [Changed] and [Error] unset has
    changed nothing, and nothing was there to fold. *)
Definition fold_unchanged_post (N : Node) (st : Flags) (o : Outcome)
    (st' : Flags) : Prop :=
  (Changed st = true → Changed st' = true)
  ∧ (Err st = true → Err st' = true)
  ∧ (Changed st' = false → Err st' = false →
     o = Kept N ∧ st' = st ∧ Folded N = true).

(** The only integer-constant leaf among the children is the literal
    [0]. *)
Definition ZeroOrOperand (C : Node) : Prop :=
  IsConstantLeaf C = None ∨ C = LeafExprNode ZeroLiteral.

(** The locals after the loop of [ConstantFold] has gone over the leaves
    [Suffix], the first of them at position [I]; [None] on overflow. *)
Fixpoint FoldLeaves (Opc : BinaryOperatorKind) (I : nat) (Suffix : list Node)
    (L : FoldLocals) : option FoldLocals :=
  match Suffix with
  | [] => Some L
  | C :: Suffix' =>
      match IsConstantLeaf C with
      | None => FoldLeaves Opc (S I) Suffix' L
      | Some c =>
          match FoldConstant Opc I c L with
          | None => None
          | Some L' => FoldLeaves Opc (S I) Suffix' L'
          end
      end
  end.

(** A child that is a [LeafExprNode]. *)
Definition IsLeaf (N : Node) : Prop := ∃ E, N = LeafExprNode E.

(* ===================================================================== *)
(** ** arrofstructsafemulti2.c: the integer functions of the test          *)
(* ===================================================================== *)

(** Arithmetic on [int]: an operation whose exact result is not
    representable is undefined in C, which is [None] here, as is a call
    that does not return within [fuel] nested calls. *)

(** [int fact(int n) { if(n==0) { return 1; } return n*fact(n-1); }] *)
Fixpoint fact (fuel : nat) (n : Z) : option Z :=
  match fuel with
  | O => None
  | S fuel' =>
      if n =? 0 then Some 1
      else match checked (n - 1) with
           | None => None
           | Some m =>
               match fact fuel' m with
               | None => None
               | Some r => checked (n * r)
               end
           end
  end.

(** [int fib(int n) { if(n==0) { return 0; } if(n==1) { return 1; }
                      return fib(n-1) + fib(n-2); }] *)
Fixpoint fib (fuel : nat) (n : Z) : option Z :=
  match fuel with
  | O => None
  | S fuel' =>
      if n =? 0 then Some 0
      else if n =? 1 then Some 1
      else match checked (n - 1), checked (n - 2) with
           | Some n1, Some n2 =>
               match fib fuel' n1, fib fuel' n2 with
               | Some a, Some b => checked (a + b)
               | _, _ => None
               end
           | _, _ => None
           end
  end.

(** The mathematical factorial and Fibonacci numbers the two functions are
    compared with. *)
Fixpoint Factorial_nat (n : nat) : Z :=
  match n with
  | O => 1
  | S k => Z.of_nat (S k) * Factorial_nat k
  end.

Definition Factorial (n : Z) : Z := Factorial_nat (Z.to_nat n).

Fixpoint Fibonacci_pair (n : nat) : Z * Z :=
  match n with
  | O => (0, 1)
  | S k => let '(a, b) := Fibonacci_pair k in (b, a + b)
  end.

Definition Fibonacci (n : Z) : Z := fst (Fibonacci_pair (Z.to_nat n)).

(* ===================================================================== *)
(** * Properties                                                           *)
(* ===================================================================== *)

(** ** QueueSet *)

Module QueueSetFacts.
Import QueueSet.
Section Facts.
Context {T : Type} `{Countable T}.
Implicit Types (q : t (T := T)) (B F : T).

Lemma remove_cons B F rest s :
  remove B (mk (F :: rest) s) = mk rest (s ∖ {[ B ]}).
Proof. reflexivity. Qed.

Lemma remove_nil B s : remove B (mk [] s) = mk [] s.
Proof. reflexivity. Qed.

Lemma consistent_init : consistent (init (T := T)).
Proof. split; [constructor | intros x; cbn; set_solver]. Qed.

Lemma append_present B q :
  consistent q → B ∈ _queue q → append B q = q.
Proof.
  intros [_ Hset] Hin. unfold append.
  destruct (decide (B ∈ _set q)) as [|Hn]; [done|].
  exfalso. apply Hn, Hset, Hin.
Qed.

Lemma consistent_append B q : consistent q → consistent (append B q).
Proof.
  intros [Hnd Hset]. unfold append.
  destruct (decide (B ∈ _set q)) as [Hin|Hn]; [by split|].
  split; cbn.
  - apply NoDup_app. split_and!; [done| |apply NoDup_singleton].
    intros x Hx Hx'. apply list_elem_of_singleton in Hx'. subst x.
    apply Hn, Hset, Hx.
  - intros x. rewrite elem_of_union, elem_of_singleton, elem_of_app,
      list_elem_of_singleton, Hset. tauto.
Qed.

Lemma consistent_remove_front B q :
  consistent q → next q = Some B → consistent (remove B q).
Proof.
  intros [Hnd Hset]. unfold next, remove.
  destruct q as [[|F rest] s]; cbn in *; [done|].
  intros [= ->]. apply NoDup_cons in Hnd as [HB Hnd].
  split; cbn; [done|].
  intros x. rewrite elem_of_difference, elem_of_singleton, Hset,
    elem_of_cons.
  split; [intros [[->|Hx] Hne]; done|].
  intros Hx. split; [by right|]. intros ->. done.
Qed.

Lemma consistent_remove_only_front B F q :
  consistent q → next q = Some F → consistent (remove B q) → B = F.
Proof.
  intros [Hnd Hset]. unfold next, remove.
  destruct q as [[|F' rest] s]; cbn in *; [done|].
  intros [= ->] [_ Hset'].
  apply NoDup_cons in Hnd as [HF _]. cbn in Hset'.
  destruct (decide (B = F)) as [|Hne]; [done|]. exfalso.
  apply HF, Hset'. rewrite elem_of_difference, elem_of_singleton.
  split; [apply Hset; left|congruence].
Qed.

Lemma consistent_run ops : ∀ q,
  consistent q → front_discipline ops q → consistent (run ops q).
Proof.
  induction ops as [|[B|B] ops IH]; intros q Hc Hd; cbn in *; [done| |].
  - apply IH; [by apply consistent_append|done].
  - destruct Hd as [Hn Hd]. apply IH; [by apply consistent_remove_front|done].
Qed.
End Facts.
End QueueSetFacts.

(** C8, as stated: a [remove] called with an element other than the front
    leaves that element in the queue but not in the set, and a later
    [append] of it enters it a second time. *)
Lemma C8_duplicate_after_remove_of_non_front :
  ¬ NoDup (QueueSet._queue
             (QueueSet.run
                [QueueSet.Append 1%nat; QueueSet.Append 2%nat;
                 QueueSet.Remove 2%nat; QueueSet.Append 2%nat]
                QueueSet.init)).
Proof.
  vm_compute. intros Hnd. apply NoDup_cons in Hnd as [Hin _].
  apply Hin. left.
Qed.

(** C8, amended: when every [remove] is called with the element at the
    front (the element [next] returns), then after any sequence of [append]
    and [remove] calls on an initially empty QueueSet no element occurs
    more than once in the queue, the set holds exactly the elements of the
    queue, and an [append] of an element that is in the queue leaves the
    QueueSet unchanged. *)
Theorem C8_queue_unique_under_front_discipline
    {T : Type} `{Countable T} (ops : list (QueueSet.op (T := T))) :
  QueueSet.front_discipline ops QueueSet.init →
  let q := QueueSet.run ops QueueSet.init in
  NoDup (QueueSet._queue q)
  ∧ (∀ x, x ∈ QueueSet._set q ↔ x ∈ QueueSet._queue q)
  ∧ (∀ B, B ∈ QueueSet._queue q → QueueSet.append B q = q).
Proof.
  intros Hd q.
  assert (Hc : QueueSet.consistent q).
  { apply QueueSetFacts.consistent_run;
      [apply QueueSetFacts.consistent_init|done]. }
  destruct Hc as [Hnd Hset]. split_and!; [done|done|].
  intros B HB. by apply QueueSetFacts.append_present.
Qed.

Lemma C8_queue_unique_witness :
  let ops := [QueueSet.Append 1%nat; QueueSet.Append 2%nat;
              QueueSet.Remove 1%nat; QueueSet.Append 2%nat;
              QueueSet.Append 1%nat] in
  QueueSet.front_discipline ops QueueSet.init
  ∧ NoDup (QueueSet._queue (QueueSet.run ops QueueSet.init)).
Proof.
  intros ops.
  assert (Hd : QueueSet.front_discipline ops QueueSet.init).
  { cbn. split; [reflexivity|exact Logic.I]. }
  split; [exact Hd|].
  exact (proj1 (C8_queue_unique_under_front_discipline ops Hd)).
Defined.

(** C10: [remove(B)] on a non-empty queue pops the front element, whatever
    [B] is, and erases [B] from the set; on an empty queue it changes
    nothing.  Hence, on a QueueSet whose queue and set agree, they still
    agree after [remove(B)] exactly when [B] is the front element. *)
Theorem C10_remove_pops_front {T : Type} `{Countable T} :
  (∀ (B F : T) rest s,
     QueueSet.remove B (QueueSet.mk (F :: rest) s)
     = QueueSet.mk rest (s ∖ {[ B ]}))
  ∧ (∀ (B : T) s,
       QueueSet.remove B (QueueSet.mk [] s) = QueueSet.mk [] s)
  ∧ (∀ (q : QueueSet.t) (B F : T),
       QueueSet.consistent q → QueueSet.next q = Some F →
       (QueueSet.consistent (QueueSet.remove B q) ↔ B = F)).
Proof.
  split_and!.
  - intros. reflexivity.
  - intros. reflexivity.
  - intros q B F Hc Hn. split.
    + by apply QueueSetFacts.consistent_remove_only_front.
    + intros ->. by apply QueueSetFacts.consistent_remove_front.
Qed.

Lemma C10_remove_pops_front_witness :
  let q := QueueSet.mk [1%nat; 2%nat] {[ 1%nat; 2%nat ]} in
  QueueSet.consistent q ∧ QueueSet.next q = Some 1%nat
  ∧ (QueueSet.consistent (QueueSet.remove 2%nat q) ↔ 2%nat = 1%nat)
  ∧ QueueSet._queue (QueueSet.remove 2%nat q) = [2%nat].
Proof.
  intros q.
  assert (Hc : QueueSet.consistent q).
  { split; cbn.
    - apply NoDup_cons. split; [set_solver|]. apply NoDup_singleton.
    - intros x. set_solver. }
  split_and!; [exact Hc|reflexivity| |reflexivity].
  exact (proj2 (proj2 C10_remove_pops_front) q 2%nat 1%nat Hc eq_refl).
Defined.

(** ** Sizes and well-formedness *)

Lemma Node_size_pos N : (1 <= Node_size N)%nat.
Proof. destruct N; cbn; lia. Qed.

Lemma list_size_cons C V :
  list_size (C :: V) = (Node_size C + list_size V)%nat.
Proof. reflexivity. Qed.

Lemma list_size_app V1 V2 :
  list_size (V1 ++ V2) = (list_size V1 + list_size V2)%nat.
Proof.
  induction V1 as [|C V1 IH]; [done|].
  rewrite <- app_comm_cons, !list_size_cons. lia.
Qed.

Lemma length_le_list_size V : (length V <= list_size V)%nat.
Proof.
  induction V as [|C V IH]; [done|].
  rewrite list_size_cons. cbn [length]. pose proof (Node_size_pos C). lia.
Qed.

Lemma list_size_lookup V I C :
  V !! I = Some C → (Node_size C <= list_size V)%nat.
Proof.
  revert I. induction V as [|D V IH]; intros [|I]; try done;
    rewrite list_size_cons; cbn -[Node_size list_size].
  - intros [= ->]. clear IH. lia.
  - intros HI. apply IH in HI. clear IH.
    cbn -[Node_size list_size] in HI. lia.
Qed.

Lemma list_size_insert V I C C' :
  V !! I = Some C →
  (list_size (<[I := C']> V) + Node_size C = list_size V + Node_size C')%nat.
Proof.
  revert I. induction V as [|D V IH]; intros [|I]; try done.
  - intros [= ->]. change (<[0%nat := C']> (C :: V)) with (C' :: V).
    rewrite !list_size_cons. clear IH. lia.
  - intros HI. apply IH in HI. clear IH.
    change (<[S I := C']> (D :: V)) with (D :: <[I := C']> V).
    rewrite !list_size_cons. lia.
Qed.

Lemma list_size_delete V I C :
  V !! I = Some C →
  (list_size (delete I V) + Node_size C = list_size V)%nat.
Proof.
  revert I. induction V as [|D V IH]; intros [|I]; try done.
  - intros [= ->]. change (delete 0%nat (C :: V)) with V.
    rewrite !list_size_cons. clear IH. lia.
  - intros HI. apply IH in HI. clear IH.
    change (delete (S I) (D :: V)) with (D :: delete I V).
    rewrite !list_size_cons. lia.
Qed.

Lemma Node_size_Binary Opc Cs :
  Node_size (BinaryOperatorNode Opc Cs) = S (list_size Cs).
Proof. reflexivity. Qed.

Lemma WellFormed_Binary Opc Cs :
  WellFormed (BinaryOperatorNode Opc Cs) = true ↔
  Cs ≠ [] ∧ Forall (λ C, WellFormed C = true) Cs.
Proof.
  cbn [WellFormed]. rewrite andb_true_iff, forallb_forall, Forall_forall.
  assert (Hne : negb (length Cs =? 0)%nat = true ↔ Cs ≠ [])
    by (destruct Cs; cbn; split; congruence).
  rewrite Hne. split; intros [? HF]; (split; [done|]);
    intros x Hx; apply HF; by apply list_elem_of_In.
Qed.

(** ** The passes return, and what they keep *)

Lemma loop_post_refl V st :
  Forall (λ C, WellFormed C = true) V → loop_post V st V st.
Proof. intros HV. split; try done. congruence. Qed.

Lemma loop_post_trans V1 st1 V2 st2 V3 st3 :
  loop_post V1 st1 V2 st2 → loop_post V2 st2 V3 st3 →
  loop_post V1 st1 V3 st3.
Proof.
  intros [wf1 mono1 same1 size1 dec1 len1 err1]
         [wf2 mono2 same2 size2 dec2 len2 err2].
  split; try done.
  - auto.
  - intros H3. destruct (Changed st2) eqn:E2.
    + rewrite mono2 in H3; done.
    + rewrite same2, same1; done.
  - lia.
  - intros H1 H3 He3. destruct (Changed st2) eqn:E2.
    + destruct (Err st2) eqn:Ee2; [rewrite err2 in He3; done|].
      specialize (dec1 H1 eq_refl eq_refl). lia.
    + specialize (dec2 eq_refl H3 He3). lia.
  - lia.
  - auto.
Qed.

(** The effect of one call on position [I] of the vector. *)
Lemma apply_outcome_post V I C P st o st' :
  Forall (λ C, WellFormed C = true) V →
  V !! I = Some C →
  pass_post C P st o st' →
  loop_post V st (apply_outcome I V o) st'.
Proof.
  intros HV HI [wf mono same size dec root merged err].
  destruct o as [N'|Cs]; cbn [apply_outcome outcome_size outcome_wf] in *.
  - pose proof (list_size_insert V I C N' HI) as Hsz.
    split; try done.
    + apply Forall_insert; done.
    + intros Hc. specialize (same Hc). injection same as ->.
      apply list_insert_id, HI.
    + lia.
    + intros H1 H2 H3. specialize (dec H1 H2 H3). lia.
    + by rewrite length_insert.
  - pose proof (list_size_delete V I C HI) as Hsz.
    destruct wf as [Hne Hwf].
    assert (Hlen : (length (delete I V) + 1 = length V)%nat).
    { rewrite length_delete by (by rewrite HI). 
      apply lookup_lt_Some in HI. lia. }
    split; try done.
    + apply Forall_app. split; [by apply Forall_delete|done].
    + intros Hc. specialize (same Hc). done.
    + rewrite list_size_app. lia.
    + intros H1 H2 H3. specialize (dec H1 H2 H3).
      rewrite list_size_app. lia.
    + rewrite length_app. destruct Cs; [done|]. cbn [length]. lia.
Qed.

Lemma Coalesce_loop_in_place_total call P bound remaining :
  child_call_ok call P bound →
  ∀ I V st,
    Forall (λ C, WellFormed C = true) V →
    (list_size V < bound)%nat →
    (I + remaining <= length V)%nat →
    ∃ V' st', Coalesce_loop_in_place call remaining I V st = Some (V', st')
              ∧ loop_post V st V' st'.
Proof.
  intros Hcall. induction remaining as [|r IH]; intros I V st HV Hsz HI.
  - exists V, st. split; [done|by apply loop_post_refl].
  - cbn [Coalesce_loop_in_place].
    destruct (V !! I) as [C|] eqn:HC.
    2:{ apply lookup_ge_None in HC. lia. }
    assert (HwfC : WellFormed C = true).
    { eapply Forall_lookup_1 in HV; [|exact HC]. done. }
    pose proof (list_size_lookup V I C HC) as HszC.
    destruct (Hcall C st HwfC ltac:(lia)) as (o & st1 & -> & Hpost).
    pose proof (apply_outcome_post V I C P st o st1 HV HC Hpost) as Hstep.
    destruct (IH (S I) (apply_outcome I V o) st1) as (V' & st' & -> & Hrest).
    + apply Hstep.
    + pose proof (lp_size _ _ _ _ Hstep). lia.
    + pose proof (lp_length _ _ _ _ Hstep). lia.
    + exists V', st'. split; [done|].
      eapply loop_post_trans; done.
Qed.

Lemma pass_post_refl N P st : WellFormed N = true → pass_post N P st (Kept N) st.
Proof.
  intros HN. split; cbn [outcome_wf outcome_size]; try done.
  - congruence.
  - by intros ? [=]; subst.
Qed.

Lemma CanCoalesce_parent Opc Cs P : CanCoalesce Opc Cs P = true → P ≠ None.
Proof.
  unfold CanCoalesce. destruct (negb _); [done|]. by destruct P.
Qed.

Lemma Coalesce_in_place_total fuel : ∀ N P st,
  WellFormed N = true → (Node_size N < fuel)%nat →
  ∃ o st', Coalesce_in_place fuel N P st = Some (o, st')
           ∧ pass_post N P st o st' ∧ Err st' = Err st.
Proof.
  induction fuel as [|fuel IH]; intros N P st HN Hsz; [lia|].
  cbn [Coalesce_in_place]. destruct (Err st) eqn:HErr.
  { exists (Kept N), st. split_and!; [done|by apply pass_post_refl|done]. }
  destruct N as [Opc Cs|Opc C|B F A|CK C|E].
  - (* BinaryOperatorNode *)
    apply WellFormed_Binary in HN as [Hne HCs].
    rewrite Node_size_Binary in Hsz.
    assert (Hcall : child_call_ok
                      (λ Child st, Coalesce_in_place fuel Child (Some Opc) st)
                      (Some Opc) fuel).
    { intros C st0 HC HszC.
      destruct (IH C (Some Opc) st0 HC HszC) as (o & st' & ? & ? & _).
      by exists o, st'. }
    assert (Herr : ∀ remaining I V st0 V' st',
              Coalesce_loop_in_place (λ Child st, Coalesce_in_place fuel Child (Some Opc) st)
                remaining I V st0 = Some (V', st') →
              Forall (λ C, WellFormed C = true) V →
              (list_size V < fuel)%nat → Err st' = Err st0).
    { clear -IH. induction remaining as [|r IHr]; intros I V st0 V' st';
        cbn [Coalesce_loop_in_place].
      - by intros [= -> ->].
      - destruct (V !! I) as [C|] eqn:HC; [|done]. intros Hloop HV Hsz.
        assert (HwfC : WellFormed C = true)
          by (eapply Forall_lookup_1 in HV; [|exact HC]; done).
        pose proof (list_size_lookup V I C HC) as HszC.
        destruct (IH C (Some Opc) st0 HwfC ltac:(lia))
          as (o & st1 & Heq & Hpost & He).
        rewrite Heq in Hloop.
        pose proof (apply_outcome_post V I C _ st0 o st1 HV HC Hpost) as Hs.
        apply IHr in Hloop; [congruence|apply Hs|].
        pose proof (lp_size _ _ _ _ Hs). lia. }
    destruct (Coalesce_loop_in_place_total _ _ _ (length Cs) Hcall O Cs st HCs
                ltac:(lia) ltac:(lia)) as (Cs' & st' & Hloop & Hpost).
    rewrite Hloop. apply Herr in Hloop; [|done|lia].
    destruct Hpost as [wf mono same size dec len err].
    assert (Hne' : Cs' ≠ []).
    { destruct Cs'; [|done]. destruct Cs; [done|]. cbn in len. lia. }
    destruct (CanCoalesce Opc Cs' P) eqn:HCC; cbn [negb].
    + exists (Merged Cs'), (SetChanged st'). split_and!; [done| |by rewrite <- HErr].
      split; cbn [outcome_wf outcome_size SetChanged Changed Err]; try done.
      * rewrite Node_size_Binary. lia.
      * intros. rewrite Node_size_Binary. lia.
      * intros ? _. by eapply CanCoalesce_parent.
    + exists (Kept (BinaryOperatorNode Opc Cs')), st'.
      split_and!; [done| |congruence].
      split; cbn [outcome_wf outcome_size]; try done.
      * by apply WellFormed_Binary.
      * intros Hc. by rewrite same.
      * rewrite !Node_size_Binary. lia.
      * intros ???. rewrite !Node_size_Binary.
        assert (list_size Cs' < list_size Cs)%nat by auto. lia.
      * by intros ? [=]; subst.
  - cbn [WellFormed Node_size] in *.
    destruct (IH C None st HN ltac:(lia)) as (o & st' & -> & Hpost & He).
    destruct Hpost as [wf mono same size dec root merged err].
    destruct o as [C'|Cs]; [|by destruct (merged Cs eq_refl)].
    eexists _, _. split_and!; [reflexivity| |congruence].
    cbn [outcome_wf outcome_size] in *.
    split; cbn [outcome_wf outcome_size WellFormed Node_size]; try done.
    + intros Hc. specialize (same Hc). by injection same as ->.
    + lia.
    + intros ???. assert (Node_size C' < Node_size C)%nat by auto. lia.
    + by intros ? [=]; subst.
  - cbn [WellFormed Node_size] in *.
    destruct (IH B None st HN ltac:(lia)) as (o & st' & -> & Hpost & He).
    destruct Hpost as [wf mono same size dec root merged err].
    destruct o as [C'|Cs]; [|by destruct (merged Cs eq_refl)].
    eexists _, _. split_and!; [reflexivity| |congruence].
    cbn [outcome_wf outcome_size] in *.
    split; cbn [outcome_wf outcome_size WellFormed Node_size]; try done.
    + intros Hc. specialize (same Hc). by injection same as ->.
    + lia.
    + intros ???. assert (Node_size C' < Node_size B)%nat by auto. lia.
    + by intros ? [=]; subst.
  - cbn [WellFormed Node_size] in *.
    destruct (IH C None st HN ltac:(lia)) as (o & st' & -> & Hpost & He).
    destruct Hpost as [wf mono same size dec root merged err].
    destruct o as [C'|Cs]; [|by destruct (merged Cs eq_refl)].
    eexists _, _. split_and!; [reflexivity| |congruence].
    cbn [outcome_wf outcome_size] in *.
    split; cbn [outcome_wf outcome_size WellFormed Node_size]; try done.
    + intros Hc. specialize (same Hc). by injection same as ->.
    + lia.
    + intros ???. assert (Node_size C' < Node_size C)%nat by auto. lia.
    + by intros ? [=]; subst.
  - exists (Kept (LeafExprNode E)), st.
    split_and!; [done|by apply pass_post_refl|done].
Qed.

Lemma apply_outcome_length V I C o :
  V !! I = Some C →
  (∀ Cs, o = Merged Cs → length Cs = 1%nat) →
  length (apply_outcome I V o) = length V.
Proof.
  intros HI Hone. destruct o as [N'|Cs]; cbn [apply_outcome].
  - by rewrite length_insert.
  - rewrite length_app, (Hone Cs eq_refl).
    rewrite length_delete by (by rewrite HI).
    apply lookup_lt_Some in HI. lia.
Qed.

Lemma FoldConstant_ok Opc I c L L' :
  FoldConstant Opc I c L = Some L' → locals_ok L I →
  locals_ok L' (S I) ∧ NumConsts L' = S (NumConsts L).
Proof.
  unfold FoldConstant, locals_ok.
  destruct (S (NumConsts L) =? 1)%nat eqn:H1.
  - apply Nat.eqb_eq in H1. intros [= <-] HL. cbn. lia.
  - apply Nat.eqb_neq in H1. intros HL' HL.
    assert (HL'' : ConstStartIdx L' = ConstStartIdx L
                   ∧ NumConsts L' = S (NumConsts L)).
    { destruct Opc; try (injection HL' as <-; done).
      - destruct (smul_ov _ _); [injection HL' as <-; done|done].
      - destruct (sadd_ov _ _); [injection HL' as <-; done|done]. }
    lia.
Qed.

Lemma fold_exit_post_trans Opc I L V st V1 st1 x :
  loop_post V st V1 st1 → length V1 = length V →
  (Changed st1 = false → V1 = V) →
  V !! I = Some (default (LeafExprNode ZeroLiteral) (V !! I)) →
  IsConstantLeaf (default (LeafExprNode ZeroLiteral) (V !! I)) = None →
  fold_exit_post Opc (S I) L V1 st1 x → fold_exit_post Opc I L V st x.
Proof.
  intros H1 Hlen Hsame HI Hnc. destruct x as [V' L' st'|V' st']; cbn.
  - intros (H2 & Hl & HL & Hcount). split_and!; [|congruence|done|].
    + eapply loop_post_trans; done.
    + intros Hc Hca. rewrite (Hcount Hc Hca).
      destruct (Changed st1) eqn:Hc1.
      { rewrite (lp_mono _ _ _ _ H2) in Hc; done. }
      rewrite (Hsame eq_refl). rewrite (drop_S _ _ _ HI).
      unfold ConstantLeaves. cbn [omap list_omap]. by rewrite Hnc.
  - intros (st0 & H2 & -> & Hl). exists st0. split_and!; [|done|congruence].
    eapply loop_post_trans; done.
Qed.

Lemma ConstantLeaves_cons C Cs :
  ConstantLeaves (C :: Cs)
  = match IsConstantLeaf C with
    | Some v => v :: ConstantLeaves Cs
    | None => ConstantLeaves Cs
    end.
Proof. reflexivity. Qed.

Lemma ConstantFold_loop_total call Opc bound steps :
  child_call_ok1 call (Some Opc) bound →
  ∀ I V L st,
    Forall (λ C, WellFormed C = true) V →
    (list_size V < bound)%nat →
    (I <= length V)%nat → (length V - I < steps)%nat →
    locals_ok L I →
    ∃ x, ConstantFold_loop call Opc steps I V L st = Some x
         ∧ fold_exit_post Opc I L V st x.
Proof.
  intros Hcall. induction steps as [|steps IH]; intros I V L st HV Hsz HI Hst HL;
    [lia|].
  cbn [ConstantFold_loop].
  destruct (I =? length V)%nat eqn:HIe.
  { apply Nat.eqb_eq in HIe. subst I. eexists. split; [done|]. cbn.
    split_and!; [by apply loop_post_refl|done|done|].
    intros _ _. rewrite drop_all. cbn. lia. }
  apply Nat.eqb_neq in HIe.
  destruct (V !! I) as [C|] eqn:HC.
  2:{ apply lookup_ge_None in HC. lia. }
  assert (Hdrop : drop I V = C :: drop (S I) V) by (by apply drop_S).
  assert (Hskip : ∀ L',
            locals_ok L' (S I) →
            (IsOpCommutativeAndAssociative Opc = true →
             NumConsts L'
             = (NumConsts L + if IsConstantLeaf C is Some _ then 1 else 0)%nat) →
            ∃ x, ConstantFold_loop call Opc steps (S I) V L' st = Some x
                 ∧ fold_exit_post Opc I L V st x).
  { intros L' HL' Hnum.
    destruct (IH (S I) V L' st) as (x & Hx & Hpost); [done|done|lia|lia|done|].
    exists x. split; [done|].
    destruct x as [V' L'' st'|V' st']; cbn in *; [|done].
    destruct Hpost as (H1 & H2 & H3 & H4). split_and!; try done.
    intros Hc Hca. rewrite (H4 Hc Hca), (Hnum Hca), Hdrop, ConstantLeaves_cons.
    destruct (IsConstantLeaf C); cbn [length]; lia. }
  assert (HLS : locals_ok L (S I)) by (unfold locals_ok in *; lia).
  assert (Hchild : IsConstantLeaf C = None → isa_LeafExprNode C = false →
            ∃ x, match call C st with
                 | None => None
                 | Some (o, st') =>
                     ConstantFold_loop call Opc steps (S I)
                       (apply_outcome I V o) L st'
                 end = Some x ∧ fold_exit_post Opc I L V st x).
  { intros Hnc _.
    assert (HwfC : WellFormed C = true)
      by (eapply Forall_lookup_1 in HV; [|exact HC]; done).
    pose proof (list_size_lookup V I C HC) as HszC.
    destruct (Hcall C st HwfC ltac:(lia)) as (o & st1 & -> & Hpost & Hone).
    pose proof (apply_outcome_post V I C _ st o st1 HV HC Hpost) as Hstep.
    pose proof (apply_outcome_length V I C o HC Hone) as Hlen.
    destruct (IH (S I) (apply_outcome I V o) L st1) as (x & -> & Hx).
    - apply Hstep.
    - pose proof (lp_size _ _ _ _ Hstep). lia.
    - lia.
    - lia.
    - done.
    - exists x. split; [done|].
      eapply fold_exit_post_trans; try done.
      + apply Hstep.
      + by rewrite HC.
      + by rewrite HC. }
  destruct C as [Opc' Cs|Opc' C'|B F A|CK C'|E]; try (by apply Hchild).
  cbn [IsConstantLeaf] in Hskip.
  destruct (IsOpCommutativeAndAssociative Opc) eqn:Hca; cbn [negb];
    [|by apply Hskip].
  destruct (isIntegerConstantExpr E) as [c|]; [|apply Hskip; [done|lia]].
  destruct (FoldConstant Opc I c L) as [L'|] eqn:HF.
  - destruct (FoldConstant_ok _ _ _ _ _ HF HL) as [HL' Hn].
    apply Hskip; [done|lia].
  - eexists. split; [done|]. cbn. exists st.
    split_and!; [by apply loop_post_refl|done|done].
Qed.

Lemma list_size_erase V s n :
  (s + n <= length V)%nat →
  (list_size (take s V ++ drop (s + n) V) + n <= list_size V)%nat.
Proof.
  intros Hlen.
  rewrite <- (take_drop s V) at 3.
  rewrite <- (take_drop n (drop s V)) at 1.
  rewrite drop_drop, !list_size_app.
  pose proof (length_le_list_size (take n (drop s V))) as Hmid.
  rewrite length_take, length_drop in Hmid. lia.
Qed.

Lemma Coalesce_single_leaf Opc E P st :
  CanCoalesce Opc [LeafExprNode E] P = true →
  Coalesce 2 true (BinaryOperatorNode Opc [LeafExprNode E]) P st
  = if Err st
    then Some (Kept (BinaryOperatorNode Opc [LeafExprNode E]), st)
    else Some (Merged [LeafExprNode E], SetChanged st).
Proof.
  intros HCC. cbn [Coalesce]. destruct (Err st) eqn:HE; [done|].
  cbn. rewrite HE. cbn. by rewrite HCC.
Qed.

Lemma ConstantFold_total fuel : ∀ N P st,
  WellFormed N = true → (Node_size N < fuel)%nat →
  ∃ o st', ConstantFold fuel N P st = Some (o, st')
           ∧ pass_post N P st o st'
           ∧ (∀ Cs, o = Merged Cs → length Cs = 1%nat).
Proof.
  induction fuel as [|fuel IH]; intros N P st HN Hsz; [lia|].
  cbn [ConstantFold]. destruct (Err st) eqn:HErr.
  { exists (Kept N), st. split_and!; [done|by apply pass_post_refl|done]. }
  destruct N as [Opc Cs|Opc C|B F A|CK C|E].
  - (* BinaryOperatorNode *)
    apply WellFormed_Binary in HN as [Hne HCs].
    rewrite Node_size_Binary in Hsz.
    assert (Hcall : child_call_ok1
                      (λ Child st, ConstantFold fuel Child (Some Opc) st)
                      (Some Opc) fuel).
    { intros C st0 HC HszC. apply IH; done. }
    pose proof (length_le_list_size Cs) as HlenCs.
    destruct (ConstantFold_loop_total _ Opc fuel fuel Hcall O Cs
                {| ConstStartIdx := O; NumConsts := O; ConstFoldedVal := 0 |}
                st HCs ltac:(lia) ltac:(lia) ltac:(lia))
      as (x & -> & Hx).
    { unfold locals_ok. cbn. lia. }
    destruct x as [V L st'|V st']; cbn [fold_exit_post] in Hx.
    + destruct Hx as ([wf mono same size dec len err] & Hlen & HL).
      assert (HneV : V ≠ []) by (destruct V, Cs; done).
      destruct (NumConsts L <=? 1)%nat eqn:HNum.
      * exists (Kept (BinaryOperatorNode Opc V)), st'.
        split_and!; [done| |done].
        split; cbn [outcome_wf outcome_size]; try done.
        -- by apply WellFormed_Binary.
        -- intros Hc. by rewrite same.
        -- rewrite !Node_size_Binary. lia.
        -- intros ???. rewrite !Node_size_Binary.
           assert (list_size V < list_size Cs)%nat by auto. lia.
        -- by intros ? [=]; subst.
      * apply Nat.leb_gt in HNum.
        set (V1 := take (ConstStartIdx L) V
                   ++ drop (ConstStartIdx L + NumConsts L) V).
        set (Leaf := LeafExprNode (IntegerLiteral (ConstFoldedVal L))).
        assert (HszV1 : (list_size V1 + NumConsts L <= list_size V)%nat).
        { apply list_size_erase. unfold locals_ok in HL. lia. }
        assert (HwfV1 : Forall (λ C, WellFormed C = true) V1).
        { apply Forall_app. split; [by apply Forall_take|by apply Forall_drop]. }
        assert (HszV2 : (list_size (V1 ++ [Leaf]) < list_size Cs)%nat).
        { rewrite list_size_app. cbn [list_size fold_right Node_size Leaf].
          lia. }
        assert (HwfV2 : Forall (λ C, WellFormed C = true) (V1 ++ [Leaf])).
        { apply Forall_app. split; [done|]. by apply Forall_singleton. }
        assert (HneV2 : V1 ++ [Leaf] ≠ []) by (by destruct V1).
        destruct ((length (V1 ++ [Leaf]) =? 1)%nat
                  && CanCoalesce Opc (V1 ++ [Leaf]) P) eqn:Hone.
        -- apply andb_true_iff in Hone as [H1 HCC].
           apply Nat.eqb_eq in H1.
           assert (V1 = []) as HV1.
           { rewrite length_app in H1. cbn in H1. destruct V1; [done|].
             cbn in H1. lia. }
           rewrite HV1 in *. cbn [app] in *.
           unfold Leaf in *. rewrite Coalesce_single_leaf by done.
           destruct (Err st') eqn:HE'.
           ++ eexists _, _. split_and!; [reflexivity| |done].
              split; cbn [outcome_wf outcome_size SetChanged Changed Err];
                try done; try congruence; try (by intros ? [=]; subst).
              rewrite !Node_size_Binary. lia.
           ++ eexists _, _. split_and!; [reflexivity| |].
              ** split; cbn [outcome_wf outcome_size SetChanged Changed Err];
                   try done; try congruence;
                   try (intros; rewrite !Node_size_Binary; lia).
                 intros ? _. by eapply CanCoalesce_parent.
              ** by intros ? [= <-].
        -- eexists _, _. split_and!; [reflexivity| |done].
           split; cbn [outcome_wf outcome_size SetChanged Changed Err];
             try done.
           ++ by apply WellFormed_Binary.
           ++ rewrite !Node_size_Binary. lia.
           ++ intros ???. rewrite !Node_size_Binary. lia.
           ++ by intros ? [=]; subst.
    + destruct Hx as (st0 & [wf mono same size dec len err] & -> & Hlen).
      assert (HneV : V ≠ []) by (destruct V, Cs; done).
      eexists _, _. split_and!; [reflexivity| |done].
      split; cbn [outcome_wf outcome_size SetError Changed Err]; try done.
      * by apply WellFormed_Binary.
      * intros Hc. by rewrite same.
      * rewrite !Node_size_Binary. lia.
      * by intros ? [=]; subst.
  - cbn [WellFormed Node_size] in *.
    destruct (IH C None st HN ltac:(lia)) as (o & st' & -> & Hpost & _).
    destruct Hpost as [wf mono same size dec root merged err].
    destruct o as [C'|Cs]; [|by destruct (merged Cs eq_refl)].
    eexists _, _. split_and!; [reflexivity| |done].
    cbn [outcome_wf outcome_size] in *.
    split; cbn [outcome_wf outcome_size WellFormed Node_size]; try done.
    + intros Hc. specialize (same Hc). by injection same as ->.
    + lia.
    + intros ???. assert (Node_size C' < Node_size C)%nat by auto. lia.
    + by intros ? [=]; subst.
  - cbn [WellFormed Node_size] in *.
    destruct (IH B None st HN ltac:(lia)) as (o & st' & -> & Hpost & _).
    destruct Hpost as [wf mono same size dec root merged err].
    destruct o as [C'|Cs]; [|by destruct (merged Cs eq_refl)].
    eexists _, _. split_and!; [reflexivity| |done].
    cbn [outcome_wf outcome_size] in *.
    split; cbn [outcome_wf outcome_size WellFormed Node_size]; try done.
    + intros Hc. specialize (same Hc). by injection same as ->.
    + lia.
    + intros ???. assert (Node_size C' < Node_size B)%nat by auto. lia.
    + by intros ? [=]; subst.
  - cbn [WellFormed Node_size] in *.
    destruct (IH C None st HN ltac:(lia)) as (o & st' & -> & Hpost & _).
    destruct Hpost as [wf mono same size dec root merged err].
    destruct o as [C'|Cs]; [|by destruct (merged Cs eq_refl)].
    eexists _, _. split_and!; [reflexivity| |done].
    cbn [outcome_wf outcome_size] in *.
    split; cbn [outcome_wf outcome_size WellFormed Node_size]; try done.
    + intros Hc. specialize (same Hc). by injection same as ->.
    + lia.
    + intros ???. assert (Node_size C' < Node_size C)%nat by auto. lia.
    + by intros ? [=]; subst.
  - exists (Kept (LeafExprNode E)), st.
    split_and!; [done|by apply pass_post_refl|done].
Qed.

Lemma ConstantFold_count fuel Opc Cs P st o st' :
  WellFormed (BinaryOperatorNode Opc Cs) = true →
  (Node_size (BinaryOperatorNode Opc Cs) < fuel)%nat →
  ConstantFold fuel (BinaryOperatorNode Opc Cs) P st = Some (o, st') →
  Changed st' = false → Err st' = false →
  IsOpCommutativeAndAssociative Opc = true →
  (length (ConstantLeaves Cs) <= 1)%nat.
Proof.
  intros HN Hsz H Hc He Hca. destruct fuel as [|fuel]; [done|].
  cbn [ConstantFold] in H. destruct (Err st) eqn:HErr; [simplify_eq; congruence|].
  apply WellFormed_Binary in HN as [Hne HCs].
  rewrite Node_size_Binary in Hsz.
  assert (Hcall : child_call_ok1
                    (λ Child st, ConstantFold fuel Child (Some Opc) st)
                    (Some Opc) fuel).
  { intros C st0 HC HszC. apply ConstantFold_total; done. }
  pose proof (length_le_list_size Cs) as HlenCs.
  destruct (ConstantFold_loop_total _ Opc fuel fuel Hcall O Cs
              {| ConstStartIdx := O; NumConsts := O; ConstFoldedVal := 0 |}
              st HCs ltac:(lia) ltac:(lia) ltac:(lia))
    as (x & Hx & Hpost).
  { unfold locals_ok. cbn. lia. }
  rewrite Hx in H. destruct x as [V L st1|V st1]; cbn [fold_exit_post] in Hpost.
  - destruct Hpost as (_ & _ & _ & Hcount).
    destruct (NumConsts L <=? 1)%nat eqn:HNum.
    + simplify_eq. apply Nat.leb_le in HNum.
      rewrite (Hcount Hc Hca) in HNum. rewrite drop_0 in HNum.
      cbn [NumConsts] in HNum. lia.
    + destruct (_ && _).
      * destruct (Coalesce 2 true _ P st1) as [[o' st'']|]; simplify_eq.
      * simplify_eq.
  - destruct Hpost as (st0 & _ & -> & _). simplify_eq.
Qed.

(** Induction on trees, with the hypothesis for every child of a
    [BinaryOperatorNode]. *)
Lemma Node_nested_ind (P : Node → Prop) :
  (∀ Opc Cs, Forall P Cs → P (BinaryOperatorNode Opc Cs)) →
  (∀ Opc C, P C → P (UnaryOperatorNode Opc C)) →
  (∀ B F A, P B → P (MemberNode B F A)) →
  (∀ CK C, P C → P (ImplicitCastNode CK C)) →
  (∀ E, P (LeafExprNode E)) →
  ∀ N, P N.
Proof.
  intros HB HU HM HI HL.
  refine (fix IH (N : Node) : P N :=
            match N with
            | BinaryOperatorNode Opc Cs =>
                HB Opc Cs
                  ((fix go (Cs : list Node) : Forall P Cs :=
                      match Cs with
                      | [] => @List.Forall_nil _ P
                      | C :: Cs' => @List.Forall_cons _ P C Cs' (IH C) (go Cs')
                      end) Cs)
            | UnaryOperatorNode Opc C => HU Opc C (IH C)
            | MemberNode B F A => HM B F A (IH B)
            | ImplicitCastNode CK C => HI CK C (IH C)
            | LeafExprNode E => HL E
            end).
Qed.

Lemma sort_insert_Permutation LT N V : sort_insert LT N V ≡ₚ N :: V.
Proof.
  induction V as [|M V IH]; cbn [sort_insert]; [done|].
  destruct (LT M N); [|done]. rewrite IH. apply Permutation_swap.
Qed.

Lemma llvm_sort_Permutation LT V : llvm_sort LT V ≡ₚ V.
Proof.
  induction V as [|N V IH]; [done|]. unfold llvm_sort in *.
  cbn [fold_right]. rewrite sort_insert_Permutation. by rewrite IH.
Qed.

Lemma list_size_Permutation V V' : V ≡ₚ V' → list_size V = list_size V'.
Proof.
  induction 1; rewrite ?list_size_cons in *; lia.
Qed.

Lemma list_size_map_eq (f : Node → Node) V :
  Forall (λ C, Node_size (f C) = Node_size C) V →
  list_size (map f V) = list_size V.
Proof.
  induction 1 as [|C V HC _ IH]; [done|].
  cbn [map]. rewrite !list_size_cons. lia.
Qed.

Lemma Sort_size Lex N : Node_size (Sort Lex N) = Node_size N.
Proof.
  induction N as [Opc Cs IH|Opc C IH|B F A IH|CK C IH|E]
    using Node_nested_ind; cbn [Sort Node_size]; try lia.
  fold (list_size Cs).
  destruct (negb (IsOpCommutativeAndAssociative Opc));
    rewrite Node_size_Binary; f_equal.
  - by apply list_size_map_eq.
  - rewrite (list_size_Permutation _ _ (llvm_sort_Permutation _ _)).
    by apply list_size_map_eq.
Qed.

Lemma Sort_WellFormed Lex N :
  WellFormed N = true → WellFormed (Sort Lex N) = true.
Proof.
  induction N as [Opc Cs IH|Opc C IH|B F A IH|CK C IH|E]
    using Node_nested_ind; cbn [Sort]; try done.
  intros [Hne HCs]%WellFormed_Binary.
  assert (Hmap : Forall (λ C, WellFormed C = true) (map (Sort Lex) Cs)).
  { apply Forall_map, Forall_forall. intros C HC.
    rewrite Forall_forall in IH, HCs. cbn. apply IH; auto. }
  assert (Hnemap : map (Sort Lex) Cs ≠ []) by (by destruct Cs).
  destruct (negb (IsOpCommutativeAndAssociative Opc));
    apply WellFormed_Binary; [done|].
  pose proof (llvm_sort_Permutation
                (λ N1 N2, Result_eqb (Compare Lex N1 N2) LessThan)
                (map (Sort Lex) Cs)) as Hp.
  split.
  - intros Hnil. rewrite Hnil in Hp. apply Permutation_nil_l in Hp. done.
  - by rewrite Hp.
Qed.

Lemma Sort_RootOpc Lex N : RootOpc (Sort Lex N) = RootOpc N.
Proof.
  destruct N; cbn [Sort RootOpc]; try done.
  by destruct (negb (IsOpCommutativeAndAssociative Opc)).
Qed.

Lemma Create_WellFormed E : WellFormed (Create E) = true.
Proof.
  funelim (Create E); try done;
    repeat match goal with
           | |- context [if ?b then _ else _] => destruct b
           end;
    cbn [WellFormed AddZero forallb length Nat.eqb negb andb];
    repeat match goal with
           | H : WellFormed _ = true |- _ => rewrite H; clear H
           end; done.
Qed.

Lemma CanCoalesce_None Opc Cs : CanCoalesce Opc Cs None = false.
Proof. unfold CanCoalesce. by destruct (negb _). Qed.

Lemma Coalesce_in_place_root fuel N st o st' :
  Coalesce_in_place fuel N None st = Some (o, st') →
  RootOpc N ≠ None → ∃ N', o = Kept N' ∧ RootOpc N' = RootOpc N.
Proof.
  intros H Hroot. destruct N as [Opc Cs| | | |]; try done.
  destruct fuel as [|fuel]; [done|]. cbn [Coalesce_in_place] in H.
  destruct (Err st); [simplify_eq; eauto|].
  destruct (Coalesce_loop_in_place _ _ _ _ _) as [[Cs' st1]|]; [|done].
  rewrite CanCoalesce_None in H. cbn [negb] in H. simplify_eq; eauto.
Qed.

Lemma ConstantFold_root fuel N st o st' :
  ConstantFold fuel N None st = Some (o, st') →
  RootOpc N ≠ None → ∃ N', o = Kept N' ∧ RootOpc N' = RootOpc N.
Proof.
  intros H Hroot. destruct N as [Opc Cs| | | |]; try done.
  destruct fuel as [|fuel]; [done|]. cbn [ConstantFold] in H.
  destruct (Err st); [simplify_eq; eauto|].
  destruct (ConstantFold_loop _ _ _ _ _ _ _) as [[V L st1|V st1]|]; [| |done].
  - destruct (NumConsts L <=? 1)%nat; [simplify_eq; eauto|].
    rewrite CanCoalesce_None, andb_false_r in H. simplify_eq; eauto.
  - simplify_eq; eauto.
Qed.

(** [Normalize_in_place] returns: every round that sets [Changed] removes
    a node. *)
Lemma Normalize_while_in_place_total Lex iters : ∀ R E,
  WellFormed R = true → RootOpc R ≠ None → (Node_size R < iters)%nat →
  ∃ R' E', Normalize_while_in_place iters Lex R E = Some (R', E')
           ∧ WellFormed R' = true ∧ RootOpc R' = RootOpc R
           ∧ (E' = false → folded_root R').
Proof.
  induction iters as [|iters IH]; intros R E HR Hroot Hsz; [lia|].
  cbn [Normalize_while_in_place].
  destruct (Coalesce_in_place_total (S (Node_size R)) R None
              {| Changed := false; Err := E |} HR ltac:(lia))
    as (o & st1 & HC & Hpost1 & HE1).
  rewrite HC.
  destruct (Coalesce_in_place_root _ _ _ _ _ HC Hroot) as (R1 & -> & Hroot1).
  destruct Hpost1 as [wf1 mono1 same1 size1 dec1 _ _ err1].
  cbn [outcome_wf outcome_size Changed Err] in *.
  destruct (Err st1) eqn:HErr1.
  { exists R1, true. split_and!; done. }
  pose proof (Sort_size Lex R1) as HszS.
  pose proof (Sort_WellFormed Lex R1 wf1) as HwfS.
  pose proof (Sort_RootOpc Lex R1) as HrootS.
  destruct (ConstantFold_total (S (Node_size (Sort Lex R1))) (Sort Lex R1)
              None st1 HwfS ltac:(lia)) as (o & st3 & HF & Hpost3 & _).
  rewrite HF.
  destruct (ConstantFold_root _ _ _ _ _ HF ltac:(congruence))
    as (R3 & -> & Hroot3).
  destruct Hpost3 as [wf3 mono3 same3 size3 dec3 _ _ err3].
  cbn [outcome_wf outcome_size Changed Err] in *.
  assert (Hroot' : RootOpc R3 = RootOpc R) by congruence.
  destruct (Err st3) eqn:HErr3.
  { exists R3, true. split_and!; done. }
  destruct (Changed st3) eqn:HCh3.
  - assert (Node_size R3 < Node_size R)%nat.
    { destruct (Changed st1) eqn:HCh1.
      - specialize (dec1 eq_refl eq_refl eq_refl). lia.
      - specialize (dec3 eq_refl eq_refl eq_refl). lia. }
    destruct (IH R3 false wf3 ltac:(congruence) ltac:(lia))
      as (R' & E' & -> & HR' & Hroot'' & Hfold).
    exists R', E'. split_and!; [done|done|congruence|done].
  - exists R3, false. split_and!; [done|done|done|].
    intros _ Opc Cs -> Hca.
    specialize (same3 eq_refl). injection same3 as Hsame.
    rewrite <- Hsame in HF, HwfS.
    eapply (ConstantFold_count _ Opc Cs None st1); try done.
    rewrite Hsame. lia.
Qed.

(** ** The loops of the source against the loops on vectors in place *)

Lemma Grow_ge growths : ∀ Capacity Size,
  (Size <= Capacity + growths)%nat → (Size <= Grow growths Capacity Size)%nat.
Proof.
  induction growths as [|g IH]; intros c s Hs; cbn [Grow]; [lia|].
  destruct (s <=? c)%nat eqn:Hle; [by apply Nat.leb_le|].
  apply IH. unfold NewCapacity. lia.
Qed.

Lemma CapacityFor_ge Capacity Size :
  (Size <= CapacityFor Capacity Size)%nat.
Proof. apply Grow_ge. lia. Qed.

Lemma CapacityFor_id Capacity Size :
  (Size <= Capacity)%nat → CapacityFor Capacity Size = Capacity.
Proof.
  intros Hs. unfold CapacityFor. destruct Size as [|s]; [done|].
  cbn [Grow]. by rewrite (proj2 (Nat.leb_le _ _) Hs).
Qed.

(** When the loop of the source returns, the loop on the vector in place
    returns the same. *)
Lemma Coalesce_loop_in_place_of call call' Heap r : ∀ I Capacity V st res,
  (∀ C st o, call C st = Some o → call' C st = Some o) →
  Coalesce_loop call Heap r I Capacity V st = Some res →
  Coalesce_loop_in_place call' r I V st = Some res.
Proof.
  induction r as [|r IH]; intros I Capacity V st res Hcall;
    cbn [Coalesce_loop Coalesce_loop_in_place]; [done|].
  destruct (V !! I) as [C|]; [|done].
  destruct (call C st) as [[o st1]|] eqn:Hc; [|done].
  rewrite (Hcall _ _ _ Hc). cbv zeta.
  destruct (_ && _ && _); [done|]. by apply IH.
Qed.

Lemma Coalesce_in_place_of fuel Spare : ∀ N P st res,
  Coalesce fuel Spare N P st = Some res →
  Coalesce_in_place fuel N P st = Some res.
Proof.
  induction fuel as [|fuel IH]; intros N P st res; [done|].
  cbn [Coalesce Coalesce_in_place]. destruct (Err st); [done|].
  destruct N as [Opc Cs|Opc C|B F A|CK C|E]; cbv zeta.
  - destruct (Coalesce_loop _ _ _ _ _ _ _) as [[Cs' st1]|] eqn:Hloop; [|done].
    eapply Coalesce_loop_in_place_of in Hloop; [by rewrite Hloop|].
    intros C st0 o. apply IH.
  - destruct (Coalesce fuel Spare C None st) as [r|] eqn:Hc; [|done].
    by rewrite (IH _ _ _ _ Hc).
  - destruct (Coalesce fuel Spare B None st) as [r|] eqn:Hc; [|done].
    by rewrite (IH _ _ _ _ Hc).
  - destruct (Coalesce fuel Spare C None st) as [r|] eqn:Hc; [|done].
    by rewrite (IH _ _ _ _ Hc).
  - done.
Qed.

Lemma Normalize_while_in_place_of Lex iters : ∀ Spare R E res,
  Normalize_while iters Lex Spare R E = Some res →
  Normalize_while_in_place iters Lex R E = Some res.
Proof.
  induction iters as [|iters IH]; intros Spare R E res; [done|].
  cbn [Normalize_while Normalize_while_in_place].
  destruct (Coalesce _ _ _ _ _) as [r|] eqn:HC; [|done].
  rewrite (Coalesce_in_place_of _ _ _ _ _ _ HC).
  destruct r as [[R1|?] st1]; [|done].
  destruct (Err st1); [done|]. cbv zeta.
  destruct (ConstantFold _ _ _ _) as [[[R3|?] st3]|]; try done.
  destruct (Err st3); [done|]. destruct (Changed st3); [|done].
  apply IH.
Qed.

Lemma Normalize_in_place_of Lex T T' :
  Normalize Lex T = Some T' → Normalize_in_place Lex T = Some T'.
Proof.
  unfold Normalize, Normalize_in_place. destruct (Root T) as [R|]; [|done].
  destruct (Normalize_while _ _ _ _ _) as [r|] eqn:Hw; [|done].
  by rewrite (Normalize_while_in_place_of _ _ _ _ _ _ Hw).
Qed.

Lemma Canonicalize_in_place_of Lex E R :
  Canonicalize Lex E = Some R → Canonicalize_in_place Lex E = Some R.
Proof.
  unfold Canonicalize, Canonicalize_in_place.
  destruct (Normalize Lex (Create_root E)) as [T'|] eqn:HN; [|done].
  by rewrite (Normalize_in_place_of _ _ _ HN).
Qed.

(** On a root, [Coalesce] keeps the node and its operator. *)
Lemma Coalesce_root fuel Spare N st o st' :
  Coalesce fuel Spare N None st = Some (o, st') →
  RootOpc N ≠ None → ∃ N', o = Kept N' ∧ RootOpc N' = RootOpc N.
Proof.
  intros H. apply Coalesce_in_place_of in H. by eapply Coalesce_in_place_root.
Qed.

(** What [Normalize] returns on a tree whose root is a binary operator:
    a tree with that operator at the root and with operands for every
    operator. *)
Lemma Normalize_root Lex T T' R :
  Normalize Lex T = Some T' → Root T = Some R →
  WellFormed R = true → RootOpc R ≠ None →
  ∃ R', Root T' = Some R' ∧ WellFormed R' = true ∧ RootOpc R' = RootOpc R.
Proof.
  intros HN%Normalize_in_place_of HT HR Hroot.
  unfold Normalize_in_place in HN. rewrite HT in HN.
  destruct (Normalize_while_in_place_total Lex (S (Node_size R)) R (Error T)
              HR Hroot ltac:(lia)) as (R' & E' & Hw & HR' & Hroot' & _).
  rewrite Hw in HN. injection HN as <-. by exists R'.
Qed.

Lemma Create_root_WellFormed E :
  WellFormed (BinaryOperatorNode BO_Add
                [LeafExprNode (IntegerLiteral 0); Create E]) = true.
Proof. cbn. by rewrite Create_WellFormed. Qed.



(** ** Construction: subtraction of a constant *)

Lemma checked_range v r : checked v = Some r → r = v ∧ InIntRange v = true.
Proof. unfold checked. destruct (InIntRange v); [|done]. by intros [= <-]. Qed.

Lemma lift2_Value f a b v :
  lift2 f a b = Value v →
  ∃ x y, a = Value x ∧ b = Value y ∧ f x y = Some v.
Proof.
  destruct a as [| |x], b as [| |y]; try done. cbn.
  destruct (f x y) eqn:Hf; [|done]. intros [= <-]. eauto.
Qed.

Lemma Evaluate_range E v :
  EvaluateKnownConstIntCheckOverflow E = Value v → InIntRange v = true.
Proof.
  revert v. induction E as [V|n|Opc L IHL R IHR|Opc S IHS| | | |]; intros v;
    cbn [EvaluateKnownConstIntCheckOverflow]; try done.
  - destruct (InIntRange n) eqn:Hn; [|done]. by intros [= <-].
  - destruct Opc; try done; intros (x & y & _ & _ & Hf)%lift2_Value;
      unfold sadd_ov, ssub_ov, smul_ov in Hf;
      by apply checked_range in Hf as [-> ?].
  - destruct Opc; try done; [by apply IHS|].
    intros (x & y & _ & _ & Hf)%lift2_Value. unfold ssub_ov in Hf.
    by apply checked_range in Hf as [-> ?].
Qed.

Lemma isIntegerConstantExpr_Value E v :
  isIntegerConstantExpr E = Some v ↔
  EvaluateKnownConstIntCheckOverflow E = Value v.
Proof.
  unfold isIntegerConstantExpr.
  destruct (EvaluateKnownConstIntCheckOverflow E); split; try done;
    by intros [= ->].
Qed.

Lemma InIntRange_spec v : InIntRange v = true ↔ INT_MIN <= v <= INT_MAX.
Proof. unfold InIntRange. rewrite andb_true_iff, !Z.leb_le. done. Qed.

Lemma negation_overflow E v :
  isIntegerConstantExpr E = Some v →
  ReportsOverflow (UnaryOperator UO_Minus E) = (v =? INT_MIN)
  ∧ isIntegerConstantExpr (UnaryOperator UO_Minus E)
    = if v =? INT_MIN then None else Some (- v).
Proof.
  intros HE%isIntegerConstantExpr_Value.
  pose proof (Evaluate_range E v HE) as Hr%InIntRange_spec.
  unfold ReportsOverflow, isIntegerConstantExpr.
  cbn [EvaluateKnownConstIntCheckOverflow]. rewrite HE.
  cbn [lift2]. unfold ssub_ov, checked.
  destruct (v =? INT_MIN) eqn:Hv.
  - apply Z.eqb_eq in Hv. subst v. done.
  - apply Z.eqb_neq in Hv.
    assert (InIntRange (0 - v) = true) as ->; [|by rewrite Z.sub_0_l].
    apply InIntRange_spec. unfold INT_MIN, INT_MAX, IntWidth in *. lia.
Qed.

(** C6: when the right operand [b] of a subtraction [a - b] is an integer
    constant expression of value [v], the evaluator reports an overflow for
    [-b] exactly when [v] is the least value of [int]; if it does not, the
    node built for [a - b] is a [+] node over the tree of [a] and the
    constant leaf [-b]; if it does, the node is the [-] node over the trees
    of [a] and [b]. *)
Theorem C6_subtraction_of_constant (a b : Expr) (v : Z) :
  isIntegerConstantExpr b = Some v →
  ReportsOverflow (UnaryOperator UO_Minus b) = (v =? INT_MIN)
  ∧ Create (BinaryOperator BO_Sub a b)
    = if v =? INT_MIN
      then BinaryOperatorNode BO_Sub [Create a; Create b]
      else BinaryOperatorNode BO_Add
             [Create a; LeafExprNode (UnaryOperator UO_Minus b)].
Proof.
  intros Hb. destruct (negation_overflow b v Hb) as [Hov Hneg].
  split; [done|]. simp Create. rewrite Hb, Hov. cbn [is_BO_Sub is_Some andb].
  destruct (v =? INT_MIN); cbn [negb]; [done|].
  simp Create. rewrite Hneg. done.
Qed.

Lemma C6_subtraction_of_constant_witness :
  isIntegerConstantExpr (IntegerLiteral 1) = Some 1
  ∧ Create (BinaryOperator BO_Sub (DeclRefExpr 0%nat) (IntegerLiteral 1))
    = BinaryOperatorNode BO_Add
        [LeafExprNode (DeclRefExpr 0%nat);
         LeafExprNode (UnaryOperator UO_Minus (IntegerLiteral 1))]
  ∧ Create (BinaryOperator BO_Sub (DeclRefExpr 0%nat) (IntegerLiteral INT_MIN))
    = BinaryOperatorNode BO_Sub
        [LeafExprNode (DeclRefExpr 0%nat);
         LeafExprNode (IntegerLiteral INT_MIN)].
Proof.
  split; [reflexivity|]. split.
  - exact (proj2 (C6_subtraction_of_constant (DeclRefExpr 0%nat)
                    (IntegerLiteral 1) 1 eq_refl)).
  - exact (proj2 (C6_subtraction_of_constant (DeclRefExpr 0%nat)
                    (IntegerLiteral INT_MIN) INT_MIN eq_refl)).
Defined.

(** ** Canonical trees *)

Lemma Canonicalize_in_place_shape Lex E U :
  Canonicalize_in_place Lex E = Some U →
  ∃ Cs, U = BinaryOperatorNode BO_Add Cs
        ∧ (length (ConstantLeaves Cs) <= 1)%nat.
Proof.
  unfold Canonicalize_in_place, Normalize_in_place, Create_root, AttachNode_root.
  cbn [isa_BinaryOperatorNode Root Error AddZero]. unfold AddZero.
  set (R := BinaryOperatorNode BO_Add [LeafExprNode ZeroLiteral; Create E]).
  assert (HR : WellFormed R = true).
  { unfold R. cbn. by rewrite Create_WellFormed. }
  destruct (Normalize_while_in_place_total Lex (S (Node_size R)) R false HR
              ltac:(done) ltac:(lia)) as (R' & E' & -> & HR' & Hroot & Hf).
  destruct E'; [done|]. intros [= <-].
  destruct R' as [Opc Cs| | | |]; try done.
  cbn in Hroot. injection Hroot as ->. exists Cs. split; [done|].
  by eapply Hf.
Qed.

Lemma Canonicalize_shape Lex E U :
  Canonicalize Lex E = Some U →
  ∃ Cs, U = BinaryOperatorNode BO_Add Cs
        ∧ (length (ConstantLeaves Cs) <= 1)%nat.
Proof.
  intros H. by eapply Canonicalize_in_place_shape, Canonicalize_in_place_of.
Qed.

(** ** GetDerefOffset against its contract *)

Section DerefOffset.
Variable Lex : Lexicographic.
Hypothesis CompareExpr_Equal :
  ∀ E1 E2, CompareExpr Lex E1 E2 = Equal → E1 = E2.

Lemma Result_eqb_Equal r : Result_eqb r Equal = true ↔ r = Equal.
Proof. destruct r; cbn; split; done. Qed.

Lemma Compare_Equal_IsConstantLeaf C1 C2 :
  Compare Lex C1 C2 = Equal → IsConstantLeaf C1 = IsConstantLeaf C2.
Proof.
  destruct C1, C2; cbn; try done.
  intros HE. by rewrite (CompareExpr_Equal _ _ HE).
Qed.

(** Without constant leaves the loop succeeds exactly when all children
    compare equal, and leaves [Offset] alone. *)
Lemma GetDerefOffset_loop_no_constants Opc Cs1 : ∀ Cs2 Offset Delta,
  ConstantLeaves Cs1 = [] → ConstantLeaves Cs2 = [] →
  length Cs1 = length Cs2 →
  (GetDerefOffset_loop Lex Opc Cs1 Cs2 Offset = Some Delta
   ↔ OperandsMatch Lex Cs1 Cs2 ∧ Delta = Offset).
Proof.
  unfold OperandsMatch.
  induction Cs1 as [|C1 Cs1 IH]; intros [|C2 Cs2] Offset Delta H1 H2 Hlen;
    try done.
  - cbn. split; [intros [= <-]; split; [constructor|done]|].
    by intros [_ ->].
  - rewrite ConstantLeaves_cons in H1, H2.
    destruct (IsConstantLeaf C1) eqn:HC1; [done|].
    destruct (IsConstantLeaf C2) eqn:HC2; [done|].
    cbn [GetDerefOffset_loop].
    destruct (Result_eqb (Compare Lex C1 C2) Equal) eqn:HE.
    + apply Result_eqb_Equal in HE.
      rewrite (IH Cs2 Offset Delta H1 H2 ltac:(by injection Hlen)).
      rewrite Forall2_cons. split; [intros [? ?]; auto|].
      by intros [[_ ?] ?].
    + assert (Compare Lex C1 C2 ≠ Equal) as HnE.
      { intros HEq. apply Result_eqb_Equal in HEq. congruence. }
      split.
      * destruct C1, C2; try done. cbn in HC1, HC2. by rewrite HC1.
      * rewrite Forall2_cons. intros [[[?|[? _]] _] _]; [done|].
        by rewrite HC1 in *.
Qed.

Lemma OperandsMatch_no_constants Cs1 Cs2 :
  ConstantLeaves Cs1 = [] →
  OperandsMatch Lex Cs1 Cs2 → ConstantLeaves Cs2 = [].
Proof.
  unfold OperandsMatch. intros H1 HM. revert H1.
  induction HM as [|C1 C2 Cs1 Cs2 HC _ IH]; [done|].
  rewrite !ConstantLeaves_cons.
  destruct (IsConstantLeaf C1) eqn:HC1; [done|]. intros H1.
  destruct HC as [HE|[? _]]; [|done].
  rewrite <- (Compare_Equal_IsConstantLeaf _ _ HE), HC1. auto.
Qed.

Lemma IsConstantLeaf_Some C v :
  IsConstantLeaf C = Some v →
  ∃ E, C = LeafExprNode E ∧ isIntegerConstantExpr E = Some v.
Proof. destruct C; try done. cbn. eauto. Qed.

Lemma ConstantLeaves_nil_of_length c Cs :
  (length (c :: ConstantLeaves Cs) <= 1)%nat → ConstantLeaves Cs = [].
Proof. destruct (ConstantLeaves Cs); cbn; [done|lia]. Qed.

Lemma ssub_ov_self_iff c Delta :
  ssub_ov (c + 0) (c + 0) = Some Delta ↔ Delta = 0.
Proof.
  unfold ssub_ov. replace (c + 0 - (c + 0)) with 0 by lia.
  change (checked 0) with (Some 0). split; [by intros [= <-]|by intros ->].
Qed.

(** On folded operand lists (at most one constant leaf each) the loop of
    [GetDerefOffset], entered with [Offset = 0], agrees with the
    contract. *)
Lemma GetDerefOffset_loop_spec Cs1 : ∀ Cs2 Delta,
  (length (ConstantLeaves Cs1) <= 1)%nat →
  (length (ConstantLeaves Cs2) <= 1)%nat →
  length Cs1 = length Cs2 →
  (GetDerefOffset_loop Lex BO_Add Cs1 Cs2 0 = Some Delta
   ↔ OperandsMatch Lex Cs1 Cs2
     ∧ ssub_ov (ConstantPart Cs2) (ConstantPart Cs1) = Some Delta).
Proof.
  induction Cs1 as [|C1 Cs1 IH]; intros [|C2 Cs2] Delta H1 H2 Hlen; try done.
  - cbn. change (ssub_ov 0 0) with (Some 0).
    split; [intros [= <-]; split; [constructor|done]|by intros [_ ?]].
  - injection Hlen as Hlen.
    unfold ConstantPart in *. rewrite !ConstantLeaves_cons in *.
    cbn [GetDerefOffset_loop].
    destruct (Result_eqb (Compare Lex C1 C2) Equal) eqn:HE.
    + apply Result_eqb_Equal in HE.
      pose proof (Compare_Equal_IsConstantLeaf _ _ HE) as Ho.
      rewrite <- Ho in *.
      destruct (IsConstantLeaf C1) as [c|] eqn:HC1.
      * apply ConstantLeaves_nil_of_length in H1, H2.
        rewrite (GetDerefOffset_loop_no_constants BO_Add Cs1 Cs2 0 Delta
                   H1 H2 Hlen).
        rewrite H1, H2. cbn [foldr]. rewrite ssub_ov_self_iff.
        unfold OperandsMatch. rewrite Forall2_cons. tauto.
      * rewrite (IH Cs2 Delta H1 H2 Hlen).
        unfold OperandsMatch. rewrite Forall2_cons. tauto.
    + assert (Compare Lex C1 C2 ≠ Equal) as HnE.
      { intros HEq. apply Result_eqb_Equal in HEq. congruence. }
      unfold OperandsMatch. rewrite Forall2_cons.
      destruct (IsConstantLeaf C1) as [u|] eqn:HC1.
      2:{ split; [|intros [[[?|[? _]] _] _]; done].
          destruct C1, C2; try done. cbn in HC1. by rewrite HC1. }
      destruct (IsConstantLeaf C2) as [d|] eqn:HC2.
      2:{ split; [|intros [[[?|[_ ?]] _] _]; done].
          destruct C1, C2; try done. cbn in HC1, HC2. rewrite HC1, HC2.
          done. }
      apply ConstantLeaves_nil_of_length in H1, H2.
      rewrite H1, H2. cbn [foldr]. rewrite !Z.add_0_r.
      apply IsConstantLeaf_Some in HC1 as (E1 & -> & HE1).
      apply IsConstantLeaf_Some in HC2 as (E2 & -> & HE2).
      rewrite HE1, HE2. cbn [BinaryOperatorKind_eqb negb].
      change (BinaryOpcode BO_Add =? BinaryOpcode BO_Add) with true.
      cbn [negb Z.eqb].
      destruct (ssub_ov d u) as [off|] eqn:Hsub.
      * rewrite (GetDerefOffset_loop_no_constants BO_Add Cs1 Cs2 off Delta
                   H1 H2 Hlen).
        fold (OperandsMatch Lex Cs1 Cs2).
        split; [intros [? ->]; split_and!; auto|].
        intros [[_ ?] [= ->]]. done.
      * split; [done|]. by intros [_ ?].
Qed.
End DerefOffset.

(** ** The structural comparator is a total order *)

Lemma TotalOrder_flip {A} (cmp : A → A → Result) :
  TotalOrder cmp → ∀ a b, cmp b a = flip (cmp a b).
Proof.
  intros [Hrefl Heq Hanti Htrans] a b.
  destruct (cmp a b) eqn:Hab; cbn.
  - by apply Hanti.
  - apply Heq in Hab as ->. apply Hrefl.
  - by apply Hanti.
Qed.

Lemma CompareZ_spec a b :
  (a < b ∧ CompareZ a b = LessThan)
  ∨ (a = b ∧ CompareZ a b = Equal)
  ∨ (b < a ∧ CompareZ a b = GreaterThan).
Proof.
  unfold CompareZ. rewrite Z.gtb_ltb.
  destruct (Z.ltb_spec a b); [by left|].
  destruct (Z.ltb_spec b a); [by right; right|].
  right; left. split; [lia|done].
Qed.

Lemma CompareZ_TotalOrder : TotalOrder CompareZ.
Proof.
  split.
  - intros a. destruct (CompareZ_spec a a) as [[? ?]|[[? ?]|[? ?]]]; (done || lia).
  - intros a b H. destruct (CompareZ_spec a b) as [[? ?]|[[? ?]|[? ?]]];
      (done || congruence).
  - intros a b.
    destruct (CompareZ_spec a b) as [[? Hab]|[[? Hab]|[? Hab]]];
      destruct (CompareZ_spec b a) as [[? Hba]|[[? Hba]|[? Hba]]];
      rewrite Hab, Hba; (done || lia).
  - intros a b c Hab Hbc.
    destruct (CompareZ_spec a b) as [[? ?]|[[? ?]|[? ?]]]; try congruence.
    destruct (CompareZ_spec b c) as [[? ?]|[[? ?]|[? ?]]]; try congruence.
    destruct (CompareZ_spec a c) as [[? ?]|[[? ?]|[? ?]]]; (done || lia).
Qed.

(** A comparison through an injective key. *)
Lemma TotalOrder_key {A B} (cmp : B → B → Result) (key : A → B) :
  (∀ a b, key a = key b → a = b) →
  TotalOrder cmp → TotalOrder (λ a b, cmp (key a) (key b)).
Proof.
  intros Hinj [Hrefl Heq Hanti Htrans]. split; eauto.
Qed.

Lemma CompareNat_TotalOrder : TotalOrder CompareNat.
Proof.
  apply (TotalOrder_key CompareZ Z.of_nat); [apply Nat2Z.inj|].
  apply CompareZ_TotalOrder.
Qed.

Lemma BinaryOpcode_inj a b : BinaryOpcode a = BinaryOpcode b → a = b.
Proof. by destruct a, b. Qed.

Lemma UnaryOpcode_inj a b : UnaryOpcode a = UnaryOpcode b → a = b.
Proof. by destruct a, b. Qed.

Lemma ArrowKey_inj a b : ArrowKey a = ArrowKey b → a = b.
Proof. by destruct a, b. Qed.

Lemma Result_then_Equal r k :
  Result_then r k = Equal ↔ r = Equal ∧ k = Equal.
Proof. destruct r; cbn; split; (done || by intros [? ?]). Qed.

Lemma Result_then_LessThan r k :
  Result_then r k = LessThan ↔ r = LessThan ∨ (r = Equal ∧ k = LessThan).
Proof.
  destruct r; cbn; split; try done; try (by left); try (by intros [?|[? ?]]).
  by right.
Qed.

Lemma flip_Result_then r k :
  flip (Result_then r k) = Result_then (flip r) (flip k).
Proof. by destruct r. Qed.

(** Transitivity of a comparison made of a first key and, on equal keys,
    a second comparison. *)
Lemma Result_then_trans {A} (cmp : A → A → Result) (a1 a2 a3 : A)
    (k12 k23 k13 : Result) :
  TotalOrder cmp →
  (k12 = LessThan → k23 = LessThan → k13 = LessThan) →
  Result_then (cmp a1 a2) k12 = LessThan →
  Result_then (cmp a2 a3) k23 = LessThan →
  Result_then (cmp a1 a3) k13 = LessThan.
Proof.
  intros [Hrefl Heq Hanti Htrans] Hk.
  rewrite !Result_then_LessThan.
  intros [H12|[H12 K12]] [H23|[H23 K23]].
  - left. eauto.
  - left. apply Heq in H23 as <-. done.
  - left. apply Heq in H12 as ->. done.
  - right. apply Heq in H12 as ->. apply Heq in H23 as ->.
    split; [apply Hrefl|auto].
Qed.

(** The comparator, case by case, as a lexicographic combination. *)
Lemma if_lt_gt_Z (a b : Z) (k : Result) :
  (if a <? b then LessThan else if a >? b then GreaterThan else k)
  = Result_then (CompareZ a b) k.
Proof. unfold CompareZ. by destruct (a <? b), (a >? b). Qed.

Lemma if_lt_gt_nat (a b : nat) (k : Result) :
  (if (a <? b)%nat then LessThan
   else if (b <? a)%nat then GreaterThan else k)
  = Result_then (CompareNat a b) k.
Proof.
  unfold CompareNat, CompareZ. rewrite Z.gtb_ltb.
  destruct (Nat.ltb_spec a b), (Nat.ltb_spec b a),
    (Z.ltb_spec (Z.of_nat a) (Z.of_nat b)),
    (Z.ltb_spec (Z.of_nat b) (Z.of_nat a)); (done || lia).
Qed.

Lemma if_arrow (A B : bool) (k : Result) :
  (if A && negb B then LessThan
   else if negb A && B then GreaterThan else k)
  = Result_then (CompareZ (ArrowKey A) (ArrowKey B)) k.
Proof. by destruct A, B. Qed.

Lemma match_Result_then (r k : Result) :
  match r with Equal => k | LessThan => LessThan | GreaterThan => GreaterThan end
  = Result_then r k.
Proof. by destruct r. Qed.

Lemma Compare_kinds Lex N M :
  NodeKind N ≠ NodeKind M → Compare Lex N M = CompareKinds N M.
Proof.
  intros Hk. destruct N, M; try done; cbn in Hk; done.
Qed.

Lemma Compare_Binary Lex Opc Cs BOpc BCs :
  Compare Lex (BinaryOperatorNode Opc Cs) (BinaryOperatorNode BOpc BCs)
  = Result_then (CompareZ (BinaryOpcode Opc) (BinaryOpcode BOpc))
      (Result_then (CompareNat (length Cs) (length BCs))
         (CompareChildren (Compare Lex) Cs BCs)).
Proof. cbn [Compare CompareKinds NodeKind]. by rewrite if_lt_gt_Z, if_lt_gt_nat. Qed.

Lemma Compare_Unary Lex Opc C UOpc UC :
  Compare Lex (UnaryOperatorNode Opc C) (UnaryOperatorNode UOpc UC)
  = Result_then (CompareZ (UnaryOpcode Opc) (UnaryOpcode UOpc))
      (Compare Lex C UC).
Proof. cbn [Compare CompareKinds NodeKind]. by rewrite if_lt_gt_Z. Qed.

Lemma Compare_Member Lex B F A MB MF MA :
  Compare Lex (MemberNode B F A) (MemberNode MB MF MA)
  = Result_then (CompareZ (ArrowKey A) (ArrowKey MA))
      (Result_then (CompareDecl Lex F MF) (Compare Lex B MB)).
Proof.
  cbn [Compare CompareKinds NodeKind]. rewrite <- if_arrow.
  change (CompareZ 2 2) with Equal. cbv iota.
  destruct (A && negb MA); [done|]. destruct (negb A && MA); [done|].
  by destruct (CompareDecl Lex F MF).
Qed.

Lemma Compare_ImplicitCast Lex CK C ICK IC :
  Compare Lex (ImplicitCastNode CK C) (ImplicitCastNode ICK IC)
  = Result_then (CompareNat CK ICK) (Compare Lex C IC).
Proof. cbn [Compare CompareKinds NodeKind]. by rewrite if_lt_gt_nat. Qed.

Lemma Compare_Leaf Lex E LE :
  Compare Lex (LeafExprNode E) (LeafExprNode LE) = CompareExpr Lex E LE.
Proof. reflexivity. Qed.

Section Comparator.
Variable Lex : Lexicographic.
Hypothesis Expr_order : TotalOrder (CompareExpr Lex).
Hypothesis Decl_order : TotalOrder (CompareDecl Lex).

Lemma CompareKinds_refl N : CompareKinds N N = Equal.
Proof. apply (cmp_refl _ CompareZ_TotalOrder). Qed.

Lemma CompareChildren_refl Cs :
  Forall (λ C, Compare Lex C C = Equal) Cs →
  CompareChildren (Compare Lex) Cs Cs = Equal.
Proof. induction 1 as [|C Cs HC _ IH]; [done|]. cbn. by rewrite HC. Qed.

Lemma Compare_refl N : Compare Lex N N = Equal.
Proof.
  induction N as [Opc Cs IH|Opc C IH|B F A IH|CK C IH|E]
    using Node_nested_ind.
  - rewrite Compare_Binary, (cmp_refl _ CompareZ_TotalOrder),
      (cmp_refl _ CompareNat_TotalOrder). cbn.
    by apply CompareChildren_refl.
  - by rewrite Compare_Unary, (cmp_refl _ CompareZ_TotalOrder).
  - by rewrite Compare_Member, (cmp_refl _ CompareZ_TotalOrder),
      (cmp_refl _ Decl_order).
  - by rewrite Compare_ImplicitCast, (cmp_refl _ CompareNat_TotalOrder).
  - rewrite Compare_Leaf. apply (cmp_refl _ Expr_order).
Qed.

Lemma CompareKinds_Equal N M :
  CompareKinds N M = Equal → NodeKind N = NodeKind M.
Proof. apply (cmp_eq _ CompareZ_TotalOrder). Qed.

Lemma Compare_Equal_kinds N M :
  Compare Lex N M = Equal → NodeKind N = NodeKind M.
Proof.
  intros H. destruct (decide (NodeKind N = NodeKind M)) as [|Hne]; [done|].
  rewrite (Compare_kinds _ _ _ Hne) in H. by apply CompareKinds_Equal.
Qed.

Lemma CompareChildren_eq Cs1 : ∀ Cs2,
  Forall (λ C, ∀ M, Compare Lex C M = Equal → C = M) Cs1 →
  length Cs1 = length Cs2 →
  CompareChildren (Compare Lex) Cs1 Cs2 = Equal → Cs1 = Cs2.
Proof.
  induction Cs1 as [|C1 Cs1 IH]; intros [|C2 Cs2] HF Hlen; try done.
  apply Forall_cons in HF as [HC HF]. injection Hlen as Hlen. cbn.
  destruct (Compare Lex C1 C2) eqn:HE; try done.
  intros H. rewrite (HC C2 HE). f_equal. by apply IH.
Qed.

Lemma Compare_eq N : ∀ M, Compare Lex N M = Equal → N = M.
Proof.
  induction N as [Opc Cs IH|Opc C IH|B F A IH|CK C IH|E]
    using Node_nested_ind; intros M H;
    pose proof (Compare_Equal_kinds _ _ H) as Hk;
    destruct M as [Opc' Cs'|Opc' C'|B' F' A'|CK' C'|E']; try done.
  - rewrite Compare_Binary, !Result_then_Equal in H.
    destruct H as (Ho%(cmp_eq _ CompareZ_TotalOrder)
                   & Hl%(cmp_eq _ CompareNat_TotalOrder) & Hc).
    apply BinaryOpcode_inj in Ho as ->. f_equal.
    by apply CompareChildren_eq.
  - rewrite Compare_Unary, !Result_then_Equal in H.
    destruct H as (Ho%(cmp_eq _ CompareZ_TotalOrder) & Hc).
    apply UnaryOpcode_inj in Ho as ->. f_equal. by apply IH.
  - rewrite Compare_Member, !Result_then_Equal in H.
    destruct H as (Ha%(cmp_eq _ CompareZ_TotalOrder)
                   & Hf%(cmp_eq _ Decl_order) & Hc).
    apply ArrowKey_inj in Ha as ->. subst F'. f_equal. by apply IH.
  - rewrite Compare_ImplicitCast, !Result_then_Equal in H.
    destruct H as (Ho%(cmp_eq _ CompareNat_TotalOrder) & Hc).
    subst CK'. f_equal. by apply IH.
  - rewrite Compare_Leaf in H. f_equal. by apply (cmp_eq _ Expr_order).
Qed.

Lemma CompareChildren_flip Cs1 : ∀ Cs2,
  Forall (λ C, ∀ M, Compare Lex M C = flip (Compare Lex C M)) Cs1 →
  CompareChildren (Compare Lex) Cs2 Cs1
  = flip (CompareChildren (Compare Lex) Cs1 Cs2).
Proof.
  induction Cs1 as [|C1 Cs1 IH]; intros [|C2 Cs2] HF; try done.
  apply Forall_cons in HF as [HC HF]. cbn. rewrite (HC C2).
  destruct (Compare Lex C1 C2); cbn; try done. by apply IH.
Qed.

Lemma CompareKinds_flip N M : CompareKinds M N = flip (CompareKinds N M).
Proof. apply (TotalOrder_flip _ CompareZ_TotalOrder). Qed.

Lemma Compare_flip N : ∀ M, Compare Lex M N = flip (Compare Lex N M).
Proof.
  induction N as [Opc Cs IH|Opc C IH|B F A IH|CK C IH|E]
    using Node_nested_ind; intros M;
    destruct M as [Opc' Cs'|Opc' C'|B' F' A'|CK' C'|E'];
    try (rewrite !Compare_kinds by done; apply CompareKinds_flip).
  - rewrite !Compare_Binary, !flip_Result_then.
    rewrite <- (TotalOrder_flip _ CompareZ_TotalOrder),
      <- (TotalOrder_flip _ CompareNat_TotalOrder).
    by rewrite CompareChildren_flip.
  - rewrite !Compare_Unary, !flip_Result_then.
    by rewrite <- (TotalOrder_flip _ CompareZ_TotalOrder), IH.
  - rewrite !Compare_Member, !flip_Result_then.
    by rewrite <- (TotalOrder_flip _ CompareZ_TotalOrder),
      <- (TotalOrder_flip _ Decl_order), IH.
  - rewrite !Compare_ImplicitCast, !flip_Result_then.
    by rewrite <- (TotalOrder_flip _ CompareNat_TotalOrder), IH.
  - rewrite !Compare_Leaf. apply (TotalOrder_flip _ Expr_order).
Qed.

Lemma CompareChildren_trans Cs1 : ∀ Cs2 Cs3,
  Forall (λ C, ∀ M K, Compare Lex C M = LessThan →
                      Compare Lex M K = LessThan →
                      Compare Lex C K = LessThan) Cs1 →
  CompareChildren (Compare Lex) Cs1 Cs2 = LessThan →
  CompareChildren (Compare Lex) Cs2 Cs3 = LessThan →
  CompareChildren (Compare Lex) Cs1 Cs3 = LessThan.
Proof.
  induction Cs1 as [|C1 Cs1 IH]; intros [|C2 Cs2] [|C3 Cs3] HF; try done.
  apply Forall_cons in HF as [HC HF]. cbn.
  destruct (Compare Lex C1 C2) eqn:H12; try done;
    destruct (Compare Lex C2 C3) eqn:H23; try done.
  - by rewrite (HC _ _ H12 H23).
  - apply Compare_eq in H23 as <-. by rewrite H12.
  - apply Compare_eq in H12 as ->. by rewrite H23.
  - apply Compare_eq in H12 as ->. rewrite H23. by apply IH.
Qed.

Lemma CompareKinds_trans N M K :
  CompareKinds N M = LessThan → CompareKinds M K = LessThan →
  CompareKinds N K = LessThan.
Proof. apply (cmp_trans _ CompareZ_TotalOrder). Qed.

Lemma Compare_LessThan_kinds N M :
  Compare Lex N M = LessThan →
  CompareKinds N M = LessThan ∨ NodeKind N = NodeKind M.
Proof.
  intros H. destruct (decide (NodeKind N = NodeKind M)) as [|Hne]; [by right|].
  rewrite (Compare_kinds _ _ _ Hne) in H. by left.
Qed.

Lemma CompareKinds_LessThan N M :
  CompareKinds N M = LessThan → NodeKind N < NodeKind M.
Proof.
  unfold CompareKinds. intros H.
  destruct (CompareZ_spec (NodeKind N) (NodeKind M)) as [[? ?]|[[? ?]|[? ?]]];
    (done || congruence).
Qed.

Lemma CompareKinds_of_lt N M :
  NodeKind N < NodeKind M → Compare Lex N M = LessThan.
Proof.
  intros H. rewrite Compare_kinds by lia. unfold CompareKinds.
  destruct (CompareZ_spec (NodeKind N) (NodeKind M)) as [[? ?]|[[? ?]|[? ?]]];
    (done || lia).
Qed.

Lemma Compare_trans N : ∀ M K,
  Compare Lex N M = LessThan → Compare Lex M K = LessThan →
  Compare Lex N K = LessThan.
Proof.
  induction N as [Opc Cs IH|Opc C IH|B F A IH|CK C IH|E]
    using Node_nested_ind; intros M K H12 H23;
    destruct (Compare_LessThan_kinds _ _ H12) as [Hk12%CompareKinds_LessThan|Hk12];
    destruct (Compare_LessThan_kinds _ _ H23) as [Hk23%CompareKinds_LessThan|Hk23];
    try (apply CompareKinds_of_lt; lia);
    destruct M as [Opc' Cs'|Opc' C'|B' F' A'|CK' C'|E']; try done;
    destruct K as [Opc'' Cs''|Opc'' C''|B'' F'' A''|CK'' C''|E'']; try done.
  - rewrite Compare_Binary in *.
    eapply (Result_then_trans CompareZ); [apply CompareZ_TotalOrder| |done|done].
    intros K12 K23.
    eapply (Result_then_trans CompareNat);
      [apply CompareNat_TotalOrder| |done|done].
    by apply CompareChildren_trans.
  - rewrite Compare_Unary in *.
    eapply (Result_then_trans CompareZ); [apply CompareZ_TotalOrder| |done|done].
    apply IH.
  - rewrite Compare_Member in *.
    eapply (Result_then_trans CompareZ); [apply CompareZ_TotalOrder| |done|done].
    intros K12 K23.
    eapply (Result_then_trans (CompareDecl Lex)); [apply Decl_order| |done|done].
    apply IH.
  - rewrite Compare_ImplicitCast in *.
    eapply (Result_then_trans CompareNat);
      [apply CompareNat_TotalOrder| |done|done].
    apply IH.
  - rewrite Compare_Leaf in *. by eapply (cmp_trans _ Expr_order).
Qed.

Lemma Compare_TotalOrder : TotalOrder (Compare Lex).
Proof.
  split.
  - apply Compare_refl.
  - intros N M. apply Compare_eq.
  - intros N M. rewrite (Compare_flip N M).
    destruct (Compare Lex N M); cbn; split; done.
  - intros N M K. apply Compare_trans.
Qed.
End Comparator.

(** ** The modelled host ordering is a total order *)

Lemma trans4_then a12 a23 a13 b12 b23 b13 :
  trans4 a12 a23 a13 →
  (b12 = LessThan → b23 = LessThan → b13 = LessThan) →
  Result_then a12 b12 = LessThan → Result_then a23 b23 = LessThan →
  Result_then a13 b13 = LessThan.
Proof.
  intros (H1 & H2 & H3 & H4) Hb. rewrite !Result_then_LessThan.
  intros [?|[? ?]] [?|[? ?]]; auto.
Qed.

Lemma TotalOrder_trans4 {A} (cmp : A → A → Result) a b c :
  TotalOrder cmp → trans4 (cmp a b) (cmp b c) (cmp a c).
Proof.
  intros [Hrefl Heq Hanti Htrans]. split_and!.
  - apply Htrans.
  - by intros ? <-%Heq.
  - by intros ->%Heq.
  - intros ->%Heq ->%Heq. apply Hrefl.
Qed.

Lemma CompareBool_key a b :
  CompareBool a b = CompareZ (if a then 1 else 0) (if b then 1 else 0).
Proof. reflexivity. Qed.

Lemma bool_key_inj (a b : bool) :
  (if a then 1 else 0) = (if b then 1 else 0) :> Z → a = b.
Proof. by destruct a, b. Qed.

Lemma CompareBool_TotalOrder : TotalOrder CompareBool.
Proof.
  apply (TotalOrder_key CompareZ (λ a : bool, if a then 1 else 0));
    [apply bool_key_inj|apply CompareZ_TotalOrder].
Qed.

Lemma DCE_DeclRef V1 V2 :
  DefaultCompareExpr (DeclRefExpr V1) (DeclRefExpr V2) = CompareNat V1 V2.
Proof. reflexivity. Qed.

Lemma DCE_Literal v1 v2 :
  DefaultCompareExpr (IntegerLiteral v1) (IntegerLiteral v2) = CompareZ v1 v2.
Proof. reflexivity. Qed.

Lemma DCE_Binary o1 L1 R1 o2 L2 R2 :
  DefaultCompareExpr (BinaryOperator o1 L1 R1) (BinaryOperator o2 L2 R2)
  = Result_then (CompareZ (BinaryOpcode o1) (BinaryOpcode o2))
      (Result_then (DefaultCompareExpr L1 L2) (DefaultCompareExpr R1 R2)).
Proof. reflexivity. Qed.

Lemma DCE_Unary o1 S1 o2 S2 :
  DefaultCompareExpr (UnaryOperator o1 S1) (UnaryOperator o2 S2)
  = Result_then (CompareZ (UnaryOpcode o1) (UnaryOpcode o2))
      (DefaultCompareExpr S1 S2).
Proof. reflexivity. Qed.

Lemma DCE_Member B1 F1 A1 B2 F2 A2 :
  DefaultCompareExpr (MemberExpr B1 F1 A1) (MemberExpr B2 F2 A2)
  = Result_then (CompareBool A1 A2)
      (Result_then (CompareNat F1 F2) (DefaultCompareExpr B1 B2)).
Proof. reflexivity. Qed.

Lemma DCE_Subscript B1 I1 B2 I2 :
  DefaultCompareExpr (ArraySubscriptExpr B1 I1) (ArraySubscriptExpr B2 I2)
  = Result_then (DefaultCompareExpr B1 B2) (DefaultCompareExpr I1 I2).
Proof. reflexivity. Qed.

Lemma DCE_ImplicitCast K1 S1 K2 S2 :
  DefaultCompareExpr (ImplicitCastExpr K1 S1) (ImplicitCastExpr K2 S2)
  = Result_then (CompareNat K1 K2) (DefaultCompareExpr S1 S2).
Proof. reflexivity. Qed.

Lemma DCE_Other I1 I2 :
  DefaultCompareExpr (OtherExpr I1) (OtherExpr I2) = CompareNat I1 I2.
Proof. reflexivity. Qed.

Lemma DCE_class E1 E2 :
  ExprClass E1 ≠ ExprClass E2 →
  DefaultCompareExpr E1 E2 = CompareZ (ExprClass E1) (ExprClass E2).
Proof. intros Hne. destruct E1, E2; try done. Qed.

Ltac DCE_same :=
  rewrite ?DCE_DeclRef, ?DCE_Literal, ?DCE_Binary, ?DCE_Unary, ?DCE_Member,
    ?DCE_Subscript, ?DCE_ImplicitCast, ?DCE_Other in *.

Lemma DefaultCompareExpr_refl E : DefaultCompareExpr E E = Equal.
Proof.
  induction E; DCE_same;
    repeat match goal with H : DefaultCompareExpr _ _ = Equal |- _ =>
             rewrite H; clear H end;
    repeat (apply Result_then_Equal; split);
    try apply (cmp_refl _ CompareZ_TotalOrder);
    try apply (cmp_refl _ CompareNat_TotalOrder);
    try apply (cmp_refl _ CompareBool_TotalOrder); done.
Qed.

Lemma DefaultCompareExpr_Equal_class E1 E2 :
  DefaultCompareExpr E1 E2 = Equal → ExprClass E1 = ExprClass E2.
Proof.
  intros H. destruct (decide (ExprClass E1 = ExprClass E2)) as [|Hne]; [done|].
  rewrite (DCE_class _ _ Hne) in H. by apply (cmp_eq _ CompareZ_TotalOrder).
Qed.

Lemma DefaultCompareExpr_eq E1 : ∀ E2,
  DefaultCompareExpr E1 E2 = Equal → E1 = E2.
Proof.
  induction E1; intros E2 H;
    pose proof (DefaultCompareExpr_Equal_class _ _ H) as Hc;
    destruct E2; try done; DCE_same; rewrite ?Result_then_Equal in H.
  - apply (cmp_eq _ CompareNat_TotalOrder) in H. by subst.
  - apply (cmp_eq _ CompareZ_TotalOrder) in H. by subst.
  - destruct H as (Ho%(cmp_eq _ CompareZ_TotalOrder) & H1 & H2).
    apply BinaryOpcode_inj in Ho. f_equal; auto.
  - destruct H as (Ho%(cmp_eq _ CompareZ_TotalOrder) & H1).
    apply UnaryOpcode_inj in Ho. f_equal; auto.
  - destruct H as (Ha%(cmp_eq _ CompareBool_TotalOrder)
                   & Hf%(cmp_eq _ CompareNat_TotalOrder) & H1).
    f_equal; auto.
  - destruct H as (H1 & H2). f_equal; auto.
  - destruct H as (Hk%(cmp_eq _ CompareNat_TotalOrder) & H1).
    f_equal; auto.
  - apply (cmp_eq _ CompareNat_TotalOrder) in H. by subst.
Qed.

Lemma DefaultCompareExpr_flip E1 : ∀ E2,
  DefaultCompareExpr E2 E1 = flip (DefaultCompareExpr E1 E2).
Proof.
  induction E1; intros E2; destruct E2;
    try (rewrite !DCE_class by done;
         apply (TotalOrder_flip _ CompareZ_TotalOrder));
    DCE_same; rewrite ?flip_Result_then;
    repeat match goal with
           | |- Result_then _ _ = Result_then _ _ => f_equal
           end;
    try apply (TotalOrder_flip _ CompareZ_TotalOrder);
    try apply (TotalOrder_flip _ CompareNat_TotalOrder);
    try apply (TotalOrder_flip _ CompareBool_TotalOrder); auto.
Qed.

Lemma DefaultCompareExpr_LessThan_class E1 E2 :
  DefaultCompareExpr E1 E2 = LessThan →
  ExprClass E1 < ExprClass E2 ∨ ExprClass E1 = ExprClass E2.
Proof.
  intros H. destruct (decide (ExprClass E1 = ExprClass E2)) as [|Hne];
    [by right|]. left. rewrite (DCE_class _ _ Hne) in H.
  destruct (CompareZ_spec (ExprClass E1) (ExprClass E2))
    as [[? ?]|[[? ?]|[? ?]]]; (done || congruence).
Qed.

Lemma DCE_of_lt E1 E2 :
  ExprClass E1 < ExprClass E2 → DefaultCompareExpr E1 E2 = LessThan.
Proof.
  intros H. rewrite DCE_class by lia.
  destruct (CompareZ_spec (ExprClass E1) (ExprClass E2))
    as [[? ?]|[[? ?]|[? ?]]]; (done || lia).
Qed.

Lemma DCE_trans4 E1 E2 E3 :
  (∀ M K, DefaultCompareExpr E1 M = LessThan →
          DefaultCompareExpr M K = LessThan →
          DefaultCompareExpr E1 K = LessThan) →
  trans4 (DefaultCompareExpr E1 E2) (DefaultCompareExpr E2 E3)
    (DefaultCompareExpr E1 E3).
Proof.
  intros IH. split_and!.
  - apply IH.
  - by intros ? <-%DefaultCompareExpr_eq.
  - by intros ->%DefaultCompareExpr_eq.
  - intros ->%DefaultCompareExpr_eq ->%DefaultCompareExpr_eq.
    apply DefaultCompareExpr_refl.
Qed.

Lemma DefaultCompareExpr_trans E1 : ∀ E2 E3,
  DefaultCompareExpr E1 E2 = LessThan → DefaultCompareExpr E2 E3 = LessThan →
  DefaultCompareExpr E1 E3 = LessThan.
Proof.
  induction E1; intros E2 E3 H12 H23;
    destruct (DefaultCompareExpr_LessThan_class _ _ H12) as [Hk12|Hk12];
    destruct (DefaultCompareExpr_LessThan_class _ _ H23) as [Hk23|Hk23];
    try (apply DCE_of_lt; lia);
    destruct E2; try done; destruct E3; try done; DCE_same.
  - by eapply (cmp_trans _ CompareNat_TotalOrder).
  - by eapply (cmp_trans _ CompareZ_TotalOrder).
  - eapply trans4_then; [ | |exact H12|exact H23];
      [apply TotalOrder_trans4, CompareZ_TotalOrder|].
    intros K12 K23.
    eapply trans4_then; [ | |exact K12|exact K23];
      [by apply DCE_trans4|eauto].
  - eapply trans4_then; [ | |exact H12|exact H23];
      [apply TotalOrder_trans4, CompareZ_TotalOrder|eauto].
  - eapply trans4_then; [ | |exact H12|exact H23];
      [apply TotalOrder_trans4, CompareBool_TotalOrder|].
    intros K12 K23.
    eapply trans4_then; [ | |exact K12|exact K23];
      [apply TotalOrder_trans4, CompareNat_TotalOrder|eauto].
  - eapply trans4_then; [ | |exact H12|exact H23];
      [by apply DCE_trans4|eauto].
  - eapply trans4_then; [ | |exact H12|exact H23];
      [apply TotalOrder_trans4, CompareNat_TotalOrder|eauto].
  - by eapply (cmp_trans _ CompareNat_TotalOrder).
Qed.

Lemma DefaultLex_Expr_order : TotalOrder (CompareExpr DefaultLex).
Proof.
  split; cbn.
  - apply DefaultCompareExpr_refl.
  - intros a b. apply DefaultCompareExpr_eq.
  - intros a b. rewrite (DefaultCompareExpr_flip a b).
    destruct (DefaultCompareExpr a b); cbn; split; done.
  - intros a b c. apply DefaultCompareExpr_trans.
Qed.

Lemma DefaultLex_Decl_order : TotalOrder (CompareDecl DefaultLex).
Proof. apply CompareNat_TotalOrder. Qed.

(** C9: given total orders on leaf expressions and on declarations, the
    comparator is a total order on trees: [Compare A B] is [LessThan]
    exactly when [Compare B A] is [GreaterThan], [LessThan] is transitive,
    and [Equal] holds exactly between structurally equal trees.  It is
    lexicographic: nodes of different classes compare as their kind tags;
    nodes of the same class compare by their content (operator code, then
    number of children; arrow flag, then field; cast kind; leaf
    expression) and then by their children in list order. *)
Theorem C9_Compare_total_order (Lex : Lexicographic) :
  TotalOrder (CompareExpr Lex) → TotalOrder (CompareDecl Lex) →
  (∀ A B, Compare Lex A B = LessThan ↔ Compare Lex B A = GreaterThan)
  ∧ (∀ A B C, Compare Lex A B = LessThan → Compare Lex B C = LessThan →
              Compare Lex A C = LessThan)
  ∧ (∀ A B, Compare Lex A B = Equal ↔ A = B)
  ∧ (∀ A B, NodeKind A ≠ NodeKind B → Compare Lex A B = CompareKinds A B)
  ∧ (∀ Opc Cs BOpc BCs,
       Compare Lex (BinaryOperatorNode Opc Cs) (BinaryOperatorNode BOpc BCs)
       = Result_then (CompareZ (BinaryOpcode Opc) (BinaryOpcode BOpc))
           (Result_then (CompareNat (length Cs) (length BCs))
              (CompareChildren (Compare Lex) Cs BCs)))
  ∧ (∀ Opc C UOpc UC,
       Compare Lex (UnaryOperatorNode Opc C) (UnaryOperatorNode UOpc UC)
       = Result_then (CompareZ (UnaryOpcode Opc) (UnaryOpcode UOpc))
           (Compare Lex C UC))
  ∧ (∀ B F A MB MF MA,
       Compare Lex (MemberNode B F A) (MemberNode MB MF MA)
       = Result_then (CompareZ (ArrowKey A) (ArrowKey MA))
           (Result_then (CompareDecl Lex F MF) (Compare Lex B MB)))
  ∧ (∀ CK C ICK IC,
       Compare Lex (ImplicitCastNode CK C) (ImplicitCastNode ICK IC)
       = Result_then (CompareNat CK ICK) (Compare Lex C IC))
  ∧ (∀ E LE,
       Compare Lex (LeafExprNode E) (LeafExprNode LE) = CompareExpr Lex E LE).
Proof.
  intros HE HD.
  destruct (Compare_TotalOrder Lex HE HD) as [Hrefl Heq Hanti Htrans].
  split_and!; try done.
  - intros A B. split; [apply Heq|intros ->; apply Hrefl].
  - apply Compare_kinds.
  - apply Compare_Binary.
  - apply Compare_Unary.
  - apply Compare_Member.
  - apply Compare_ImplicitCast.
Qed.

Lemma C9_Compare_total_order_witness :
  TotalOrder (CompareExpr DefaultLex) ∧ TotalOrder (CompareDecl DefaultLex)
  ∧ (Compare DefaultLex (LeafExprNode (DeclRefExpr 0%nat))
       (LeafExprNode (IntegerLiteral 1)) = LessThan
     ↔ Compare DefaultLex (LeafExprNode (IntegerLiteral 1))
         (LeafExprNode (DeclRefExpr 0%nat)) = GreaterThan).
Proof.
  split; [exact DefaultLex_Expr_order|].
  split; [exact DefaultLex_Decl_order|].
  exact (proj1 (C9_Compare_total_order DefaultLex DefaultLex_Expr_order
                  DefaultLex_Decl_order) _ _).
Defined.

(** C2: for the canonical trees [U] of a declared upper bound and [D] of a
    dereference offset, [GetDerefOffset], entered with [Offset = 0],
    returns the delta [Delta] exactly when both roots are [+] nodes with
    the same number of children, every pair of children at the same
    position compares [Equal] or consists of two integer-constant leaves,
    and the dereference constant minus the bound constant is [Delta]
    without overflow; otherwise it returns no offset.  For the bound
    [p + i] and the dereference of [p + i + 1] the delta is 1; for the
    bound [p + i * j] and the dereference of [p + i + j] there is no
    offset. *)
Theorem C2_GetDerefOffset_contract :
  (∀ (Lex : Lexicographic) (UpperE DerefE : Expr) (U D : Node) (Delta : Z),
     (∀ E1 E2, CompareExpr Lex E1 E2 = Equal → E1 = E2) →
     Canonicalize Lex UpperE = Some U →
     Canonicalize Lex DerefE = Some D →
     (GetDerefOffset Lex U D 0 = Some Delta ↔ DerefOffset_spec Lex U D Delta))
  ∧ GetExprDerefOffset DefaultLex
      (BinaryOperator BO_Add (DeclRefExpr 0%nat) (DeclRefExpr 1%nat))
      (BinaryOperator BO_Add
         (BinaryOperator BO_Add (DeclRefExpr 0%nat) (DeclRefExpr 1%nat))
         (IntegerLiteral 1)) = Some 1
  ∧ GetExprDerefOffset DefaultLex
      (BinaryOperator BO_Add (DeclRefExpr 0%nat)
         (BinaryOperator BO_Mul (DeclRefExpr 1%nat) (DeclRefExpr 2%nat)))
      (BinaryOperator BO_Add
         (BinaryOperator BO_Add (DeclRefExpr 0%nat) (DeclRefExpr 1%nat))
         (DeclRefExpr 2%nat)) = None.
Proof.
  split_and!; [|by vm_compute|by vm_compute].
  intros Lex UpperE DerefE U D Delta HLex HU HD.
  apply Canonicalize_shape in HU as (Cs1 & -> & H1).
  apply Canonicalize_shape in HD as (Cs2 & -> & H2).
  unfold GetDerefOffset, DerefOffset_spec.
  change (BinaryOperatorKind_eqb BO_Add BO_Add) with true. cbn [negb].
  destruct (length Cs1 =? length Cs2)%nat eqn:Hlen; cbn [negb].
  - apply Nat.eqb_eq in Hlen.
    rewrite (GetDerefOffset_loop_spec Lex HLex Cs1 Cs2 Delta H1 H2 Hlen).
    split.
    + intros [? ?]. by exists Cs1, Cs2.
    + intros (Cs1' & Cs2' & [= <-] & [= <-] & ? & ?). done.
  - apply Nat.eqb_neq in Hlen. split; [done|].
    intros (Cs1' & Cs2' & [= <-] & [= <-] & HM & _).
    apply Forall2_length in HM. done.
Qed.

Lemma C2_GetDerefOffset_contract_witness :
  let Lex := DefaultLex in
  let UpperE := BinaryOperator BO_Add (DeclRefExpr 0%nat) (DeclRefExpr 1%nat) in
  let DerefE := BinaryOperator BO_Add UpperE (IntegerLiteral 1) in
  let U := BinaryOperatorNode BO_Add
             [LeafExprNode (DeclRefExpr 0%nat);
              LeafExprNode (DeclRefExpr 1%nat);
              LeafExprNode (IntegerLiteral 0)] in
  let D := BinaryOperatorNode BO_Add
             [LeafExprNode (DeclRefExpr 0%nat);
              LeafExprNode (DeclRefExpr 1%nat);
              LeafExprNode (IntegerLiteral 1)] in
  (∀ E1 E2, CompareExpr Lex E1 E2 = Equal → E1 = E2)
  ∧ Canonicalize Lex UpperE = Some U
  ∧ Canonicalize Lex DerefE = Some D
  ∧ (GetDerefOffset Lex U D 0 = Some 1 ↔ DerefOffset_spec Lex U D 1).
Proof.
  intros Lex UpperE DerefE U D.
  assert (HLex : ∀ E1 E2, CompareExpr Lex E1 E2 = Equal → E1 = E2).
  { intros E1 E2. apply DefaultCompareExpr_eq. }
  assert (HU : Canonicalize Lex UpperE = Some U) by (vm_compute; reflexivity).
  assert (HD : Canonicalize Lex DerefE = Some D) by (vm_compute; reflexivity).
  split_and!; [exact HLex|exact HU|exact HD|].
  exact (proj1 C2_GetDerefOffset_contract Lex UpperE DerefE U D 1 HLex HU HD).
Defined.

(** ** Canonical forms of small sums *)

Lemma CompareNat_cases a b :
  (a < b)%nat ∧ CompareNat a b = LessThan ∧ CompareNat b a = GreaterThan
  ∨ a = b ∧ CompareNat a b = Equal
  ∨ (b < a)%nat ∧ CompareNat a b = GreaterThan ∧ CompareNat b a = LessThan.
Proof.
  unfold CompareNat.
  destruct (CompareZ_spec (Z.of_nat a) (Z.of_nat b)) as [[? Hab]|[[? Hab]|[? Hab]]];
    destruct (CompareZ_spec (Z.of_nat b) (Z.of_nat a)) as [[? Hba]|[[? Hba]|[? Hba]]];
    try lia; rewrite Hab, ?Hba.
  - left. split_and!; (done || lia).
  - right; left. split; [lia|done].
  - right; right. split_and!; (done || lia).
Qed.

Lemma isIntegerConstantExpr_Zero :
  isIntegerConstantExpr (IntegerLiteral 0) = Some 0.
Proof. reflexivity. Qed.

(** Runs the passes on a tree whose comparisons of variables have been
    decided by the hypotheses [H1] and [H2]. *)
Ltac canon_eval H1 H2 :=
  repeat (progress (cbn -[CompareNat]; unfold ZeroLiteral;
                    rewrite ?H1, ?H2, ?isIntegerConstantExpr_Zero)).

(** [p + i] and [i + p]: the variables in the order of the host, then the
    constant [0]. *)
Lemma Canonicalize_sum_of_variables p i :
  Canonicalize DefaultLex
    (BinaryOperator BO_Add (DeclRefExpr p) (DeclRefExpr i))
  = Some (BinaryOperatorNode BO_Add
            [LeafExprNode (DeclRefExpr (Nat.min p i));
             LeafExprNode (DeclRefExpr (Nat.max p i));
             LeafExprNode (IntegerLiteral 0)]).
Proof.
  unfold Canonicalize, Normalize, Create_root. simp Create.
  destruct (CompareNat_cases p i)
    as [(Hlt & H1 & H2)|[(-> & H1)|(Hlt & H1 & H2)]].
  - canon_eval H1 H2. rewrite Nat.min_l, Nat.max_r by lia. done.
  - canon_eval H1 H1. rewrite Nat.min_id, Nat.max_id. done.
  - canon_eval H1 H2. rewrite Nat.min_r, Nat.max_l by lia. done.
Qed.

Lemma GetDerefOffset_loop_same Lex Opc Cs Offset :
  TotalOrder (CompareExpr Lex) → TotalOrder (CompareDecl Lex) →
  GetDerefOffset_loop Lex Opc Cs Cs Offset = Some Offset.
Proof.
  intros HE HD. induction Cs as [|C Cs IH]; [done|].
  cbn [GetDerefOffset_loop]. by rewrite (Compare_refl Lex HE HD C).
Qed.

Lemma GetDerefOffset_same Lex Opc Cs Offset :
  TotalOrder (CompareExpr Lex) → TotalOrder (CompareDecl Lex) →
  GetDerefOffset Lex (BinaryOperatorNode Opc Cs) (BinaryOperatorNode Opc Cs)
    Offset = Some Offset.
Proof.
  intros HE HD. unfold GetDerefOffset, BinaryOperatorKind_eqb.
  rewrite Z.eqb_refl, Nat.eqb_refl. cbn [negb].
  by apply GetDerefOffset_loop_same.
Qed.

Lemma isIntegerConstantExpr_One :
  isIntegerConstantExpr (IntegerLiteral 1) = Some 1.
Proof. reflexivity. Qed.

Lemma sadd_ov_Zero_One : sadd_ov 0 1 = Some 1.
Proof. reflexivity. Qed.

Ltac canon_eval_one H1 H2 :=
  repeat (progress (canon_eval H1 H2;
                    rewrite ?isIntegerConstantExpr_One, ?sadd_ov_Zero_One)).

(** [(p + i) + 1]: the variables in the order of the host, then the
    constant [1]. *)
Lemma Canonicalize_sum_of_variables_plus_one p i :
  Canonicalize DefaultLex
    (BinaryOperator BO_Add
       (BinaryOperator BO_Add (DeclRefExpr p) (DeclRefExpr i))
       (IntegerLiteral 1))
  = Some (BinaryOperatorNode BO_Add
            [LeafExprNode (DeclRefExpr (Nat.min p i));
             LeafExprNode (DeclRefExpr (Nat.max p i));
             LeafExprNode (IntegerLiteral 1)]).
Proof.
  unfold Canonicalize, Normalize, Create_root. simp Create.
  destruct (CompareNat_cases p i)
    as [(Hlt & H1 & H2)|[(-> & H1)|(Hlt & H1 & H2)]].
  - canon_eval_one H1 H2. rewrite Nat.min_l, Nat.max_r by lia. done.
  - canon_eval_one H1 H1. rewrite Nat.min_id, Nat.max_id. done.
  - canon_eval_one H1 H2. rewrite Nat.min_r, Nat.max_l by lia. done.
Qed.

(** [i * p]: a product is one operand of the root, before the constant
    [0]. *)
Lemma Canonicalize_product_of_variables i p :
  ∃ Cs, Canonicalize DefaultLex
          (BinaryOperator BO_Mul (DeclRefExpr i) (DeclRefExpr p))
        = Some (BinaryOperatorNode BO_Add
                  [BinaryOperatorNode BO_Mul Cs;
                   LeafExprNode (IntegerLiteral 0)]).
Proof.
  unfold Canonicalize, Normalize, Create_root. simp Create.
  destruct (CompareNat_cases i p)
    as [(Hlt & H1 & H2)|[(-> & H1)|(Hlt & H1 & H2)]].
  - canon_eval H1 H2. by eexists.
  - canon_eval H1 H1. by eexists.
  - canon_eval H1 H2. by eexists.
Qed.

Lemma GetDerefOffset_sum_plus_one a b :
  GetDerefOffset DefaultLex
    (BinaryOperatorNode BO_Add
       [LeafExprNode (DeclRefExpr a); LeafExprNode (DeclRefExpr b);
        LeafExprNode (IntegerLiteral 0)])
    (BinaryOperatorNode BO_Add
       [LeafExprNode (DeclRefExpr a); LeafExprNode (DeclRefExpr b);
        LeafExprNode (IntegerLiteral 1)]) 0
  = Some 1.
Proof.
  unfold GetDerefOffset.
  cbn [BinaryOperatorKind_eqb BinaryOpcode Z.eqb Pos.eqb length Nat.eqb negb].
  cbn [GetDerefOffset_loop].
  rewrite !(Compare_refl DefaultLex DefaultLex_Expr_order
              DefaultLex_Decl_order).
  reflexivity.
Qed.

(** ** The facts after the statements of a function *)

Lemma WideningIn_empty V : BoundsWidening.WideningIn ∅ V = 0.
Proof. unfold BoundsWidening.WideningIn. by rewrite set_fold_empty. Qed.

Lemma Difference_empty K : BoundsWidening.Difference ∅ K = ∅.
Proof.
  unfold BoundsWidening.Difference. apply set_eq. intros f.
  rewrite elem_of_filter. set_solver.
Qed.

(** A write from no facts leaves no facts. *)
Lemma GetStmtOut_Write_empty Lex Ds V :
  BoundsWidening.GetStmtOut Lex Ds ∅ (BoundsWidening.Write V) = ∅.
Proof.
  unfold BoundsWidening.GetStmtOut, BoundsWidening.Union.
  rewrite Difference_empty. cbn [BoundsWidening.StmtGen].
  apply (left_id_L ∅ (∪)).
Qed.

(** The facts after a condition, from no facts, for the one pointer [p]
    of a function. *)
Lemma GetStmtOut_Condition_empty Lex p Bound Deref :
  BoundsWidening.GetStmtOut Lex [{| NtVar := p; UpperExpr := Bound |}] ∅
    (BoundsWidening.Condition Deref)
  = match GetExprDerefOffset Lex Bound Deref with
    | Some 0 => {[ (p, 1) ]}
    | _ => ∅
    end.
Proof.
  unfold BoundsWidening.GetStmtOut, BoundsWidening.Union.
  rewrite Difference_empty, (left_id_L ∅ (∪)).
  cbn [BoundsWidening.StmtGen omap list_omap NtVar UpperExpr].
  rewrite WideningIn_empty.
  destruct (GetExprDerefOffset Lex Bound Deref) as [[|k|k]|]; cbn; try done.
  apply (right_id_L ∅ (∪)).
Qed.

(** C1: a function declares the NT-pointer [p] with the upper bound
    [p + i] and an initializer, and then has the condition
    [if ( *(i + p))].  The canonical trees of [i + p] and [p + i] are the
    same, so [GetDerefOffset] finds the dereference at the offset 0 from
    the declared bound, and the facts after the condition are exactly
    [upper_bound(p) = 1].  The fact comes from the comparison: after a
    condition that reads [p + i + 1], one element past the bound, or
    [i * p], which is no sum of [p] and [i], there is no fact. *)
Theorem C1_widened_after_commuted_dereference (p i : VarId) :
  let Bound := BinaryOperator BO_Add (DeclRefExpr p) (DeclRefExpr i) in
  let Deref := BinaryOperator BO_Add (DeclRefExpr i) (DeclRefExpr p) in
  let Past := BinaryOperator BO_Add Bound (IntegerLiteral 1) in
  let Product := BinaryOperator BO_Mul (DeclRefExpr i) (DeclRefExpr p) in
  let AllNtPtrsInFunc := [{| NtVar := p; UpperExpr := Bound |}] in
  let Facts DerefExpr :=
    BoundsWidening.StmtsOut DefaultLex AllNtPtrsInFunc ∅
      [BoundsWidening.Write p; BoundsWidening.Condition DerefExpr] in
  Canonicalize DefaultLex Deref = Canonicalize DefaultLex Bound
  ∧ GetExprDerefOffset DefaultLex Bound Deref = Some 0
  ∧ Facts Deref = {[ (p, 1) ]}
  ∧ GetExprDerefOffset DefaultLex Bound Past = Some 1
  ∧ Facts Past = ∅
  ∧ GetExprDerefOffset DefaultLex Bound Product = None
  ∧ Facts Product = ∅.
Proof.
  intros Bound Deref Past Product AllNtPtrsInFunc Facts.
  assert (HD : Canonicalize DefaultLex Deref = Canonicalize DefaultLex Bound).
  { unfold Bound, Deref. rewrite !Canonicalize_sum_of_variables.
    by rewrite Nat.min_comm, Nat.max_comm. }
  assert (HO : GetExprDerefOffset DefaultLex Bound Deref = Some 0).
  { unfold GetExprDerefOffset. rewrite HD. unfold Bound.
    rewrite Canonicalize_sum_of_variables.
    apply GetDerefOffset_same;
      [apply DefaultLex_Expr_order|apply DefaultLex_Decl_order]. }
  assert (HP : GetExprDerefOffset DefaultLex Bound Past = Some 1).
  { unfold GetExprDerefOffset, Past, Bound.
    rewrite Canonicalize_sum_of_variables,
      Canonicalize_sum_of_variables_plus_one.
    apply GetDerefOffset_sum_plus_one. }
  assert (HM : GetExprDerefOffset DefaultLex Bound Product = None).
  { unfold GetExprDerefOffset, Product, Bound.
    rewrite Canonicalize_sum_of_variables.
    destruct (Canonicalize_product_of_variables i p) as [Cs ->].
    reflexivity. }
  assert (HF : ∀ DerefExpr,
            Facts DerefExpr
            = match GetExprDerefOffset DefaultLex Bound DerefExpr with
              | Some 0 => {[ (p, 1) ]}
              | _ => ∅
              end).
  { intros DerefExpr. unfold Facts, BoundsWidening.StmtsOut.
    cbn [foldl]. rewrite GetStmtOut_Write_empty.
    apply GetStmtOut_Condition_empty. }
  split_and!; [exact HD|exact HO| |exact HP| |exact HM|].
  - by rewrite HF, HO.
  - by rewrite HF, HP.
  - by rewrite HF, HM.
Qed.

(** ** Constant folding of small sums *)

Lemma CompareZ_cases a b :
  a < b ∧ CompareZ a b = LessThan ∧ CompareZ b a = GreaterThan
  ∨ a = b ∧ CompareZ a b = Equal
  ∨ b < a ∧ CompareZ a b = GreaterThan ∧ CompareZ b a = LessThan.
Proof.
  destruct (CompareZ_spec a b) as [[? Hab]|[[? Hab]|[? Hab]]];
    destruct (CompareZ_spec b a) as [[? Hba]|[[? Hba]|[? Hba]]];
    try lia; rewrite Hab, ?Hba.
  - left. split_and!; (done || lia).
  - right; left. split; [lia|done].
  - right; right. split_and!; (done || lia).
Qed.

Lemma Compare_leaf_var_lit x v :
  Compare DefaultLex (LeafExprNode (DeclRefExpr x))
    (LeafExprNode (IntegerLiteral v)) = LessThan.
Proof. reflexivity. Qed.

Lemma Compare_leaf_lit_var x v :
  Compare DefaultLex (LeafExprNode (IntegerLiteral v))
    (LeafExprNode (DeclRefExpr x)) = GreaterThan.
Proof. reflexivity. Qed.

Lemma Compare_leaf_lit_lit v1 v2 :
  Compare DefaultLex (LeafExprNode (IntegerLiteral v1))
    (LeafExprNode (IntegerLiteral v2)) = CompareZ v1 v2.
Proof. reflexivity. Qed.

Lemma isIntegerConstantExpr_variable x :
  isIntegerConstantExpr (DeclRefExpr x) = None.
Proof. reflexivity. Qed.

Lemma isIntegerConstantExpr_literal v :
  INT_MIN <= v <= INT_MAX → isIntegerConstantExpr (IntegerLiteral v) = Some v.
Proof.
  intros H%InIntRange_spec. unfold isIntegerConstantExpr. cbn. by rewrite H.
Qed.

Lemma sadd_ov_Some a b :
  INT_MIN <= a + b <= INT_MAX → sadd_ov a b = Some (a + b).
Proof. intros H%InIntRange_spec. unfold sadd_ov, checked. by rewrite H. Qed.

Lemma sadd_ov_None a b :
  a + b < INT_MIN ∨ INT_MAX < a + b → sadd_ov a b = None.
Proof.
  intros H. unfold sadd_ov, checked.
  destruct (InIntRange (a + b)) eqn:Hr; [|done].
  apply InIntRange_spec in Hr. lia.
Qed.

Ltac int_range :=
  change INT_MIN with (-2147483648) in *;
  change INT_MAX with 2147483647 in *; lia.

Ltac fold_eval :=
  repeat (progress
    (cbn -[Compare CompareZ sadd_ov isIntegerConstantExpr];
     unfold ZeroLiteral;
     rewrite ?Compare_leaf_var_lit, ?Compare_leaf_lit_var,
       ?Compare_leaf_lit_lit, ?isIntegerConstantExpr_variable;
     repeat match goal with
            | H : CompareZ ?a ?b = _ |- context [CompareZ ?a ?b] => rewrite H
            | |- context [CompareZ ?a ?a] =>
                rewrite (cmp_refl _ CompareZ_TotalOrder a)
            | |- context [isIntegerConstantExpr (IntegerLiteral ?v)] =>
                rewrite (isIntegerConstantExpr_literal v) by int_range
            | |- context [sadd_ov ?a ?b] =>
                first [rewrite (sadd_ov_Some a b) by int_range
                      |rewrite (sadd_ov_None a b) by int_range]
            end)).

Lemma folded_sum_eq x v v' :
  v = v' →
  Some (BinaryOperatorNode BO_Add
          [LeafExprNode (DeclRefExpr x); LeafExprNode (IntegerLiteral v)])
  = Some (BinaryOperatorNode BO_Add
            [LeafExprNode (DeclRefExpr x); LeafExprNode (IntegerLiteral v')]).
Proof. by intros ->. Qed.

(** [x + c]: the variable, then the constant. *)
Lemma Canonicalize_variable_plus_constant x c :
  INT_MIN <= c <= INT_MAX →
  Canonicalize DefaultLex
    (BinaryOperator BO_Add (DeclRefExpr x) (IntegerLiteral c))
  = Some (BinaryOperatorNode BO_Add
            [LeafExprNode (DeclRefExpr x); LeafExprNode (IntegerLiteral c)]).
Proof.
  intros Hc. unfold Canonicalize, Normalize, Create_root. simp Create.
  destruct (CompareZ_cases 0 c) as [(? & ? & ?)|[(? & ?)|(? & ? & ?)]];
    subst; fold_eval; apply folded_sum_eq; lia.
Qed.

(** [x + c1 + c2] when [c1 + c2] is representable. *)
Lemma Canonicalize_folds_two_constants x c1 c2 :
  INT_MIN <= c1 <= INT_MAX → INT_MIN <= c2 <= INT_MAX →
  INT_MIN <= c1 + c2 <= INT_MAX →
  Canonicalize DefaultLex
    (BinaryOperator BO_Add
       (BinaryOperator BO_Add (DeclRefExpr x) (IntegerLiteral c1))
       (IntegerLiteral c2))
  = Some (BinaryOperatorNode BO_Add
            [LeafExprNode (DeclRefExpr x);
             LeafExprNode (IntegerLiteral (c1 + c2))]).
Proof.
  intros H1 H2 H12.
  unfold Canonicalize, Normalize, Create_root. simp Create.
  destruct (CompareZ_cases 0 c1) as [(? & ? & ?)|[(? & ?)|(? & ? & ?)]];
  destruct (CompareZ_cases 0 c2) as [(? & ? & ?)|[(? & ?)|(? & ? & ?)]];
  destruct (CompareZ_cases c1 c2) as [(? & ? & ?)|[(? & ?)|(? & ? & ?)]];
    try lia; subst; fold_eval; apply folded_sum_eq; lia.
Qed.

(** [x + c1 + c2] when [c1 + c2] overflows: [Normalize] ends with the
    [Error] flag set. *)
Lemma Normalize_two_constants_overflow x c1 c2 :
  INT_MIN <= c1 <= INT_MAX → INT_MIN <= c2 <= INT_MAX →
  c1 + c2 < INT_MIN ∨ INT_MAX < c1 + c2 →
  ∃ R, Normalize DefaultLex
         (Create_root
            (BinaryOperator BO_Add
               (BinaryOperator BO_Add (DeclRefExpr x) (IntegerLiteral c1))
               (IntegerLiteral c2)))
       = Some {| Root := Some R; Error := true |}.
Proof.
  intros H1 H2 H12.
  unfold Normalize, Create_root. simp Create.
  destruct (CompareZ_cases 0 c1) as [(? & ? & ?)|[(? & ?)|(? & ? & ?)]];
  destruct (CompareZ_cases 0 c2) as [(? & ? & ?)|[(? & ?)|(? & ? & ?)]];
  destruct (CompareZ_cases c1 c2) as [(? & ? & ?)|[(? & ?)|(? & ? & ?)]];
    try int_range; subst; fold_eval; eexists; reflexivity.
Qed.

(** C3: for a variable [x] and constants [c1], [c2] of type [int]: when
    [c1 + c2] is representable, the canonical tree of [x + c1 + c2] is the
    canonical tree of [x + c] for the constant [c = c1 + c2], namely the
    [+] node over [x] and [c]; when [c1 + c2] overflows, normalization
    ends with the [Error] flag set and there is no canonical tree. *)
Theorem C3_constant_folding_checks_overflow (x : VarId) (c1 c2 : Z) :
  InIntRange c1 = true → InIntRange c2 = true →
  let Sum := BinaryOperator BO_Add
               (BinaryOperator BO_Add (DeclRefExpr x) (IntegerLiteral c1))
               (IntegerLiteral c2) in
  (InIntRange (c1 + c2) = true →
   Canonicalize DefaultLex Sum
   = Canonicalize DefaultLex
       (BinaryOperator BO_Add (DeclRefExpr x) (IntegerLiteral (c1 + c2)))
   ∧ Canonicalize DefaultLex Sum
     = Some (BinaryOperatorNode BO_Add
               [LeafExprNode (DeclRefExpr x);
                LeafExprNode (IntegerLiteral (c1 + c2))]))
  ∧ (InIntRange (c1 + c2) = false →
     Canonicalize DefaultLex Sum = None
     ∧ ∃ R, Normalize DefaultLex (Create_root Sum)
            = Some {| Root := Some R; Error := true |}).
Proof.
  intros H1%InIntRange_spec H2%InIntRange_spec Sum. split.
  - intros H12%InIntRange_spec. unfold Sum.
    rewrite Canonicalize_folds_two_constants,
      Canonicalize_variable_plus_constant by done. done.
  - intros H12.
    assert (Hov : c1 + c2 < INT_MIN ∨ INT_MAX < c1 + c2).
    { destruct (Z.lt_ge_cases (c1 + c2) INT_MIN) as [|Hge]; [by left|].
      destruct (Z.lt_ge_cases INT_MAX (c1 + c2)) as [|Hle]; [by right|].
      assert (InIntRange (c1 + c2) = true)
        by (apply InIntRange_spec; lia). congruence. }
    destruct (Normalize_two_constants_overflow x c1 c2 H1 H2 Hov) as [R HR].
    split; [|by exists R]. unfold Canonicalize. fold Sum in HR. by rewrite HR.
Qed.

Lemma C3_constant_folding_witness :
  InIntRange 3 = true ∧ InIntRange 4 = true ∧ InIntRange INT_MAX = true
  ∧ InIntRange 1 = true
  ∧ Canonicalize DefaultLex
      (BinaryOperator BO_Add
         (BinaryOperator BO_Add (DeclRefExpr 0%nat) (IntegerLiteral 3))
         (IntegerLiteral 4))
    = Some (BinaryOperatorNode BO_Add
              [LeafExprNode (DeclRefExpr 0%nat);
               LeafExprNode (IntegerLiteral 7)])
  ∧ Canonicalize DefaultLex
      (BinaryOperator BO_Add
         (BinaryOperator BO_Add (DeclRefExpr 0%nat) (IntegerLiteral INT_MAX))
         (IntegerLiteral 1))
    = None.
Proof.
  do 4 (split; [reflexivity|]). split.
  - exact (proj2 (proj1 (C3_constant_folding_checks_overflow 0%nat 3 4
                           eq_refl eq_refl) eq_refl)).
  - exact (proj1 (proj2 (C3_constant_folding_checks_overflow 0%nat INT_MAX 1
                           eq_refl eq_refl) eq_refl)).
Defined.

(** ** Canonicalization of sums and products *)

Section Sorting.
Variable Lex : Lexicographic.
Hypothesis Expr_order : TotalOrder (CompareExpr Lex).
Hypothesis Decl_order : TotalOrder (CompareDecl Lex).

Lemma NodeLT_spec N1 N2 : NodeLT Lex N1 N2 = true ↔ Compare Lex N1 N2 = LessThan.
Proof. unfold NodeLT. destruct (Compare Lex N1 N2); cbn; split; done. Qed.

Lemma NodeLe_trans : Transitive (NodeLe Lex).
Proof.
  intros A B C. unfold NodeLe. intros HAB HBC.
  destruct (TotalOrder_trans4 (Compare Lex) A B C
              (Compare_TotalOrder Lex Expr_order Decl_order))
    as (H1 & H2 & H3 & H4).
  destruct (Compare Lex A B); try done;
    destruct (Compare Lex B C); try done;
    (rewrite H1 by done) || (rewrite H2 by done) || (rewrite H3 by done)
    || (rewrite H4 by done); done.
Qed.

Lemma NodeLe_antisym : AntiSymm (=) (NodeLe Lex).
Proof.
  intros A B. unfold NodeLe. intros HAB HBA.
  rewrite (Compare_flip Lex Expr_order Decl_order A B) in HBA.
  apply (Compare_eq Lex Expr_order Decl_order).
  destruct (Compare Lex A B); done.
Qed.

Lemma NodeLe_of_not_LT M N : NodeLT Lex M N = false → NodeLe Lex N M.
Proof.
  unfold NodeLT, NodeLe.
  rewrite (Compare_flip Lex Expr_order Decl_order M N).
  destruct (Compare Lex M N); done.
Qed.

Lemma NodeLe_of_LT M N : NodeLT Lex M N = true → NodeLe Lex M N.
Proof. unfold NodeLT, NodeLe. destruct (Compare Lex M N); done. Qed.

Lemma sort_insert_Sorted N V :
  Sorted (NodeLe Lex) V → Sorted (NodeLe Lex) (sort_insert (NodeLT Lex) N V).
Proof.
  induction 1 as [|M V HV IH HM]; cbn [sort_insert].
  - by repeat constructor.
  - destruct (NodeLT Lex M N) eqn:HLT.
    + constructor; [done|].
      destruct V as [|M' V]; cbn [sort_insert] in *.
      * constructor. by apply NodeLe_of_LT.
      * destruct (NodeLT Lex M' N); constructor;
          [by inversion HM|by apply NodeLe_of_LT].
    + constructor; [by constructor|]. constructor. by apply NodeLe_of_not_LT.
Qed.

Lemma llvm_sort_Sorted V : Sorted (NodeLe Lex) (llvm_sort (NodeLT Lex) V).
Proof.
  induction V as [|N V IH]; [constructor|].
  unfold llvm_sort in *. cbn [fold_right]. by apply sort_insert_Sorted.
Qed.

(** The sorted arrangement depends only on the elements. *)
Lemma llvm_sort_Permutation_eq V V' :
  V ≡ₚ V' → llvm_sort (NodeLT Lex) V = llvm_sort (NodeLT Lex) V'.
Proof.
  intros HP.
  apply (@Sorted_unique _ (NodeLe Lex) NodeLe_trans NodeLe_antisym);
    [apply llvm_sort_Sorted..|].
  by rewrite !llvm_sort_Permutation.
Qed.
End Sorting.

Section Canonical.
Variable Lex : Lexicographic.
Hypothesis Expr_order : TotalOrder (CompareExpr Lex).
Hypothesis Decl_order : TotalOrder (CompareDecl Lex).

Lemma contribution_app Opc V1 V2 :
  contribution Lex Opc (V1 ++ V2)
  = contribution Lex Opc V1 ++ contribution Lex Opc V2.
Proof. apply flat_map_app. Qed.

Lemma contribution_cons Opc C V :
  contribution Lex Opc (C :: V) = absorb Opc (nf Lex C) ++ contribution Lex Opc V.
Proof. reflexivity. Qed.

Lemma list_split_at (V : list Node) I C :
  V !! I = Some C → V = take I V ++ C :: drop (S I) V.
Proof. intros H. by rewrite (take_drop_middle V I C H). Qed.

Lemma apply_outcome_contribution Opc V I C o :
  V !! I = Some C →
  contribution Lex Opc (outcome_list o) ≡ₚ absorb Opc (nf Lex C) →
  contribution Lex Opc (apply_outcome I V o) ≡ₚ contribution Lex Opc V.
Proof.
  intros HI Hp.
  rewrite (list_split_at V I C HI) at 2.
  rewrite contribution_app, contribution_cons.
  destruct o as [C'|Cs]; cbn [apply_outcome outcome_list] in *.
  - rewrite insert_take_drop by (by eapply lookup_lt_Some).
    rewrite contribution_app, contribution_cons.
    rewrite contribution_cons in Hp. cbn [contribution flat_map] in Hp.
    rewrite app_nil_r in Hp. by rewrite Hp.
  - rewrite delete_take_drop, !contribution_app, Hp, <- app_assoc.
    apply Permutation_app_head, Permutation_app_comm.
Qed.

Lemma Coalesce_loop_in_place_sem call Q Opc :
  (∀ C st o st', Q C → Err st = false → call C st = Some (o, st') →
                 sem_post Lex Q Opc C st o st') →
  ∀ remaining I V st V' st',
    Forall Q V → Err st = false →
    Coalesce_loop_in_place call remaining I V st = Some (V', st') →
    Err st' = false ∧ Forall Q V'
    ∧ contribution Lex Opc V' ≡ₚ contribution Lex Opc V
    ∧ (length V <= length V')%nat
    ∧ (Changed st = true → Changed st' = true)
    ∧ (Changed st' = false →
       V' = V ∧ Forall (λ C, Flat (Some Opc) C = true)
                  (take remaining (drop I V))).
Proof.
  intros Hcall. induction remaining as [|r IH]; intros I V st V' st' HQ He;
    cbn [Coalesce_loop_in_place].
  - intros [= <- <-]. split_and!; done.
  - destruct (V !! I) as [C|] eqn:HC; [|done].
    destruct (call C st) as [[o st1]|] eqn:Hc; [|done].
    assert (HQC : Q C) by (eapply Forall_lookup_1 in HQ; done).
    destruct (Hcall C st o st1 HQC He Hc) as [e1 q1 l1 p1 m1 f1].
    intros Hloop.
    assert (HQ1 : Forall Q (apply_outcome I V o)).
    { destruct o; cbn [apply_outcome outcome_list] in *.
      - apply Forall_insert; [done|]. by inversion q1.
      - apply Forall_app. split; [by apply Forall_delete|done]. }
    assert (Hlen1 : (length V <= length (apply_outcome I V o))%nat).
    { apply lookup_lt_Some in HC.
      destruct o; cbn [apply_outcome outcome_list] in *.
      - by rewrite length_insert.
      - rewrite length_app, length_delete by (by apply lookup_lt_is_Some_2).
        lia. }
    destruct (IH (S I) _ st1 V' st' HQ1 e1 Hloop)
      as (e2 & q2 & p2 & l2 & m2 & f2).
    split_and!; try done.
    + rewrite p2. by eapply apply_outcome_contribution.
    + lia.
    + auto.
    + intros Hc'. destruct (Changed st1) eqn:Hc1.
      { rewrite m2 in Hc'; done. }
      destruct (f1 eq_refl) as [-> HfC]. cbn [apply_outcome] in *.
      rewrite list_insert_id in * by done.
      destruct (f2 Hc') as [-> Hf]. split; [done|].
      rewrite (drop_S _ _ _ HC). cbn [take]. by constructor.
Qed.

Lemma SumProduct_Binary Opc Cs :
  SumProduct (BinaryOperatorNode Opc Cs) = true ↔
  IsOpCommutativeAndAssociative Opc = true ∧ (2 <= length Cs)%nat
  ∧ Forall (λ C, SumProduct C = true) Cs.
Proof.
  cbn [SumProduct]. rewrite !andb_true_iff, Nat.leb_le, forallb_forall,
    Forall_forall.
  split; intros [[? ?] HF] || intros (? & ? & HF); split_and!; try done;
    intros x Hx; apply HF; by apply list_elem_of_In.
Qed.

Lemma BinaryOperatorKind_eqb_eq a b :
  BinaryOperatorKind_eqb a b = true ↔ a = b.
Proof.
  unfold BinaryOperatorKind_eqb. rewrite Z.eqb_eq.
  split; [apply BinaryOpcode_inj|by intros ->].
Qed.

Lemma CanCoalesce_SumProduct Opc Cs P :
  IsOpCommutativeAndAssociative Opc = true →
  IsOpCommutativeAndAssociative P = true → (2 <= length Cs)%nat →
  CanCoalesce Opc Cs (Some P) = BinaryOperatorKind_eqb Opc P.
Proof.
  intros H1 H2 Hlen. unfold CanCoalesce. rewrite H1, H2. cbn [negb].
  destruct (Nat.eqb_spec (length Cs) 1); [lia|]. by rewrite orb_false_r.
Qed.

Lemma nf_Binary Opc Cs :
  nf Lex (BinaryOperatorNode Opc Cs)
  = BinaryOperatorNode Opc (llvm_sort (NodeLT Lex) (contribution Lex Opc Cs)).
Proof. reflexivity. Qed.

Lemma nf_contribution_eq Opc Cs Cs' :
  contribution Lex Opc Cs' ≡ₚ contribution Lex Opc Cs →
  nf Lex (BinaryOperatorNode Opc Cs') = nf Lex (BinaryOperatorNode Opc Cs).
Proof.
  intros Hp. rewrite !nf_Binary. f_equal.
  by apply llvm_sort_Permutation_eq.
Qed.

Lemma Coalesce_in_place_sem fuel : ∀ C P st o st',
  SumProduct C = true → IsOpCommutativeAndAssociative P = true →
  Err st = false →
  Coalesce_in_place fuel C (Some P) st = Some (o, st') →
  sem_post Lex (λ C, SumProduct C = true) P C st o st'.
Proof.
  induction fuel as [|fuel IH]; intros C P st o st' HC HP He; [done|].
  cbn [Coalesce_in_place]. rewrite He.
  destruct C as [Opc Cs| | | |E]; try done.
  - apply SumProduct_Binary in HC as (Hca & Hlen & HCs).
    destruct (Coalesce_loop_in_place _ _ _ _ _) as [[Cs' st1]|] eqn:Hloop; [|done].
    destruct (Coalesce_loop_in_place_sem _ (λ C, SumProduct C = true) Opc
                (λ C st o st' HQ He' Hc, IH C Opc st o st' HQ Hca He' Hc)
                _ _ _ _ _ _ HCs He Hloop)
      as (e1 & q1 & p1 & l1 & m1 & f1).
    rewrite (CanCoalesce_SumProduct Opc Cs' P) by (done || lia).
    destruct (BinaryOperatorKind_eqb Opc P) eqn:Heq; cbn [negb];
      intros [= <- <-].
    + apply BinaryOperatorKind_eqb_eq in Heq as ->.
      split; cbn [outcome_list SetChanged Changed Err].
      * done.
      * done.
      * lia.
      * rewrite p1, nf_Binary. cbn [absorb].
        assert (BinaryOperatorKind_eqb P P = true) as ->
          by (by apply BinaryOperatorKind_eqb_eq).
        by rewrite llvm_sort_Permutation.
      * done.
      * done.
    + assert (Hnf : nf Lex (BinaryOperatorNode Opc Cs')
                    = nf Lex (BinaryOperatorNode Opc Cs))
        by (by apply nf_contribution_eq).
      split; cbn [outcome_list].
      * done.
      * constructor; [|done]. apply SumProduct_Binary. split_and!; (done || lia).
      * cbn; lia.
      * unfold contribution. cbn [flat_map]. by rewrite Hnf, app_nil_r.
      * done.
      * intros Hc. destruct (f1 Hc) as [-> Hf]. split; [done|].
        cbn [Flat]. rewrite (CanCoalesce_SumProduct Opc Cs P), Heq by done.
        cbn [negb andb]. apply forallb_forall. intros x Hx.
        rewrite firstn_all, drop_0 in Hf. rewrite Forall_forall in Hf.
        apply Hf. by apply list_elem_of_In.
  - intros [= <- <-]. split; cbn [outcome_list].
    + done.
    + by constructor.
    + cbn; lia.
    + unfold contribution. by cbn.
    + done.
    + done.
Qed.

Lemma sem_post_weaken (Q Q' : Node → Prop) P C st o st' :
  (∀ x, Q x → Q' x) →
  sem_post Lex Q P C st o st' → sem_post Lex Q' P C st o st'.
Proof.
  intros HQ [e q l p m f]. split; try done.
  eapply Forall_impl; [exact q|done].
Qed.

Lemma Coalesce_in_place_RootChild_sem fuel C st o st' :
  RootChild C → Err st = false →
  Coalesce_in_place fuel C (Some BO_Add) st = Some (o, st') →
  sem_post Lex RootChild BO_Add C st o st'.
Proof.
  intros [HC|HC] He Hc.
  - eapply sem_post_weaken; [|by eapply Coalesce_in_place_sem].
    intros x Hx. by left.
  - destruct C as [| | | |E]; try done.
    destruct fuel as [|fuel]; [done|]. cbn [Coalesce_in_place] in Hc.
    rewrite He in Hc. injection Hc as <- <-.
    split; cbn [outcome_list].
    + done.
    + constructor; [by right|done].
    + cbn; lia.
    + unfold contribution. by cbn.
    + done.
    + done.
Qed.

Lemma Coalesce_in_place_root_sem fuel Cs st o st' :
  Forall RootChild Cs → Err st = false →
  Coalesce_in_place fuel (BinaryOperatorNode BO_Add Cs) None st = Some (o, st') →
  ∃ Cs', o = Kept (BinaryOperatorNode BO_Add Cs')
         ∧ Err st' = false ∧ Forall RootChild Cs'
         ∧ contribution Lex BO_Add Cs' ≡ₚ contribution Lex BO_Add Cs
         ∧ (length Cs <= length Cs')%nat
         ∧ (Changed st' = false →
            Cs' = Cs ∧ Forall (λ C, Flat (Some BO_Add) C = true) Cs).
Proof.
  intros HCs He. destruct fuel as [|fuel]; [done|]. cbn [Coalesce_in_place].
  rewrite He.
  destruct (Coalesce_loop_in_place _ _ _ _ _) as [[Cs' st1]|] eqn:Hloop; [|done].
  destruct (Coalesce_loop_in_place_sem _ RootChild BO_Add
              (λ C st o st' HQ He' Hc,
                 Coalesce_in_place_RootChild_sem fuel C st o st' HQ He' Hc)
              _ _ _ _ _ _ HCs He Hloop)
    as (e1 & q1 & p1 & l1 & m1 & f1).
  rewrite CanCoalesce_None. cbn [negb]. intros [= <- <-].
  exists Cs'. split_and!; try done.
  intros Hc. destruct (f1 Hc) as [-> Hf]. split; [done|].
  by rewrite firstn_all, drop_0 in Hf.
Qed.

Lemma SumProduct_not_constant C :
  SumProduct C = true → IsConstantLeaf C = None.
Proof.
  destruct C as [| | | |E]; try done. cbn.
  by destruct (isIntegerConstantExpr E).
Qed.

Lemma ConstantLeaves_SumProduct V :
  Forall (λ C, SumProduct C = true) V → ConstantLeaves V = [].
Proof.
  induction 1 as [|C V HC _ IH]; [done|].
  by rewrite ConstantLeaves_cons, (SumProduct_not_constant C HC).
Qed.

Lemma ConstantLeaves_app V1 V2 :
  ConstantLeaves (V1 ++ V2) = ConstantLeaves V1 ++ ConstantLeaves V2.
Proof. unfold ConstantLeaves. apply omap_app. Qed.

Lemma ConstantLeaves_Permutation V V' :
  V ≡ₚ V' → ConstantLeaves V ≡ₚ ConstantLeaves V'.
Proof.
  induction 1 as [|C V V' _ IH|C1 C2 V|V1 V2 V3 _ IH1 _ IH2];
    rewrite ?ConstantLeaves_cons.
  - done.
  - destruct (IsConstantLeaf C); by rewrite IH.
  - destruct (IsConstantLeaf C1), (IsConstantLeaf C2); try done.
    apply Permutation_swap.
  - by rewrite IH1.
Qed.

Lemma absorb_SumProduct Opc C :
  SumProduct C = true → Forall (λ C, SumProduct C = true) (absorb Opc C).
Proof.
  intros HC. destruct C as [Opc' Cs| | | |E]; cbn [absorb];
    try (by repeat constructor).
  destruct (BinaryOperatorKind_eqb Opc' Opc); [|by repeat constructor].
  by apply SumProduct_Binary in HC as (_ & _ & ?).
Qed.

Lemma absorb_length Opc C :
  SumProduct C = true → (1 <= length (absorb Opc C))%nat.
Proof.
  intros HC. destruct C as [Opc' Cs| | | |E]; cbn [absorb]; cbn; try lia.
  destruct (BinaryOperatorKind_eqb Opc' Opc); cbn; [|lia].
  apply SumProduct_Binary in HC as (_ & ? & _). lia.
Qed.

Lemma nf_SumProduct C : SumProduct C = true → SumProduct (nf Lex C) = true.
Proof.
  induction C as [Opc Cs IH| | | |E] using Node_nested_ind; try done.
  intros (Hca & Hlen & HCs)%SumProduct_Binary. rewrite nf_Binary.
  apply SumProduct_Binary.
  assert (Hc : Forall (λ C, SumProduct C = true) (contribution Lex Opc Cs)
               ∧ (length Cs <= length (contribution Lex Opc Cs))%nat).
  { clear Hlen. induction Cs as [|C Cs IHCs]; [done|].
    apply Forall_cons in IH as [IHC IH]. apply Forall_cons in HCs as [HC HCs].
    destruct (IHCs IH HCs) as [H1 H2]. rewrite contribution_cons.
    split.
    - apply Forall_app. split; [|done]. apply absorb_SumProduct. auto.
    - rewrite length_app. cbn [length].
      pose proof (absorb_length Opc (nf Lex C) (IHC HC)). lia. }
  destruct Hc as [H1 H2].
  pose proof (llvm_sort_Permutation (NodeLT Lex) (contribution Lex Opc Cs)) as Hp.
  split_and!; [done| |by rewrite Hp].
  rewrite (Permutation_length Hp). lia.
Qed.

Lemma ConstantLeaves_contribution Cs :
  Forall RootChild Cs →
  ConstantLeaves (contribution Lex BO_Add Cs) = ConstantLeaves Cs.
Proof.
  induction 1 as [|C Cs HC _ IH]; [done|].
  rewrite contribution_cons, ConstantLeaves_app, IH, ConstantLeaves_cons.
  destruct HC as [HC|HC].
  - rewrite (SumProduct_not_constant C HC).
    rewrite (ConstantLeaves_SumProduct (absorb BO_Add (nf Lex C))); [done|].
    by apply absorb_SumProduct, nf_SumProduct.
  - destruct C as [| | | |E]; try done. cbn in HC |- *.
    unfold ConstantLeaves. cbn. by destruct (isIntegerConstantExpr E).
Qed.

Lemma ConstantLeaves_length_contribution Cs Cs' :
  Forall RootChild Cs → Forall RootChild Cs' →
  contribution Lex BO_Add Cs' ≡ₚ contribution Lex BO_Add Cs →
  length (ConstantLeaves Cs') = length (ConstantLeaves Cs).
Proof.
  intros H H' Hp. apply ConstantLeaves_Permutation in Hp.
  rewrite !ConstantLeaves_contribution in Hp by done.
  by apply Permutation_length.
Qed.

Lemma Sort_Binary Opc Cs :
  IsOpCommutativeAndAssociative Opc = true →
  Sort Lex (BinaryOperatorNode Opc Cs)
  = BinaryOperatorNode Opc (llvm_sort (NodeLT Lex) (map (Sort Lex) Cs)).
Proof. intros H. cbn [Sort]. by rewrite H. Qed.

Lemma Sort_SumProduct C : SumProduct C = true → SumProduct (Sort Lex C) = true.
Proof.
  induction C as [Opc Cs IH| | | |E] using Node_nested_ind; try done.
  intros (Hca & Hlen & HCs)%SumProduct_Binary. rewrite Sort_Binary by done.
  apply SumProduct_Binary.
  pose proof (llvm_sort_Permutation (NodeLT Lex) (map (Sort Lex) Cs)) as Hp.
  split_and!; [done| |].
  - by rewrite (Permutation_length Hp), length_map.
  - rewrite Hp. apply Forall_map, Forall_forall. intros C HC.
    rewrite Forall_forall in IH, HCs. cbn. auto.
Qed.

Lemma Sort_RootChild C : RootChild C → RootChild (Sort Lex C).
Proof.
  intros [HC|HC]; [left; by apply Sort_SumProduct|right].
  by destruct C.
Qed.

Lemma contribution_Permutation Opc V V' :
  V ≡ₚ V' → contribution Lex Opc V ≡ₚ contribution Lex Opc V'.
Proof. intros Hp. unfold contribution. by apply Permutation_flat_map. Qed.

Lemma contribution_map_Sort Opc Cs :
  Forall (λ C, nf Lex (Sort Lex C) = nf Lex C) Cs →
  contribution Lex Opc (map (Sort Lex) Cs) = contribution Lex Opc Cs.
Proof.
  induction 1 as [|C Cs HC _ IH]; [done|].
  cbn [map]. by rewrite !contribution_cons, HC, IH.
Qed.

Lemma nf_Sort_SumProduct C :
  SumProduct C = true → nf Lex (Sort Lex C) = nf Lex C.
Proof.
  induction C as [Opc Cs IH| | | |E] using Node_nested_ind; try done.
  intros (Hca & Hlen & HCs)%SumProduct_Binary. rewrite Sort_Binary by done.
  apply nf_contribution_eq.
  rewrite (contribution_Permutation _ _ _ (llvm_sort_Permutation _ _)).
  rewrite contribution_map_Sort; [done|].
  apply Forall_forall. intros C HC. rewrite Forall_forall in IH, HCs. auto.
Qed.

Lemma nf_Sort_RootChild C : RootChild C → nf Lex (Sort Lex C) = nf Lex C.
Proof.
  intros [HC|HC]; [by apply nf_Sort_SumProduct|]. by destruct C.
Qed.

Lemma nf_Sort_root Cs :
  Forall RootChild Cs →
  nf Lex (Sort Lex (BinaryOperatorNode BO_Add Cs))
  = nf Lex (BinaryOperatorNode BO_Add Cs).
Proof.
  intros HCs. rewrite Sort_Binary by done. apply nf_contribution_eq.
  rewrite (contribution_Permutation _ _ _ (llvm_sort_Permutation _ _)).
  rewrite contribution_map_Sort; [done|].
  eapply Forall_impl; [exact HCs|]. apply nf_Sort_RootChild.
Qed.

(** On a tree in which nothing can coalesce, sorting gives the normal
    form. *)
Lemma absorb_Flat Opc C :
  IsOpCommutativeAndAssociative Opc = true →
  SumProduct C = true → Flat (Some Opc) C = true →
  Sort Lex C = nf Lex C → absorb Opc (nf Lex C) = [Sort Lex C].
Proof.
  intros Hca HC HF Hs. rewrite <- Hs.
  destruct C as [Opc' Cs| | | |E]; try done.
  apply SumProduct_Binary in HC as (Hca' & Hlen & HCs).
  cbn [Flat] in HF. apply andb_true_iff in HF as [HF _].
  rewrite (CanCoalesce_SumProduct Opc' Cs Opc) in HF by done.
  rewrite Sort_Binary by done. cbn [absorb].
  by destruct (BinaryOperatorKind_eqb Opc' Opc).
Qed.

Lemma contribution_Flat Opc Cs :
  IsOpCommutativeAndAssociative Opc = true →
  Forall (λ C, SumProduct C = true ∧ Flat (Some Opc) C = true
               ∧ Sort Lex C = nf Lex C) Cs →
  contribution Lex Opc Cs = map (Sort Lex) Cs.
Proof.
  intros Hca. induction 1 as [|C Cs (HC & HF & Hs) _ IH]; [done|].
  rewrite contribution_cons, IH, (absorb_Flat Opc C) by done. done.
Qed.

Lemma Sort_Flat_nf C : ∀ P,
  SumProduct C = true → Flat P C = true → Sort Lex C = nf Lex C.
Proof.
  induction C as [Opc Cs IH| | | |E] using Node_nested_ind; intros P; try done.
  intros (Hca & Hlen & HCs)%SumProduct_Binary HF.
  cbn [Flat] in HF. apply andb_true_iff in HF as [_ HF].
  rewrite forallb_forall in HF.
  rewrite Sort_Binary, nf_Binary by done. f_equal. f_equal.
  symmetry. apply contribution_Flat; [done|].
  apply Forall_forall. intros C HC. rewrite Forall_forall in IH, HCs.
  assert (HFC : Flat (Some Opc) C = true) by (by apply HF, list_elem_of_In).
  split_and!; eauto.
Qed.

Lemma Sort_Flat_nf_root Cs :
  Forall RootChild Cs →
  Forall (λ C, Flat (Some BO_Add) C = true) Cs →
  Sort Lex (BinaryOperatorNode BO_Add Cs)
  = nf Lex (BinaryOperatorNode BO_Add Cs).
Proof.
  intros HCs HF. rewrite Sort_Binary, nf_Binary by done. f_equal. f_equal.
  symmetry. induction HCs as [|C Cs HC _ IH]; [done|].
  apply Forall_cons in HF as [HFC HF].
  rewrite contribution_cons, (IH HF). cbn [map].
  destruct HC as [HC|HC].
  - rewrite (absorb_Flat BO_Add C); try done. by eapply Sort_Flat_nf.
  - by destruct C.
Qed.

(** [ConstantFold] leaves a tree alone when no node has two constant
    children. *)
Lemma FoldConstant_first Opc I v L :
  NumConsts L = 0%nat →
  ∃ L', FoldConstant Opc I v L = Some L' ∧ NumConsts L' = 1%nat.
Proof. intros H. unfold FoldConstant. rewrite H. cbn. eauto. Qed.

Lemma ConstantFold_loop_id call Opc steps : ∀ I V L st ex,
  (∀ C st o st', C ∈ V → IsConstantLeaf C = None →
     call C st = Some (o, st') → o = Kept C ∧ st' = st) →
  (NumConsts L + length (ConstantLeaves (drop I V)) <= 1)%nat →
  ConstantFold_loop call Opc steps I V L st = Some ex →
  ∃ L', ex = LoopDone V L' st ∧ (NumConsts L' <= 1)%nat.
Proof.
  induction steps as [|steps IH]; intros I V L st ex Hcall Hn; [done|].
  cbn [ConstantFold_loop].
  destruct (I =? length V)%nat.
  { intros [= <-]. exists L. split; [done|lia]. }
  destruct (V !! I) as [C|] eqn:HI; [|done].
  rewrite (drop_S _ _ _ HI), ConstantLeaves_cons in Hn.
  assert (Hnon : IsConstantLeaf C = None →
    ∀ o st', call C st = Some (o, st') →
    ConstantFold_loop call Opc steps (S I) (apply_outcome I V o) L st'
      = Some ex →
    ∃ L', ex = LoopDone V L' st ∧ (NumConsts L' <= 1)%nat).
  { intros HC o st' Hc.
    destruct (Hcall C st o st' (list_elem_of_lookup_2 _ _ _ HI) HC Hc)
      as [-> ->].
    cbn [apply_outcome]. rewrite (list_insert_id _ _ _ HI).
    apply IH; [done|]. by rewrite HC in Hn. }
  destruct C as [Opc' Cs|U C|B F A|K C|E].
  1-4: destruct (call _ st) as [[o st']|] eqn:Hc; [|done];
       by apply (Hnon eq_refl o st').
  destruct (negb (IsOpCommutativeAndAssociative Opc)).
  { apply IH; [done|]. clear IH. destruct (IsConstantLeaf _); cbn in Hn; lia. }
  cbn [IsConstantLeaf] in Hn.
  destruct (isIntegerConstantExpr E) as [v|].
  - cbn [length] in Hn.
    destruct (FoldConstant_first Opc I v L ltac:(clear IH; lia))
      as (L' & -> & HL').
    apply IH; [done|]. clear IH. lia.
  - by apply IH.
Qed.

Lemma ConstantFold_SumProduct fuel : ∀ N P st o st',
  SumProduct N = true →
  ConstantFold fuel N P st = Some (o, st') → o = Kept N ∧ st' = st.
Proof.
  induction fuel as [|fuel IH]; intros N P st o st' HN; [done|].
  cbn [ConstantFold]. destruct (Err st); [by intros [= <- <-]|].
  destruct N as [Opc Cs| | | |E]; try done; [|by intros [= <- <-]].
  apply SumProduct_Binary in HN as (Hca & Hlen & HCs).
  destruct (ConstantFold_loop _ _ _ _ _ _ _) as [ex|] eqn:Hloop; [|done].
  apply ConstantFold_loop_id in Hloop as (L' & -> & HL').
  - apply Nat.leb_le in HL'. rewrite HL'. by intros [= <- <-].
  - intros C st0 o0 st0' HC _ Hc. rewrite Forall_forall in HCs.
    eapply IH; [|exact Hc]. by apply HCs.
  - rewrite drop_0, (ConstantLeaves_SumProduct _ HCs). cbn. lia.
Qed.

Lemma ConstantFold_root_id fuel Cs st o st' :
  Forall RootChild Cs → (length (ConstantLeaves Cs) <= 1)%nat →
  ConstantFold fuel (BinaryOperatorNode BO_Add Cs) None st = Some (o, st') →
  o = Kept (BinaryOperatorNode BO_Add Cs) ∧ st' = st.
Proof.
  intros HCs Hn. destruct fuel as [|fuel]; [done|].
  cbn [ConstantFold]. destruct (Err st); [by intros [= <- <-]|].
  destruct (ConstantFold_loop _ _ _ _ _ _ _) as [ex|] eqn:Hloop; [|done].
  apply ConstantFold_loop_id in Hloop as (L' & -> & HL').
  - apply Nat.leb_le in HL'. rewrite HL'. by intros [= <- <-].
  - intros C st0 o0 st0' HC Hk Hc. rewrite Forall_forall in HCs.
    destruct (HCs C HC) as [HS|HS].
    + by eapply ConstantFold_SumProduct.
    + by rewrite Hk in HS.
  - rewrite drop_0. cbn. lia.
Qed.

Lemma contribution_Sort_root Cs :
  Forall RootChild Cs →
  contribution Lex BO_Add (llvm_sort (NodeLT Lex) (map (Sort Lex) Cs))
  ≡ₚ contribution Lex BO_Add Cs.
Proof.
  intros HCs.
  rewrite (contribution_Permutation _ _ _ (llvm_sort_Permutation _ _)).
  rewrite contribution_map_Sort; [done|].
  eapply Forall_impl; [exact HCs|]. apply nf_Sort_RootChild.
Qed.

(** Whatever the number of rounds, on a tree of sums and products of
    non-constant leaves below the root [Normalize_in_place] can only end with the
    normal form, and without [Error]. *)
Lemma Normalize_while_in_place_nf iters : ∀ Cs R' E',
  Forall RootChild Cs → (length (ConstantLeaves Cs) <= 1)%nat →
  Normalize_while_in_place iters Lex (BinaryOperatorNode BO_Add Cs) false
    = Some (R', E') →
  R' = nf Lex (BinaryOperatorNode BO_Add Cs) ∧ E' = false.
Proof.
  induction iters as [|iters IH]; intros Cs R' E' HCs Hn; [done|].
  cbn [Normalize_while_in_place].
  destruct (Coalesce_in_place _ _ _ _) as [[o st1]|] eqn:HC; [|done].
  destruct (Coalesce_in_place_root_sem _ Cs {| Changed := false; Err := false |}
              _ _ HCs eq_refl HC)
    as (Cs1 & -> & He1 & HCs1 & Hp1 & _ & Hflat).
  rewrite He1, Sort_Binary by done.
  set (Cs2 := llvm_sort (NodeLT Lex) (map (Sort Lex) Cs1)).
  assert (HCs2 : Forall RootChild Cs2).
  { unfold Cs2. rewrite llvm_sort_Permutation.
    apply Forall_map. eapply Forall_impl; [exact HCs1|].
    apply Sort_RootChild. }
  assert (Hp2 : contribution Lex BO_Add Cs2 ≡ₚ contribution Lex BO_Add Cs).
  { unfold Cs2. by rewrite contribution_Sort_root. }
  assert (Hn2 : (length (ConstantLeaves Cs2) <= 1)%nat).
  { by rewrite (ConstantLeaves_length_contribution Cs Cs2). }
  destruct (ConstantFold _ _ _ _) as [[o st3]|] eqn:HF; [|done].
  destruct (ConstantFold_root_id _ _ _ _ _ HCs2 Hn2 HF) as [-> ->].
  rewrite He1.
  destruct (Changed st1) eqn:Hch.
  - intros Hw. destruct (IH _ _ _ HCs2 Hn2 Hw) as [-> ->].
    split; [|done]. by apply nf_contribution_eq.
  - intros [= <- <-]. split; [|done].
    destruct (Hflat eq_refl) as [-> HF1].
    unfold Cs2. rewrite <- Sort_Binary by done.
    by apply Sort_Flat_nf_root.
Qed.
End Canonical.

Lemma Create_SumProduct E :
  SumProductExpr E = true → SumProduct (Create E) = true.
Proof.
  induction E as [V|v|Opc L IHL R IHR| | | | |]; try done.
  cbn [SumProductExpr]. rewrite !andb_true_iff. intros [[Hca HL] HR].
  simp Create.
  assert (is_BO_Sub Opc = false) as -> by (by destruct Opc).
  cbn [andb]. apply SumProduct_Binary. split_and!; [done|cbn; lia|].
  repeat constructor; auto.
Qed.

Section CanonicalForm.
Variable Lex : Lexicographic.
Hypothesis Expr_order : TotalOrder (CompareExpr Lex).
Hypothesis Decl_order : TotalOrder (CompareDecl Lex).

(** The tree [Canonicalize_in_place] returns for an expression built from [+] and
    [*] over variables. *)
Lemma Canonicalize_in_place_SumProductExpr E :
  SumProductExpr E = true →
  Canonicalize_in_place Lex E
  = Some (nf Lex (BinaryOperatorNode BO_Add
                    [LeafExprNode ZeroLiteral; Create E])).
Proof.
  intros HE. unfold Canonicalize_in_place, Normalize_in_place, Create_root, AttachNode_root.
  cbn [isa_BinaryOperatorNode Root Error AddZero]. unfold AddZero.
  set (Cs := [LeafExprNode ZeroLiteral; Create E]).
  set (R := BinaryOperatorNode BO_Add Cs).
  assert (HR : WellFormed R = true).
  { unfold R, Cs. cbn. by rewrite Create_WellFormed. }
  destruct (Normalize_while_in_place_total Lex (S (Node_size R)) R false HR
              ltac:(done) ltac:(lia)) as (R' & E' & Hw & _).
  rewrite Hw.
  apply Normalize_while_in_place_nf in Hw as [-> ->]; [done..| |].
  - unfold Cs. constructor; [|constructor; [|constructor]].
    + right. unfold ZeroLiteral. cbn [IsConstantLeaf].
      by rewrite isIntegerConstantExpr_Zero.
    + left. by apply Create_SumProduct.
  - unfold Cs. rewrite !ConstantLeaves_cons.
    rewrite (SumProduct_not_constant (Create E)) by by apply Create_SumProduct.
    unfold ZeroLiteral. cbn [IsConstantLeaf].
    rewrite isIntegerConstantExpr_Zero. cbn. lia.
Qed.

Lemma nf_comm Opc A B :
  nf Lex (BinaryOperatorNode Opc [A; B]) = nf Lex (BinaryOperatorNode Opc [B; A]).
Proof.
  apply nf_contribution_eq; [done..|]. unfold contribution. cbn [flat_map].
  rewrite !app_nil_r. apply Permutation_app_comm.
Qed.

Lemma nf_assoc Opc A B C :
  nf Lex (BinaryOperatorNode Opc [BinaryOperatorNode Opc [A; B]; C])
  = nf Lex (BinaryOperatorNode Opc [A; BinaryOperatorNode Opc [B; C]]).
Proof.
  apply nf_contribution_eq; [done..|].
  unfold contribution. cbn [flat_map].
  rewrite !nf_Binary. cbn [absorb].
  rewrite (proj2 (BinaryOperatorKind_eqb_eq Opc Opc) eq_refl).
  rewrite !llvm_sort_Permutation. unfold contribution. cbn [flat_map].
  by rewrite !app_nil_r, <- !app_assoc.
Qed.

Lemma nf_root_congr Z T T' :
  nf Lex T = nf Lex T' →
  nf Lex (BinaryOperatorNode BO_Add [Z; T])
  = nf Lex (BinaryOperatorNode BO_Add [Z; T']).
Proof. intros H. rewrite !nf_Binary, !contribution_cons. by rewrite H. Qed.

(** The normal form is flattened: no child of a node carries the
    operator of that node. *)
End CanonicalForm.

(** C4: what [Normalize] does on two pairs of rearranged expressions.
    In [BinaryOperatorNode::Coalesce] the loop
    [for (auto *Child : Children) Child->Coalesce(...)], under the comment
    "Coalesce the children first", runs over the vector from which the
    child removes itself and to which it adds its own children.

    The product of [p * i] and the constant operand [(INT_MAX * 2) * 0]:
    with the constant operand on the right, the loop merges [p * i] into
    the product and steps over the constant operand, which has moved to
    the place of [p * i]; [INT_MAX * 2] is then folded by itself and
    overflows, [Normalize] ends with the [Error] flag set and there is no
    canonical tree.  With the constant operand on the left its three
    literals are merged first and are folded to [0].

    The sum [((v0 + v1) + v2) + (v3 + v4)]: the first round merges
    [(v0 + v1) + v2] and steps over [v3 + v4], which is left as the second
    of five children of the root.  After [Sort] it is the first of them;
    in the second round it is merged while the loop of the root is at the
    first of five places: the vector grows to hold a sixth child, and the
    loop goes on in the storage that has been released.  The run has no
    result, whatever the number of steps allowed.  Grouped to the left,
    the same sum has the canonical tree over the five variables and [0].

    The function [f5] of widened-bounds-semantic-compare.c: the declared
    bound [(p + i) + (j + k) + (m + n)] has the canonical tree over the six
    variables and [0]; the run on the dereferenced expression
    [(n + m + k) + (j + i + p)] has no result. *)
Theorem C4_commuted_product_differs :
  let p := DeclRefExpr 0%nat in
  let i := DeclRefExpr 1%nat in
  let a := BinaryOperator BO_Mul p i in
  let b := INT_MAX_times_2_times_0 in
  let v (n : nat) := DeclRefExpr n in
  let leaf (n : nat) := LeafExprNode (DeclRefExpr n) in
  let add x y := BinaryOperator BO_Add x y in
  let Grouped := add (add (add (v 0%nat) (v 1%nat)) (v 2%nat)) (add (v 3%nat) (v 4%nat)) in
  let Left := add (add (add (add (v 0%nat) (v 1%nat)) (v 2%nat)) (v 3%nat)) (v 4%nat) in
  let Bound5 :=
    add (add (add (v 0%nat) (v 1%nat)) (add (v 2%nat) (v 3%nat))) (add (v 4%nat) (v 5%nat)) in
  let Deref5 :=
    add (add (add (v 5%nat) (v 4%nat)) (v 3%nat)) (add (add (v 2%nat) (v 1%nat)) (v 0%nat)) in
  let Zero := LeafExprNode (IntegerLiteral 0) in
  let Sibling := BinaryOperatorNode BO_Add [leaf 3%nat; leaf 4%nat] in
  let Root0 :=
    BinaryOperatorNode BO_Add
      [Zero;
       BinaryOperatorNode BO_Add
         [BinaryOperatorNode BO_Add
            [BinaryOperatorNode BO_Add [leaf 0%nat; leaf 1%nat]; leaf 2%nat];
          Sibling]] in
  let Root1 :=
    BinaryOperatorNode BO_Add [Zero; Sibling; leaf 2%nat; leaf 0%nat; leaf 1%nat] in
  let Root2 :=
    BinaryOperatorNode BO_Add [Sibling; leaf 0%nat; leaf 1%nat; leaf 2%nat; Zero] in
  let st := {| Changed := false; Err := false |} in
  (OnlySumProduct a = true ∧ OnlySumProduct b = true
   ∧ (∃ R, Normalize DefaultLex (Create_root (BinaryOperator BO_Mul a b))
           = Some {| Root := Some R; Error := true |})
   ∧ Canonicalize DefaultLex (BinaryOperator BO_Mul a b) = None
   ∧ Canonicalize DefaultLex (BinaryOperator BO_Mul b a)
     = Some (BinaryOperatorNode BO_Add
               [BinaryOperatorNode BO_Mul [leaf 0%nat; leaf 1%nat; Zero]; Zero]))
  ∧ (Create_root Grouped = {| Root := Some Root0; Error := false |}
     ∧ Coalesce (S (Node_size Root0)) false Root0 None st
       = Some (Kept Root1, SetChanged st)
     ∧ Sort DefaultLex Root1 = Root2
     ∧ (∀ fuel, Coalesce fuel false Root2 None st = None)
     ∧ Normalize DefaultLex (Create_root Grouped) = None
     ∧ Canonicalize DefaultLex Left
       = Some (BinaryOperatorNode BO_Add
                 [leaf 0%nat; leaf 1%nat; leaf 2%nat; leaf 3%nat; leaf 4%nat; Zero]))
  ∧ (Canonicalize DefaultLex Bound5
     = Some (BinaryOperatorNode BO_Add
               [leaf 0%nat; leaf 1%nat; leaf 2%nat; leaf 3%nat; leaf 4%nat; leaf 5%nat; Zero])
     ∧ Normalize DefaultLex (Create_root Deref5) = None).
Proof.
  intros p i a b v leaf add Grouped Left Bound5 Deref5 Zero Sibling
    Root0 Root1 Root2 st.
  split; [|split]; split_and!; try by vm_compute.
  - eexists. vm_compute. reflexivity.
  - by intros [|[|[|fuel]]]; vm_compute.
Qed.

(** ** The fixpoint engine *)

Module BoundsWideningFacts.
Import BoundsWidening.

Lemma Difference_subseteq A K : Difference A K ⊆ A.
Proof. unfold Difference. intros f. rewrite elem_of_filter. tauto. Qed.

Lemma Difference_mono A A' K : A ⊆ A' → Difference A K ⊆ Difference A' K.
Proof.
  unfold Difference. intros HA f. rewrite !elem_of_filter.
  intros [? ?]. split; [done|by apply HA].
Qed.

Lemma elem_of_foldl_Intersect (Pr : Block → BoundsMapTy) f Ps : ∀ X,
  f ∈ foldl (λ X Q, Intersect X (Pr Q)) X Ps
  ↔ f ∈ X ∧ ∀ Q, Q ∈ Ps → f ∈ Pr Q.
Proof.
  induction Ps as [|P Ps IH]; intros X; cbn [foldl].
  - split; [intros ?; split; [done|]; by intros ? ?%elem_of_nil|tauto].
  - rewrite IH. unfold Intersect. rewrite elem_of_intersection.
    split.
    + intros [[? ?] HPs]. split; [done|].
      intros Q [->|?]%elem_of_cons; auto.
    + intros [? HPs]. split_and!; [done| |].
      * apply HPs. left.
      * intros Q HQ. apply HPs. by right.
Qed.

(** Queues built by [append]. *)
Lemma elem_of_append (B x : Block) (q : WorkListTy) :
  QueueSet.consistent q →
  x ∈ QueueSet._queue (QueueSet.append B q) ↔ x = B ∨ x ∈ QueueSet._queue q.
Proof.
  intros [_ Hset]. unfold QueueSet.append.
  destruct (decide (B ∈ QueueSet._set q)) as [Hin|Hn]; cbn.
  - split; [by right|]. intros [->|?]; [by apply Hset|done].
  - rewrite elem_of_app, list_elem_of_singleton. tauto.
Qed.

Lemma foldl_append_consistent (L : list Block) : ∀ q : WorkListTy,
  QueueSet.consistent q →
  QueueSet.consistent (foldl (λ WL S, QueueSet.append S WL) q L).
Proof.
  induction L as [|B L IH]; intros q Hq; cbn [foldl]; [done|].
  by apply IH, QueueSetFacts.consistent_append.
Qed.

Lemma elem_of_foldl_append (L : list Block) x : ∀ q : WorkListTy,
  QueueSet.consistent q →
  x ∈ QueueSet._queue (foldl (λ WL S, QueueSet.append S WL) q L)
  ↔ x ∈ L ∨ x ∈ QueueSet._queue q.
Proof.
  induction L as [|B L IH]; intros q Hq; cbn [foldl].
  - split; [by right|]. by intros [?%elem_of_nil|?].
  - rewrite IH by by apply QueueSetFacts.consistent_append.
    rewrite elem_of_append by done. rewrite elem_of_cons. tauto.
Qed.

Lemma queue_length_le (l L : list Block) :
  NoDup l → (∀ x, x ∈ l → x ∈ L) → (length l <= length L)%nat.
Proof. intros Hnd Hsub. by apply submseteq_length, NoDup_submseteq. Qed.

Lemma sum_list_ext (g g' : Block → nat) L :
  (∀ B, B ∈ L → g' B = g B) →
  sum_list (map g' L) = sum_list (map g L).
Proof.
  induction L as [|C L IH]; intros Hg; [done|]. cbn.
  rewrite Hg by left. rewrite IH; [done|]. intros B HB. apply Hg. by right.
Qed.

Lemma sum_list_decrease (g g' : Block → nat) L EB :
  NoDup L → EB ∈ L → (∀ B, B ≠ EB → g' B = g B) → (g' EB < g EB)%nat →
  (sum_list (map g' L) < sum_list (map g L))%nat.
Proof.
  intros Hnd HEB Hne Hlt. induction Hnd as [|C L HC Hnd IH]; [by apply elem_of_nil in HEB|].
  cbn. apply elem_of_cons in HEB as [<-|HEB].
  - rewrite (sum_list_ext g g' L); [lia|].
    intros B HB. apply Hne. by intros ->.
  - specialize (IH HEB). rewrite (Hne C) by (by intros ->). lia.
Qed.

Lemma sum_list_bound (g : Block → nat) L n :
  (∀ B, g B <= n)%nat → (sum_list (map g L) <= length L * n)%nat.
Proof.
  intros Hg. induction L as [|C L IH]; [done|]. cbn.
  specialize (Hg C). lia.
Qed.

Section EngineFacts.
Variable G : CFG.
Hypothesis HG : WellFormedCFG G.

Lemma NewIn_nil EB A : preds G EB = [] → NewIn G EB A = In A EB.
Proof. unfold NewIn, ComputeInSet. by intros ->. Qed.

Lemma elem_of_NewIn EB A f :
  preds G EB ≠ [] →
  f ∈ NewIn G EB A ↔ ∀ P, P ∈ preds G EB → f ∈ PruneOutSet G P EB A.
Proof.
  unfold NewIn, ComputeInSet. destruct (preds G EB) as [|P Ps]; [done|].
  intros _. cbn [In]. rewrite fn_lookup_insert, elem_of_foldl_Intersect.
  split.
  - intros [? HPs] Q [->|?]%elem_of_cons; auto.
  - intros HPs. split; [apply HPs; left|].
    intros Q HQ. apply HPs. by right.
Qed.

(** [NewIn] reads the Out sets of the predecessors only. *)
Lemma NewIn_mono C A A' :
  (∀ P, Out A' P ⊆ Out A P) → (preds G C = [] → In A' C = In A C) →
  NewIn G C A' ⊆ NewIn G C A.
Proof.
  intros HO HI. destruct (preds G C) as [|P Ps] eqn:HP.
  - rewrite !NewIn_nil by done. by rewrite HI.
  - intros f. rewrite !elem_of_NewIn by (by rewrite HP).
    intros Hf Q HQ. specialize (Hf Q HQ). unfold PruneOutSet in *.
    apply elem_of_difference in Hf as [Hf ?].
    apply elem_of_difference. split; [exact (HO Q f Hf)|done].
Qed.

Lemma NewOut_mono C A A' :
  NewIn G C A' ⊆ NewIn G C A → NewOut G C A' ⊆ NewOut G C A.
Proof.
  intros HI. unfold NewOut, Union. apply union_mono_r.
  by apply Difference_mono.
Qed.

Lemma In_Init_Top B : In (InitBlockInOutSets G) B ⊆ Top G.
Proof.
  cbn. destruct (decide (B = Entry G)); [apply HG|done].
Qed.

Lemma NewIn_Top C A :
  (∀ P, Out A P ⊆ Top G) →
  (preds G C = [] → In A C = In (InitBlockInOutSets G) C) →
  NewIn G C A ⊆ Top G.
Proof.
  intros HO HI. destruct (preds G C) as [|P Ps] eqn:HP.
  - rewrite NewIn_nil, HI by done. apply In_Init_Top.
  - intros f. rewrite elem_of_NewIn by (by rewrite HP).
    intros Hf. specialize (Hf P ltac:(rewrite HP; left)).
    unfold PruneOutSet in Hf.
    apply elem_of_difference in Hf as [Hf _]. exact (HO P f Hf).
Qed.

Lemma NewOut_Top C A :
  C ∈ Blocks G → NewIn G C A ⊆ Top G → NewOut G C A ⊆ Top G.
Proof.
  intros HC HI. unfold NewOut, Union. apply union_least; [|by apply HG].
  etrans; [apply Difference_subseteq|done].
Qed.

Lemma Inv_init : Inv G (InitBlockInOutSets G) (InitWorkList G).
Proof.
  unfold InitWorkList. split.
  - apply foldl_append_consistent, QueueSetFacts.consistent_init.
  - intros B. rewrite elem_of_foldl_append
      by apply QueueSetFacts.consistent_init.
    intros [?|?%elem_of_nil]; done.
  - intros B HB. cbn [Out InitBlockInOutSets].
    apply NewOut_Top; [done|]. by apply NewIn_Top.
  - done.
  - done.
  - intros B HB Hn. exfalso. apply Hn.
    rewrite elem_of_foldl_append by apply QueueSetFacts.consistent_init.
    by left.
  - intros B HB Hn. exfalso. apply Hn.
    rewrite elem_of_foldl_append by apply QueueSetFacts.consistent_init.
    by left.
Qed.

Lemma Measure_init :
  (Measure G (InitBlockInOutSets G) (InitWorkList G) < Iterations G)%nat.
Proof.
  unfold Measure, Iterations.
  pose proof (sum_list_bound (λ B, size (Out (InitBlockInOutSets G) B))
                (Blocks G) (size (Top G)) ltac:(intros; cbn; lia)) as Hs.
  destruct Inv_init as [[Hnd _] Hq _ _ _ _ _].
  pose proof (queue_length_le _ _ Hnd Hq) as Hl.
  nia.
Qed.

Lemma Out_ComputeInSet EB A : Out (ComputeInSet G EB A) = Out A.
Proof. unfold ComputeInSet. by destruct (preds G EB). Qed.

Lemma In_ComputeInSet EB A C :
  In (ComputeInSet G EB A) C
  = if decide (C = EB) then NewIn G EB A else In A C.
Proof.
  destruct (decide (C = EB)) as [->|Hne]; [done|].
  unfold ComputeInSet. destruct (preds G EB); [done|].
  cbn [In]. by rewrite fn_lookup_insert_ne.
Qed.

(** One iteration, as a function of the block taken from the queue. *)
Lemma ComputeOutSet_ComputeInSet EB A WL :
  ComputeOutSet G EB (ComputeInSet G EB A) WL
  = ({| In := In (ComputeInSet G EB A);
        Out := <[EB := NewOut G EB A]> (Out A) |},
     if IsEqual (Out A EB) (NewOut G EB A) then WL
     else QueueSet.append EB WL).
Proof.
  unfold ComputeOutSet. rewrite Out_ComputeInSet.
  fold (NewIn G EB A). fold (NewOut G EB A).
  by destruct (IsEqual _ _).
Qed.

(** The sets after a block has been processed. *)
Definition Processed (EB : Block) (A : InOut) : InOut :=
  {| In := In (ComputeInSet G EB A);
     Out := <[EB := NewOut G EB A]> (Out A) |}.

Lemma Out_Processed EB A C :
  Out (Processed EB A) C
  = if decide (C = EB) then NewOut G EB A else Out A C.
Proof.
  cbn. destruct (decide (C = EB)) as [->|Hne].
  - by rewrite fn_lookup_insert.
  - by rewrite fn_lookup_insert_ne.
Qed.

Lemma In_Processed EB A C :
  In (Processed EB A) C = if decide (C = EB) then NewIn G EB A else In A C.
Proof. apply In_ComputeInSet. Qed.

Lemma In_Processed_nil EB A C :
  preds G C = [] → In (Processed EB A) C = In A C.
Proof.
  intros HC. rewrite In_Processed.
  destruct (decide (C = EB)) as [->|]; [by apply NewIn_nil|done].
Qed.

Lemma Out_Processed_mono EB A :
  NewOut G EB A ⊆ Out A EB → ∀ P, Out (Processed EB A) P ⊆ Out A P.
Proof.
  intros H P. rewrite Out_Processed. by destruct (decide (P = EB)) as [->|].
Qed.

Lemma Inv_Processed EB A WL WL2 :
  Inv G A WL → EB ∈ Blocks G →
  QueueSet.consistent WL2 →
  (∀ B, B ∈ QueueSet._queue WL2 → B ∈ Blocks G) →
  (∀ C, C ≠ EB → C ∉ QueueSet._queue WL2 → C ∉ QueueSet._queue WL) →
  Inv G (Processed EB A) WL2.
Proof.
  intros [Hc Hq HJ HT HI0 HO HI] HEB Hc2 Hq2 Hdone.
  pose proof (Out_Processed_mono EB A (HJ EB HEB)) as Hmono.
  assert (HNI : ∀ C, NewIn G C (Processed EB A) ⊆ NewIn G C A).
  { intros C. apply NewIn_mono; [exact Hmono|by apply In_Processed_nil]. }
  split; [done|done| | | | |].
  - intros C HC. etrans.
    + apply NewOut_mono, HNI.
    + rewrite Out_Processed. destruct (decide (C = EB)) as [->|]; [done|].
      by apply HJ.
  - intros C. etrans; [apply Hmono|apply HT].
  - intros C HC. rewrite In_Processed_nil by done. by apply HI0.
  - intros C HC Hn. rewrite Out_Processed, In_Processed.
    destruct (decide (C = EB)) as [->|Hne]; [done|].
    by apply HO, Hdone.
  - intros C HC Hn. etrans; [apply HNI|]. rewrite In_Processed.
    destruct (decide (C = EB)) as [->|Hne]; [done|].
    by apply HI, Hdone.
Qed.

Lemma Inv_step A EB rest s :
  let WL := QueueSet.mk (EB :: rest) s in
  let WL1 := QueueSet.remove EB WL in
  let WL2 := if IsEqual (Out A EB) (NewOut G EB A) then WL1
             else QueueSet.append EB WL1 in
  Inv G A WL →
  Inv G (Processed EB A) WL2
  ∧ (Measure G (Processed EB A) WL2 < Measure G A WL)%nat.
Proof.
  intros WL WL1 WL2 HInv.
  pose proof HInv as [Hc Hq HJ HT HI0 HO HI].
  assert (HEB : EB ∈ Blocks G) by (apply Hq; left).
  assert (Hc1 : QueueSet.consistent WL1)
    by (by apply QueueSetFacts.consistent_remove_front).
  assert (Hq1 : QueueSet._queue WL1 = rest) by done.
  assert (Hin : ∀ C, C ≠ EB → C ∉ rest → C ∉ QueueSet._queue WL).
  { intros C Hne HC [->|?]%elem_of_cons; done. }
  unfold IsEqual in WL2. destruct (bool_decide_reflect (Out A EB = NewOut G EB A))
    as [Heq|Hne].
  - (* The Out set has not changed. *)
    subst WL2. split.
    + apply (Inv_Processed EB A WL); [done|done|done| |exact Hin].
      intros B HB. apply Hq. rewrite Hq1 in HB. by right.
    + unfold Measure. rewrite Hq1.
      rewrite (sum_list_ext (λ B, size (Out A B))
                 (λ B, size (Out (Processed EB A) B))).
      * cbn [QueueSet._queue WL length]. lia.
      * intros B _. rewrite Out_Processed.
        destruct (decide (B = EB)) as [->|]; [by rewrite Heq|done].
  - (* The Out set has changed: it has lost a fact. *)
    assert (Hc2 : QueueSet.consistent WL2)
      by (by apply QueueSetFacts.consistent_append).
    assert (Hq2 : ∀ B, B ∈ QueueSet._queue WL2 → B ∈ Blocks G).
    { intros B. unfold WL2. rewrite elem_of_append by done.
      rewrite Hq1. intros [->|HB]; [done|]. apply Hq. by right. }
    split.
    + apply (Inv_Processed EB A WL); try done.
      intros C HneC HC. unfold WL2 in HC.
      rewrite elem_of_append, Hq1 in HC by done.
      apply Hin; tauto.
    + unfold Measure.
      assert (Hlt : (size (NewOut G EB A) < size (Out A EB))%nat).
      { apply subset_size. split; [by apply HJ|].
        intros Hsub. apply Hne. apply set_eq. intros f.
        split; [apply Hsub|by apply HJ]. }
      pose proof (sum_list_decrease (λ B, size (Out A B))
                    (λ B, size (Out (Processed EB A) B)) (Blocks G) EB
                    (wf_NoDup G HG) HEB) as Hsum.
      specialize (Hsum ltac:(intros B HB; cbv beta; rewrite Out_Processed;
                             by destruct (decide (B = EB)))).
      specialize (Hsum ltac:(cbv beta; rewrite Out_Processed;
                             by destruct (decide (EB = EB)))).
      pose proof (queue_length_le _ _ (proj1 Hc2) Hq2) as Hlen.
      cbn [QueueSet._queue WL length]. nia.
Qed.

(** The iteration ends when it is given [Measure] rounds; then the Out set
    of every block is the one computed from its In set, and the In set
    holds the facts that all the predecessors of the block pass on. *)
Lemma Iterate_total fuel : ∀ A WL,
  Inv G A WL → (Measure G A WL < fuel)%nat →
  ∃ A', Iterate G fuel A WL = Some A'
        ∧ (∀ B, B ∈ Blocks G →
             Out A' B = Union (Difference (In A' B) (Kill G B)) (Gen G B)
             ∧ NewIn G B A' ⊆ In A' B)
        ∧ (∀ B, preds G B = [] → In A' B = In (InitBlockInOutSets G) B).
Proof.
  induction fuel as [|fuel IH]; intros A WL HInv Hm; [lia|].
  cbn [Iterate]. destruct WL as [[|EB rest] s].
  - cbn. exists A. split_and!; [done| |apply HInv].
    intros B HB. split.
    + apply (inv_out G A _ HInv B HB). cbn. apply not_elem_of_nil.
    + apply (inv_in G A _ HInv B HB). cbn. apply not_elem_of_nil.
  - cbn [QueueSet.empty QueueSet.next QueueSet._queue head].
    rewrite ComputeOutSet_ComputeInSet. fold (Processed EB A).
    destruct (Inv_step A EB rest s HInv) as [HInv' Hm'].
    apply IH; [exact HInv'|].
    eapply Nat.lt_le_trans; [exact Hm'|]. by apply Nat.lt_succ_r.
Qed.
End EngineFacts.

Lemma LoopCFG_WellFormed : WellFormedCFG LoopCFG.
Proof.
  split.
  - cbn. repeat (apply NoDup_cons_2; [set_solver|]). apply NoDup_nil_2.
  - intros B HB. cbn in HB.
    repeat (apply elem_of_cons in HB as [->|HB]); cbn; set_solver.
  - cbn. set_solver.
Qed.

(** What the iteration ends with on [LoopCFG]: the In set of the loop head
    (block 2) still holds the fact [(1, 1)], which the loop body (block 1)
    kills and does not pass on. *)
Lemma WidenBounds_LoopCFG :
  ∃ A, WidenBounds LoopCFG = Some A
       ∧ (1%nat, 1) ∈ In A 2%nat
       ∧ (1%nat, 1) ∉ PruneOutSet LoopCFG 1%nat 2%nat A.
Proof.
  eexists. split; [vm_compute; reflexivity|].
  split; [by vm_compute|]. by vm_compute.
Qed.



End BoundsWideningFacts.

(* ===================================================================== *)
(** * Further properties of the passes and of the queue                   *)
(* ===================================================================== *)

(** ** What a round that changes nothing says about the tree *)

Lemma Flags_eta st : {| Changed := Changed st; Err := Err st |} = st.
Proof. by destruct st. Qed.

Lemma Coalesce_loop_in_place_unchanged call (Q : Node → Prop) r : ∀ I V st V' st',
  (∀ C st o st', call C st = Some (o, st') → unchanged_post Q C st o st') →
  Coalesce_loop_in_place call r I V st = Some (V', st') →
  Err st' = Err st
  ∧ (Changed st = true → Changed st' = true)
  ∧ (Changed st' = false →
     V' = V ∧ st' = st ∧ (Err st = false → Forall Q (take r (drop I V)))).
Proof.
  induction r as [|r IH]; intros I V st V' st' Hcall; cbn [Coalesce_loop_in_place].
  { intros [= <- <-]. split_and!; try done. }
  destruct (V !! I) as [C|] eqn:HI; [|done].
  destruct (call C st) as [[o st1]|] eqn:Hc; [|done].
  destruct (Hcall _ _ _ _ Hc) as (He1 & Hm1 & Hu1).
  intros Hloop. destruct (IH _ _ _ _ _ Hcall Hloop) as (He2 & Hm2 & Hu2).
  split_and!; [congruence|auto|].
  intros Hch. destruct (Hu2 Hch) as (-> & -> & HQ2).
  destruct (Hu1 Hch) as (-> & -> & HQ1).
  cbn [apply_outcome] in *. rewrite (list_insert_id _ _ _ HI) in *.
  split_and!; try done. intros He.
  rewrite (drop_S _ _ _ HI). cbn [take]. constructor; auto.
Qed.

Lemma Coalesce_in_place_unchanged fuel : ∀ N P st o st',
  Coalesce_in_place fuel N P st = Some (o, st') →
  unchanged_post (λ N, Coalesced P N = true) N st o st'.
Proof.
  induction fuel as [|fuel IH]; intros N P st o st'; [done|].
  cbn [Coalesce_in_place]. destruct (Err st) eqn:He.
  { intros [= <- <-]. split_and!; try done. intros _. split_and!; try done.
    by rewrite He. }
  destruct N as [Opc Cs|Opc C|B F A|CK C|E].
  - destruct (Coalesce_loop_in_place _ _ _ _ _) as [[Cs' st1]|] eqn:Hloop; [|done].
    apply (Coalesce_loop_in_place_unchanged _ (λ C, Coalesced (Some Opc) C = true))
      in Hloop as (He1 & Hm1 & Hu1); [|intros; by eapply IH].
    destruct (CanCoalesce Opc Cs' P) eqn:Hcan; cbn [negb].
    + intros [= <- <-]. unfold unchanged_post. cbn.
      split_and!; [congruence|done|done].
    + intros [= <- <-]. split_and!; [done|done|].
      intros Hch. destruct (Hu1 Hch) as (-> & -> & HQ).
      split_and!; try done. intros _. cbn [Coalesced]. rewrite Hcan.
      cbn [negb andb]. apply forallb_forall. specialize (HQ He).
      rewrite drop_0, firstn_all in HQ. rewrite Forall_forall in HQ.
      intros x Hx. by apply HQ, list_elem_of_In.
  - destruct (Coalesce_in_place fuel C None st) as [[[C'|?] st1]|] eqn:Hc; try done.
    intros [= <- <-]. destruct (IH _ _ _ _ _ Hc) as (He1 & Hm1 & Hu1).
    split_and!; try done. intros Hch. destruct (Hu1 Hch) as ([= ->] & -> & HQ).
    done.
  - destruct (Coalesce_in_place fuel B None st) as [[[C'|?] st1]|] eqn:Hc; try done.
    intros [= <- <-]. destruct (IH _ _ _ _ _ Hc) as (He1 & Hm1 & Hu1).
    split_and!; try done. intros Hch. destruct (Hu1 Hch) as ([= ->] & -> & HQ).
    done.
  - destruct (Coalesce_in_place fuel C None st) as [[[C'|?] st1]|] eqn:Hc; try done.
    intros [= <- <-]. destruct (IH _ _ _ _ _ Hc) as (He1 & Hm1 & Hu1).
    split_and!; try done. intros Hch. destruct (Hu1 Hch) as ([= ->] & -> & HQ).
    done.
  - intros [= <- <-]. split_and!; done.
Qed.

(** [Sort] keeps operators and numbers of children, so it keeps a tree in
    which nothing can coalesce that way. *)
Lemma Coalesced_Sort Lex N : ∀ P,
  Coalesced P N = true → Coalesced P (Sort Lex N) = true.
Proof.
  induction N as [Opc Cs IH|Opc C IH|B F A IH|CK C IH|E]
    using Node_nested_ind; intros P; cbn [Sort Coalesced]; auto.
  intros [Hcan HCs]%andb_true_iff. rewrite forallb_forall in HCs.
  assert (Hmap : Forall (λ C, Coalesced (Some Opc) C = true)
                   (map (Sort Lex) Cs)).
  { apply Forall_map, Forall_forall. intros C HC. rewrite Forall_forall in IH.
    cbn. apply IH; [done|]. by apply HCs, list_elem_of_In. }
  assert (Hcan' : ∀ Cs', length Cs' = length Cs →
                         negb (CanCoalesce Opc Cs' P) = true).
  { intros Cs' Hlen. unfold CanCoalesce in *. by rewrite Hlen. }
  destruct (negb (IsOpCommutativeAndAssociative Opc)); cbn [Coalesced];
    apply andb_true_iff; split.
  - apply Hcan'. by rewrite length_map.
  - apply forallb_forall. intros x Hx%list_elem_of_In.
    rewrite Forall_forall in Hmap. by apply Hmap.
  - apply Hcan'.
    by rewrite (Permutation_length (llvm_sort_Permutation _ _)), length_map.
  - apply forallb_forall. intros x Hx%list_elem_of_In.
    rewrite (llvm_sort_Permutation _ _) in Hx.
    rewrite Forall_forall in Hmap. by apply Hmap.
Qed.

Section SortFacts.
Variable Lex : Lexicographic.
Hypothesis Expr_order : TotalOrder (CompareExpr Lex).
Hypothesis Decl_order : TotalOrder (CompareDecl Lex).

Lemma llvm_sort_of_Sorted V :
  Sorted (NodeLe Lex) V → llvm_sort (NodeLT Lex) V = V.
Proof.
  intros HV.
  apply (@Sorted_unique _ (NodeLe Lex) (NodeLe_trans Lex Expr_order Decl_order)
           (NodeLe_antisym Lex Expr_order Decl_order));
    [by apply llvm_sort_Sorted|done|apply llvm_sort_Permutation].
Qed.

Lemma map_fixed (f : Node → Node) V :
  Forall (λ C, f C = C) V → map f V = V.
Proof. induction 1 as [|C V HC _ IH]; [done|]. cbn. by rewrite HC, IH. Qed.

Lemma Sort_idempotent N : Sort Lex (Sort Lex N) = Sort Lex N.
Proof.
  induction N as [Opc Cs IH|Opc C IH|B F A IH|CK C IH|E]
    using Node_nested_ind; cbn [Sort]; try (by f_equal).
  assert (Hfix : Forall (λ C, Sort Lex C = C) (map (Sort Lex) Cs)).
  { apply Forall_map. eapply Forall_impl; [exact IH|]. done. }
  destruct (negb (IsOpCommutativeAndAssociative Opc)) eqn:Hca; cbn [Sort];
    rewrite Hca; f_equal.
  - by apply map_fixed.
  - fold (NodeLT Lex). rewrite map_fixed.
    + apply llvm_sort_of_Sorted. by apply llvm_sort_Sorted.
    + by rewrite (llvm_sort_Permutation _ _).
Qed.

Lemma Ordered_children Cs :
  fold_right (λ C P, Ordered Lex C ∧ P) True Cs ↔ Forall (Ordered Lex) Cs.
Proof.
  induction Cs as [|C Cs IH]; cbn [fold_right].
  - split; [constructor|done].
  - rewrite IH, Forall_cons. done.
Qed.

Lemma Sort_Ordered N : Ordered Lex (Sort Lex N).
Proof.
  induction N as [Opc Cs IH|Opc C IH|B F A IH|CK C IH|E]
    using Node_nested_ind; cbn [Sort Ordered]; try done.
  assert (Hmap : Forall (Ordered Lex) (map (Sort Lex) Cs))
    by (by apply Forall_map).
  destruct (negb (IsOpCommutativeAndAssociative Opc)) eqn:Hca; cbn [Ordered];
    rewrite Ordered_children; split.
  - intros H. by rewrite H in Hca.
  - done.
  - intros _. by apply llvm_sort_Sorted.
  - by rewrite (llvm_sort_Permutation _ _).
Qed.
End SortFacts.

Lemma FoldConstant_NumConsts Opc I c L L' :
  FoldConstant Opc I c L = Some L' → NumConsts L' = S (NumConsts L).
Proof.
  unfold FoldConstant. destruct (S (NumConsts L) =? 1)%nat.
  - by intros [= <-].
  - destruct Opc; try (by intros [= <-]).
    + destruct (smul_ov _ _); [by intros [= <-]|done].
    + destruct (sadd_ov _ _); [by intros [= <-]|done].
Qed.

Lemma ConstantFold_loop_unchanged call Opc steps : ∀ I V L st ex,
  (∀ C st o st', call C st = Some (o, st') → fold_unchanged_post C st o st') →
  ConstantFold_loop call Opc steps I V L st = Some ex →
  match ex with
  | LoopDone V' L' st' =>
      (Changed st = true → Changed st' = true)
      ∧ (Err st = true → Err st' = true)
      ∧ (Changed st' = false → Err st' = false →
         V' = V ∧ st' = st
         ∧ Forall (λ C, Folded C = true) (drop I V)
         ∧ (IsOpCommutativeAndAssociative Opc = true →
            NumConsts L'
            = (NumConsts L + length (ConstantLeaves (drop I V)))%nat))
  | LoopOverflow V' st' =>
      Err st' = true ∧ (Changed st = true → Changed st' = true)
  end.
Proof.
  induction steps as [|steps IH]; intros I V L st ex Hcall; [done|].
  cbn [ConstantFold_loop].
  destruct (I =? length V)%nat eqn:HIlen.
  { apply Nat.eqb_eq in HIlen. intros [= <-]. split_and!; try done.
    intros _ _. rewrite HIlen, drop_all. split_and!; try done. }
  destruct (V !! I) as [C|] eqn:HI; [|done].
  assert (Hnonleaf : IsConstantLeaf C = None →
    ∀ o st1, call C st = Some (o, st1) →
    ConstantFold_loop call Opc steps (S I) (apply_outcome I V o) L st1
      = Some ex →
    match ex with
    | LoopDone V' L' st' =>
        (Changed st = true → Changed st' = true)
        ∧ (Err st = true → Err st' = true)
        ∧ (Changed st' = false → Err st' = false →
           V' = V ∧ st' = st
           ∧ Forall (λ C, Folded C = true) (drop I V)
           ∧ (IsOpCommutativeAndAssociative Opc = true →
              NumConsts L'
              = (NumConsts L + length (ConstantLeaves (drop I V)))%nat))
    | LoopOverflow V' st' =>
        Err st' = true ∧ (Changed st = true → Changed st' = true)
    end).
  { intros HC o st1 Hc Hloop.
    destruct (Hcall _ _ _ _ Hc) as (Hm1 & He1 & Hu1).
    specialize (IH _ _ _ _ _ Hcall Hloop).
    destruct ex as [V' L' st'|V' st'].
    - destruct IH as (Hm2 & He2 & Hu2). split_and!; [auto|auto|].
      intros Hch He. destruct (Hu2 Hch He) as (-> & -> & HF & Hn).
      destruct (Hu1 Hch He) as (-> & -> & HFC).
      cbn [apply_outcome] in *. rewrite (list_insert_id _ _ _ HI) in *.
      rewrite (drop_S _ _ _ HI), ConstantLeaves_cons, HC.
      split_and!; try done. by constructor.
    - destruct IH as [? Hm2]. split; [done|auto]. }
  destruct C as [Opc' Cs|U C|B F A|K C|E].
  1-4: destruct (call _ st) as [[o st1]|] eqn:Hc; [|done];
       by apply (Hnonleaf eq_refl o st1).
  assert (Hskip : IsConstantLeaf (LeafExprNode E) = None ∨
                  IsOpCommutativeAndAssociative Opc = false →
    ConstantFold_loop call Opc steps (S I) V L st = Some ex →
    match ex with
    | LoopDone V' L' st' =>
        (Changed st = true → Changed st' = true)
        ∧ (Err st = true → Err st' = true)
        ∧ (Changed st' = false → Err st' = false →
           V' = V ∧ st' = st
           ∧ Forall (λ C, Folded C = true) (drop I V)
           ∧ (IsOpCommutativeAndAssociative Opc = true →
              NumConsts L'
              = (NumConsts L + length (ConstantLeaves (drop I V)))%nat))
    | LoopOverflow V' st' =>
        Err st' = true ∧ (Changed st = true → Changed st' = true)
    end).
  { intros Hor Hloop. specialize (IH _ _ _ _ _ Hcall Hloop).
    destruct ex as [V' L' st'|V' st']; [|done].
    destruct IH as (Hm2 & He2 & Hu2). split_and!; [done|done|].
    intros Hch He. destruct (Hu2 Hch He) as (-> & -> & HF & Hn).
    rewrite (drop_S _ _ _ HI), ConstantLeaves_cons.
    split_and!; try done; [by constructor|].
    intros Hca. destruct Hor as [->|Hor]; [by apply Hn|congruence]. }
  destruct (negb (IsOpCommutativeAndAssociative Opc)) eqn:Hca.
  { apply Hskip. right. by destruct (IsOpCommutativeAndAssociative Opc). }
  destruct (isIntegerConstantExpr E) as [v|] eqn:HE.
  2:{ apply Hskip. left. done. }
  destruct (FoldConstant Opc I v L) as [L1|] eqn:HL1.
  2:{ intros [= <-]. cbn. split; [done|auto]. }
  intros Hloop. specialize (IH _ _ _ _ _ Hcall Hloop).
  apply FoldConstant_NumConsts in HL1.
  destruct ex as [V' L' st'|V' st']; [|done].
  destruct IH as (Hm2 & He2 & Hu2). split_and!; [done|done|].
  intros Hch He. destruct (Hu2 Hch He) as (-> & -> & HF & Hn).
  rewrite (drop_S _ _ _ HI), ConstantLeaves_cons. cbn [IsConstantLeaf].
  rewrite HE. split_and!; try done; [by constructor|].
  intros Hca'. rewrite (Hn Hca'), HL1. cbn [length]. lia.
Qed.

Lemma Coalesce_in_place_Err fuel N P st o st' :
  Coalesce_in_place fuel N P st = Some (o, st') → Err st' = Err st.
Proof. intros H. by destruct (Coalesce_in_place_unchanged _ _ _ _ _ _ H) as [? _]. Qed.

Lemma ConstantFold_unchanged fuel : ∀ N P st o st',
  ConstantFold fuel N P st = Some (o, st') → fold_unchanged_post N st o st'.
Proof.
  induction fuel as [|fuel IH]; intros N P st o st'; [done|].
  cbn [ConstantFold]. destruct (Err st) eqn:He.
  { intros [= <- <-]. split_and!; try done. congruence. }
  destruct N as [Opc Cs|Opc C|B F A|CK C|E].
  - destruct (ConstantFold_loop _ _ _ _ _ _ _) as [ex|] eqn:Hloop; [|done].
    apply ConstantFold_loop_unchanged in Hloop; [|intros; by eapply IH].
    destruct ex as [V L' st1|V st1].
    + destruct Hloop as (Hm & He1 & Hu).
      destruct (NumConsts L' <=? 1)%nat eqn:HNum.
      * intros [= <- <-]. split_and!; [done|done|].
        intros Hch Her. destruct (Hu Hch Her) as (-> & -> & HF & Hn).
        split_and!; try done. cbn [Folded]. apply andb_true_iff. split.
        -- destruct (IsOpCommutativeAndAssociative Opc) eqn:Hca; [|done].
           cbn [negb orb]. rewrite (Hn eq_refl), drop_0 in HNum. done.
        -- rewrite drop_0 in HF. apply forallb_forall.
           intros x Hx%list_elem_of_In. rewrite Forall_forall in HF. auto.
      * destruct (_ && _).
        -- destruct (Coalesce 2 true _ P st1) as [[o' st2]|] eqn:Hco; [|done].
           intros [= <- <-].
           apply Coalesce_in_place_of, Coalesce_in_place_Err in Hco.
           unfold fold_unchanged_post. cbn. split_and!; try done.
           intros H. rewrite Hco. auto.
        -- intros [= <- <-]. unfold fold_unchanged_post. cbn.
           split_and!; done.
    + destruct Hloop as [He1 Hm]. intros [= <- <-].
      split_and!; [done|done|]. intros _ He2. congruence.
  - destruct (ConstantFold fuel C None st) as [[[C'|?] st1]|] eqn:Hc; try done.
    intros [= <- <-]. destruct (IH _ _ _ _ _ Hc) as (Hm1 & He1 & Hu1).
    split_and!; try done.
    intros Hch Her. destruct (Hu1 Hch Her) as ([= ->] & -> & HQ). done.
  - destruct (ConstantFold fuel B None st) as [[[C'|?] st1]|] eqn:Hc; try done.
    intros [= <- <-]. destruct (IH _ _ _ _ _ Hc) as (Hm1 & He1 & Hu1).
    split_and!; try done.
    intros Hch Her. destruct (Hu1 Hch Her) as ([= ->] & -> & HQ). done.
  - destruct (ConstantFold fuel C None st) as [[[C'|?] st1]|] eqn:Hc; try done.
    intros [= <- <-]. destruct (IH _ _ _ _ _ Hc) as (Hm1 & He1 & Hu1).
    split_and!; try done.
    intros Hch Her. destruct (Hu1 Hch Her) as ([= ->] & -> & HQ). done.
  - intros [= <- <-]. split_and!; done.
Qed.

(** The last round of [Normalize_in_place], when it ends without [Error]: [Coalesce_in_place]
    and [ConstantFold] have changed nothing, and the tree returned is the
    sorted one. *)
Lemma Normalize_while_in_place_last Lex iters : ∀ R E R',
  Normalize_while_in_place iters Lex R E = Some (R', false) →
  let st0 := {| Changed := false; Err := false |} in
  ∃ R0, R' = Sort Lex R0
        ∧ Coalesced None R0 = true
        ∧ Folded (Sort Lex R0) = true
        ∧ ConstantFold (S (Node_size (Sort Lex R0))) (Sort Lex R0) None st0
          = Some (Kept (Sort Lex R0), st0).
Proof.
  induction iters as [|iters IH]; intros R E R'; [done|].
  cbn [Normalize_while_in_place].
  destruct (Coalesce_in_place _ _ _ _) as [[[R1|?] st1]|] eqn:HC; try done.
  destruct (Err st1) eqn:He1; [done|].
  destruct (ConstantFold _ _ _ _) as [[[R3|?] st3]|] eqn:HF; try done.
  destruct (Err st3) eqn:He3; [done|].
  destruct (Changed st3) eqn:Hch3; [by apply IH|].
  intros [= <-].
  destruct (ConstantFold_unchanged _ _ _ _ _ _ HF) as (Hm & _ & Hu).
  destruct (Hu Hch3 He3) as ([= ->] & -> & HFolded).
  destruct (Coalesce_in_place_unchanged _ _ _ _ _ _ HC) as (HeC & _ & HuC).
  destruct (HuC Hch3) as ([= ->] & -> & HCo). cbn in He1.
  subst E. exists R. split_and!; [done|by apply HCo|done|done].
Qed.

(** On a tree in which nothing can coalesce, [Coalesce] changes nothing:
    no child pushes to a vector, so no vector moves. *)
Lemma Coalesce_loop_id call Heap r : ∀ I Capacity V st,
  (∀ C, C ∈ V → call C st = Some (Kept C, st)) →
  (I + r <= length V)%nat → (length V <= Capacity)%nat →
  Coalesce_loop call Heap r I Capacity V st = Some (V, st).
Proof.
  induction r as [|r IH]; intros I Capacity V st Hcall Hlen Hcap;
    cbn [Coalesce_loop]; [done|].
  destruct (V !! I) as [C|] eqn:HI.
  2:{ apply lookup_ge_None in HI. lia. }
  rewrite (Hcall C (list_elem_of_lookup_2 _ _ _ HI)).
  cbn [apply_outcome]. cbv zeta. rewrite (list_insert_id _ _ _ HI).
  rewrite (proj2 (Nat.ltb_ge _ _) Hcap). cbn [andb].
  rewrite (CapacityFor_id _ _ Hcap). apply IH; [done|lia|done].
Qed.

Lemma Coalesce_Coalesced fuel Spare : ∀ N P st,
  Coalesced P N = true → (Node_size N < fuel)%nat →
  Coalesce fuel Spare N P st = Some (Kept N, st).
Proof.
  induction fuel as [|fuel IH]; intros N P st HN Hsz; [lia|].
  cbn [Coalesce]. destruct (Err st); [done|].
  destruct N as [Opc Cs|Opc C|B F A|CK C|E]; cbn [Coalesced Node_size] in *.
  - apply andb_true_iff in HN as [Hcan HCs].
    rewrite forallb_forall in HCs. fold (list_size Cs) in Hsz. cbv zeta.
    rewrite Coalesce_loop_id; [by rewrite Hcan| |lia|apply CapacityFor_ge].
    intros C HC. apply IH; [by apply HCs, list_elem_of_In|].
    apply list_elem_of_lookup_1 in HC as [I HI].
    apply list_size_lookup in HI. lia.
  - rewrite IH; [done|done|lia].
  - rewrite IH; [done|done|lia].
  - rewrite IH; [done|done|lia].
  - done.
Qed.

Section NormalForms.
Variable Lex : Lexicographic.
Hypothesis Expr_order : TotalOrder (CompareExpr Lex).
Hypothesis Decl_order : TotalOrder (CompareDecl Lex).


End NormalForms.



(** [Canonicalize] is [Create] followed by [Normalize], when [Normalize]
    ends without [Error]. *)
Lemma Canonicalize_Some Lex E R :
  Canonicalize Lex E = Some R
  ↔ Normalize Lex (Create_root E) = Some {| Root := Some R; Error := false |}.
Proof.
  unfold Canonicalize.
  destruct (Normalize Lex (Create_root E)) as [[[R'|] []]|]; split;
    (done || by intros [= ->]).
Qed.

Lemma Canonicalize_in_place_Some Lex E R :
  Canonicalize_in_place Lex E = Some R
  ↔ Normalize_in_place Lex (Create_root E)
    = Some {| Root := Some R; Error := false |}.
Proof.
  unfold Canonicalize_in_place.
  destruct (Normalize_in_place Lex (Create_root E)) as [[[R'|] []]|]; split;
    (done || by intros [= ->]).
Qed.

(** ** Rearranged sums and products *)

Lemma ACEquiv_SumProductExpr E1 E2 :
  ACEquiv E1 E2 → SumProductExpr E1 = SumProductExpr E2.
Proof.
  induction 1 as [E|E1 E2 _ IH|E1 E2 E3 _ IH1 _ IH2|Opc a b Hca
                  |Opc a b c Hca|Opc a a' b b' Hca _ IHa _ IHb];
    cbn [SumProductExpr]; try congruence.
  - rewrite Hca. cbn [andb]. apply andb_comm.
  - rewrite Hca. cbn [andb]. by rewrite andb_assoc.
Qed.

Lemma Create_commutative Opc a b :
  IsOpCommutativeAndAssociative Opc = true →
  Create (BinaryOperator Opc a b)
  = BinaryOperatorNode Opc [Create a; Create b].
Proof.
  intros Hca. simp Create.
  assert (is_BO_Sub Opc = false) as -> by (by destruct Opc). done.
Qed.

Section Rearranged.
Variable Lex : Lexicographic.
Hypothesis Expr_order : TotalOrder (CompareExpr Lex).
Hypothesis Decl_order : TotalOrder (CompareDecl Lex).

Lemma nf_congr Opc A A' B B' :
  nf Lex A = nf Lex A' → nf Lex B = nf Lex B' →
  nf Lex (BinaryOperatorNode Opc [A; B])
  = nf Lex (BinaryOperatorNode Opc [A'; B']).
Proof.
  intros HA HB. rewrite !nf_Binary. unfold contribution. cbn [flat_map].
  by rewrite HA, HB.
Qed.

Lemma ACEquiv_nf E1 E2 :
  ACEquiv E1 E2 → nf Lex (Create E1) = nf Lex (Create E2).
Proof.
  induction 1 as [E|E1 E2 _ IH|E1 E2 E3 _ IH1 _ IH2|Opc a b Hca
                  |Opc a b c Hca|Opc a a' b b' Hca _ IHa _ IHb];
    try congruence.
  - rewrite !Create_commutative by done. by apply nf_comm.
  - rewrite !Create_commutative by done. by apply nf_assoc.
  - rewrite !Create_commutative by done. by apply nf_congr.
Qed.

Lemma Normalize_in_place_rearranged E1 E2 :
  SumProductExpr E1 = true → ACEquiv E1 E2 →
  ∃ R, Normalize_in_place Lex (Create_root E1)
       = Some {| Root := Some R; Error := false |}
       ∧ Normalize_in_place Lex (Create_root E2)
         = Some {| Root := Some R; Error := false |}.
Proof.
  intros H1 Heq.
  assert (H2 : SumProductExpr E2 = true)
    by (by rewrite <- (ACEquiv_SumProductExpr E1 E2)).
  eexists. rewrite <- !Canonicalize_in_place_Some.
  split; [by apply Canonicalize_in_place_SumProductExpr|].
  rewrite (Canonicalize_in_place_SumProductExpr Lex Expr_order Decl_order E2 H2).
  f_equal. apply nf_root_congr; [done..|]. symmetry. by apply ACEquiv_nf.
Qed.

(** X3: for two expressions built from [+] and [*] over variables that
    are rearrangements of each other by commutativity and associativity,
    at any depth: when [Normalize] returns on the trees that [Create]
    builds for them, it returns the same tree for both, without
    [Error]. *)
Theorem Normalize_rearranged E1 E2 T1 T2 :
  SumProductExpr E1 = true → ACEquiv E1 E2 →
  Normalize Lex (Create_root E1) = Some T1 →
  Normalize Lex (Create_root E2) = Some T2 →
  T1 = T2 ∧ Error T1 = false.
Proof.
  intros H1 Heq HN1%Normalize_in_place_of HN2%Normalize_in_place_of.
  destruct (Normalize_in_place_rearranged E1 E2 H1 Heq) as (R & HR1 & HR2).
  rewrite HR1 in HN1. rewrite HR2 in HN2.
  injection HN1 as <-. injection HN2 as <-. done.
Qed.
End Rearranged.

Lemma Normalize_rearranged_witness :
  let p := DeclRefExpr 0%nat in
  let i := DeclRefExpr 1%nat in
  let j := DeclRefExpr 2%nat in
  let E1 := BinaryOperator BO_Add p (BinaryOperator BO_Add i j) in
  let E2 := BinaryOperator BO_Add (BinaryOperator BO_Add j i) p in
  let T := {| Root := Some (BinaryOperatorNode BO_Add
                              [LeafExprNode p; LeafExprNode i; LeafExprNode j;
                               LeafExprNode (IntegerLiteral 0)]);
              Error := false |} in
  Normalize DefaultLex (Create_root E1) = Some T
  ∧ Normalize DefaultLex (Create_root E2) = Some T
  ∧ T = T ∧ Error T = false.
Proof.
  intros p i j E1 E2 T.
  assert (H1 : Normalize DefaultLex (Create_root E1) = Some T)
    by (vm_compute; reflexivity).
  assert (H2 : Normalize DefaultLex (Create_root E2) = Some T)
    by (vm_compute; reflexivity).
  split_and!; [exact H1|exact H2|..];
    apply (Normalize_rearranged DefaultLex DefaultLex_Expr_order
             DefaultLex_Decl_order E1 E2 T T); try done.
  all: eapply ACEquiv_trans;
    [apply ACEquiv_comm; reflexivity
    |apply ACEquiv_cong; [reflexivity| |apply ACEquiv_refl];
     apply ACEquiv_comm; reflexivity].
Defined.

(** ** Offsets between sums and products of variables *)

Section OffsetOfSums.
Variable Lex : Lexicographic.
Hypothesis Expr_order : TotalOrder (CompareExpr Lex).
Hypothesis Decl_order : TotalOrder (CompareDecl Lex).

Lemma GetDerefOffset_loop_ZeroOrOperand Opc Cs1 : ∀ Cs2 Offset,
  Forall ZeroOrOperand Cs1 → Forall ZeroOrOperand Cs2 →
  length Cs1 = length Cs2 → Cs1 ≠ Cs2 →
  GetDerefOffset_loop Lex Opc Cs1 Cs2 Offset = None.
Proof.
  induction Cs1 as [|C1 Cs1 IH]; intros [|C2 Cs2] Offset H1 H2 Hlen Hne;
    try done.
  apply Forall_cons in H1 as [HC1 H1]. apply Forall_cons in H2 as [HC2 H2].
  cbn [GetDerefOffset_loop].
  destruct (Compare Lex C1 C2) eqn:Hcmp; cbn [Result_eqb].
  2:{ apply (Compare_eq Lex Expr_order Decl_order) in Hcmp as ->.
      apply IH; try done; [by injection Hlen|]. by intros ->. }
  all: assert (HneC : C1 ≠ C2)
         by (intros ->; by rewrite (Compare_refl Lex Expr_order Decl_order)
                             in Hcmp).
  all: destruct HC1 as [HC1| ->]; [|destruct HC2 as [HC2| ->]; [|done]].
  all: try (destruct C1 as [| | | |E1], C2 as [| | | |E2]; try done;
            cbn [IsConstantLeaf] in HC1; by rewrite HC1).
  all: destruct C2 as [| | | |E2]; try done; cbn [IsConstantLeaf] in HC2;
       unfold ZeroLiteral; by rewrite isIntegerConstantExpr_Zero, HC2.
Qed.

Lemma nf_root_ZeroOrOperand E :
  SumProductExpr E = true →
  ∃ Cs, nf Lex (BinaryOperatorNode BO_Add [LeafExprNode ZeroLiteral; Create E])
        = BinaryOperatorNode BO_Add Cs
        ∧ Forall ZeroOrOperand Cs.
Proof.
  intros HE. rewrite nf_Binary. eexists. split; [done|].
  rewrite (llvm_sort_Permutation _ _). unfold contribution.
  cbn [flat_map]. rewrite app_nil_r. apply Forall_app. split.
  - cbn [nf absorb]. constructor; [by right|constructor].
  - eapply Forall_impl.
    + apply absorb_SumProduct, nf_SumProduct, Create_SumProduct, HE.
    + intros C HC. left. by apply SumProduct_not_constant.
Qed.

Lemma GetExprDerefOffset_in_place_of_sums U D :
  SumProductExpr U = true → SumProductExpr D = true →
  (Canonicalize_in_place Lex U = Canonicalize_in_place Lex D →
   GetExprDerefOffset_in_place Lex U D = Some 0)
  ∧ (Canonicalize_in_place Lex U ≠ Canonicalize_in_place Lex D →
     GetExprDerefOffset_in_place Lex U D = None).
Proof.
  intros HU HD. unfold GetExprDerefOffset_in_place.
  rewrite !Canonicalize_in_place_SumProductExpr by done.
  destruct (nf_root_ZeroOrOperand U HU) as (Cs1 & -> & H1).
  destruct (nf_root_ZeroOrOperand D HD) as (Cs2 & -> & H2).
  split.
  - intros [= ->]. by apply GetDerefOffset_same.
  - intros Hne. unfold GetDerefOffset, BinaryOperatorKind_eqb.
    cbn [BinaryOpcode]. rewrite Z.eqb_refl. cbn [negb].
    destruct (Nat.eqb_spec (length Cs1) (length Cs2)) as [Hlen|Hlen];
      cbn [negb]; [|done].
    apply GetDerefOffset_loop_ZeroOrOperand; try done. by intros ->.
Qed.

(** X4: for a declared upper bound [U] and a dereferenced expression [D]
    built from [+] and [*] over variables, with the trees [RU] and [RD]
    that [Normalize] returns on what [Create] builds for them:
    [GetDerefOffset] entered with offset 0 returns the offset 0 when the
    trees are the same, and returns [false] when they are not. *)
Theorem GetDerefOffset_of_sums_of_variables U D RU RD :
  SumProductExpr U = true → SumProductExpr D = true →
  Normalize Lex (Create_root U) = Some {| Root := Some RU; Error := false |} →
  Normalize Lex (Create_root D) = Some {| Root := Some RD; Error := false |} →
  (RU = RD → GetDerefOffset Lex RU RD 0 = Some 0)
  ∧ (RU ≠ RD → GetDerefOffset Lex RU RD 0 = None).
Proof.
  intros HU HD HRU%Normalize_in_place_of%Canonicalize_in_place_Some
    HRD%Normalize_in_place_of%Canonicalize_in_place_Some.
  destruct (GetExprDerefOffset_in_place_of_sums U D HU HD) as [Hsame Hdiff].
  unfold GetExprDerefOffset_in_place in *. rewrite HRU, HRD in *. split.
  - intros ->. by apply Hsame.
  - intros Hne. apply Hdiff. by intros [= ?].
Qed.
End OffsetOfSums.

Lemma GetDerefOffset_of_sums_of_variables_witness :
  let p := DeclRefExpr 0%nat in
  let i := DeclRefExpr 1%nat in
  let j := DeclRefExpr 2%nat in
  let U := BinaryOperator BO_Add p (BinaryOperator BO_Mul i j) in
  let D := BinaryOperator BO_Add (BinaryOperator BO_Add p i) j in
  let RU := BinaryOperatorNode BO_Add
              [BinaryOperatorNode BO_Mul [LeafExprNode i; LeafExprNode j];
               LeafExprNode p; LeafExprNode (IntegerLiteral 0)] in
  let RD := BinaryOperatorNode BO_Add
              [LeafExprNode p; LeafExprNode i; LeafExprNode j;
               LeafExprNode (IntegerLiteral 0)] in
  Normalize DefaultLex (Create_root U)
  = Some {| Root := Some RU; Error := false |}
  ∧ Normalize DefaultLex (Create_root D)
    = Some {| Root := Some RD; Error := false |}
  ∧ (RU = RD → GetDerefOffset DefaultLex RU RD 0 = Some 0)
  ∧ (RU ≠ RD → GetDerefOffset DefaultLex RU RD 0 = None).
Proof.
  intros p i j U D RU RD.
  assert (HU : Normalize DefaultLex (Create_root U)
               = Some {| Root := Some RU; Error := false |})
    by (vm_compute; reflexivity).
  assert (HD : Normalize DefaultLex (Create_root D)
               = Some {| Root := Some RD; Error := false |})
    by (vm_compute; reflexivity).
  split; [exact HU|]. split; [exact HD|].
  exact (GetDerefOffset_of_sums_of_variables DefaultLex
           DefaultLex_Expr_order DefaultLex_Decl_order U D RU RD
           eq_refl eq_refl HU HD).
Defined.

(** ** The value of a canonical tree *)

Lemma OpValue_app Opc Vs1 Vs2 :
  OpValue Opc (Vs1 ++ Vs2)
  = OpValue Opc [OpValue Opc Vs1; OpValue Opc Vs2].
Proof.
  destruct Opc; cbn; try done.
  - induction Vs1 as [|v Vs1 IH]; cbn; [lia|]. rewrite IH. cbn. lia.
  - induction Vs1 as [|v Vs1 IH]; cbn; [lia|]. rewrite IH. cbn. lia.
Qed.

Lemma OpValue_cons Opc v Vs :
  OpValue Opc (v :: Vs) = OpValue Opc [v; OpValue Opc Vs].
Proof. destruct Opc; cbn; try done; lia. Qed.

Lemma OpValue_Permutation Opc Vs Vs' :
  Vs ≡ₚ Vs' → OpValue Opc Vs = OpValue Opc Vs'.
Proof.
  destruct Opc; try done; induction 1; cbn in *; lia.
Qed.

Lemma OpValue_singleton Opc v :
  IsOpCommutativeAndAssociative Opc = true → OpValue Opc [v] = v.
Proof. destruct Opc; try done; cbn; lia. Qed.

Lemma OpValue_not_commutative Opc Vs :
  IsOpCommutativeAndAssociative Opc = false → OpValue Opc Vs = 0.
Proof. by destruct Opc. Qed.

Section Values.
Variable Lex : Lexicographic.
Hypothesis Expr_order : TotalOrder (CompareExpr Lex).
Hypothesis Decl_order : TotalOrder (CompareDecl Lex).
Variable ρ : VarId → Z.

Lemma NodeValue_absorb Opc N :
  IsOpCommutativeAndAssociative Opc = true →
  OpValue Opc (map (NodeValue ρ) (absorb Opc N)) = NodeValue ρ N.
Proof.
  intros Hca. destruct N as [Opc' Cs| | | |E]; cbn [absorb];
    try (by apply OpValue_singleton).
  destruct (BinaryOperatorKind_eqb Opc' Opc) eqn:Heq.
  - by apply BinaryOperatorKind_eqb_eq in Heq as ->.
  - by apply OpValue_singleton.
Qed.

Lemma NodeValue_nf N : NodeValue ρ (nf Lex N) = NodeValue ρ N.
Proof.
  induction N as [Opc Cs IH| | | |E] using Node_nested_ind; try done.
  rewrite nf_Binary. cbn [NodeValue].
  destruct (IsOpCommutativeAndAssociative Opc) eqn:Hca.
  2:{ by rewrite !OpValue_not_commutative. }
  rewrite (OpValue_Permutation Opc _ (map (NodeValue ρ) (contribution Lex Opc Cs)))
    by (by rewrite (llvm_sort_Permutation _ _)).
  induction IH as [|C Cs HC _ IHCs]; [done|].
  rewrite contribution_cons, map_app, OpValue_app, NodeValue_absorb, HC, IHCs
    by done.
  cbn [map]. by rewrite <- OpValue_cons.
Qed.

Lemma NodeValue_Create E :
  SumProductExpr E = true → NodeValue ρ (Create E) = ExprValue ρ E.
Proof.
  induction E as [V|v|Opc L IHL R IHR| | | | |]; try done.
  cbn [SumProductExpr]. rewrite !andb_true_iff. intros [[Hca HL] HR].
  rewrite Create_commutative by done. cbn [NodeValue map].
  rewrite IHL, IHR by done. destruct Opc; try done; cbn; lia.
Qed.

(** The canonical tree of an expression built from [+] and [*] over
    variables has the value of the expression. *)
Lemma NodeValue_Canonicalize_in_place E T :
  SumProductExpr E = true → Canonicalize_in_place Lex E = Some T →
  NodeValue ρ T = ExprValue ρ E.
Proof.
  intros HE. rewrite Canonicalize_in_place_SumProductExpr by done. intros HT.
  assert (T = nf Lex (BinaryOperatorNode BO_Add
                        [LeafExprNode ZeroLiteral; Create E])) as ->
    by congruence.
  rewrite NodeValue_nf. cbn. rewrite NodeValue_Create by done. lia.
Qed.
End Values.

(** X5: the canonical trees are sound on expressions built from [+] and
    [*] over variables: two of them on which [Create] and [Normalize]
    return the same tree, without [Error], have the same value in the
    integers for every value of the variables. *)
Theorem Normalize_same_tree_same_value Lex E1 E2 (T : PreorderAST) :
  TotalOrder (CompareExpr Lex) → TotalOrder (CompareDecl Lex) →
  SumProductExpr E1 = true → SumProductExpr E2 = true →
  Normalize Lex (Create_root E1) = Some T →
  Normalize Lex (Create_root E2) = Some T →
  Error T = false →
  ∀ ρ, ExprValue ρ E1 = ExprValue ρ E2.
Proof.
  intros HE HD H1 H2 HT1%Normalize_in_place_of HT2%Normalize_in_place_of
    HErr ρ.
  destruct T as [[R|] Er]; cbn in HErr; subst Er.
  2:{ unfold Normalize_in_place in HT1.
      destruct (Root (Create_root E1)); [|done].
      by destruct (Normalize_while_in_place _ _ _ _) as [[? ?]|]. }
  apply Canonicalize_in_place_Some in HT1, HT2.
  rewrite <- (NodeValue_Canonicalize_in_place Lex HE HD ρ E1 R H1 HT1).
  exact (NodeValue_Canonicalize_in_place Lex HE HD ρ E2 R H2 HT2).
Qed.

Lemma Normalize_same_tree_same_value_witness :
  let p := DeclRefExpr 0%nat in
  let i := DeclRefExpr 1%nat in
  let j := DeclRefExpr 2%nat in
  let E1 := BinaryOperator BO_Add p (BinaryOperator BO_Mul i j) in
  let E2 := BinaryOperator BO_Add (BinaryOperator BO_Mul j i) p in
  let T := {| Root := Some (BinaryOperatorNode BO_Add
                [BinaryOperatorNode BO_Mul [LeafExprNode i; LeafExprNode j];
                 LeafExprNode p; LeafExprNode (IntegerLiteral 0)]);
              Error := false |} in
  Normalize DefaultLex (Create_root E1) = Some T
  ∧ Normalize DefaultLex (Create_root E2) = Some T
  ∧ ∀ ρ, ExprValue ρ E1 = ExprValue ρ E2.
Proof.
  intros p i j E1 E2 T.
  assert (H1 : Normalize DefaultLex (Create_root E1) = Some T)
    by (vm_compute; reflexivity).
  assert (H2 : Normalize DefaultLex (Create_root E2) = Some T)
    by (vm_compute; reflexivity).
  split; [exact H1|]. split; [exact H2|].
  exact (Normalize_same_tree_same_value DefaultLex E1 E2 T
           DefaultLex_Expr_order DefaultLex_Decl_order eq_refl eq_refl
           H1 H2 eq_refl).
Defined.

(** ** The offset in the other direction *)

Section OffsetSwap.
Variable Lex : Lexicographic.
Hypothesis Expr_order : TotalOrder (CompareExpr Lex).
Hypothesis Decl_order : TotalOrder (CompareDecl Lex).

(** Once the offset is not 0 no further pair of constants may differ: the
    offset is final. *)
Lemma GetDerefOffset_loop_final Opc Cs1 : ∀ Cs2 Offset k,
  GetDerefOffset_loop Lex Opc Cs1 Cs2 Offset = Some k →
  Offset ≠ 0 → k = Offset.
Proof.
  induction Cs1 as [|C1 Cs1 IH]; intros [|C2 Cs2] Offset k;
    cbn [GetDerefOffset_loop]; try (by intros [= ->]).
  destruct (Result_eqb _ _); [by apply IH|].
  destruct C1 as [| | | |E1]; try done. destruct C2 as [| | | |E2]; try done.
  destruct (isIntegerConstantExpr E1); [|done].
  destruct (isIntegerConstantExpr E2); [|done].
  destruct (negb _); [done|].
  destruct (Offset =? 0) eqn:H0; cbn [negb]; [|done].
  apply Z.eqb_eq in H0. done.
Qed.

Lemma Compare_Equal_sym C1 C2 :
  Result_eqb (Compare Lex C1 C2) Equal = Result_eqb (Compare Lex C2 C1) Equal.
Proof.
  rewrite (Compare_flip Lex Expr_order Decl_order C1 C2).
  by destruct (Compare Lex C1 C2).
Qed.

Lemma ssub_ov_swap a b v :
  ssub_ov a b = Some v → v ≠ INT_MIN → ssub_ov b a = Some (- v).
Proof.
  unfold ssub_ov, checked.
  destruct (InIntRange (a - b)) eqn:H1; [|done]. intros [= <-] Hne.
  apply InIntRange_spec in H1.
  assert (H2 : InIntRange (b - a) = true).
  { apply InIntRange_spec. unfold INT_MIN, INT_MAX, IntWidth in *. lia. }
  rewrite H2. f_equal. lia.
Qed.

Lemma GetDerefOffset_loop_swap Opc Cs1 : ∀ Cs2 Offset k,
  GetDerefOffset_loop Lex Opc Cs1 Cs2 Offset = Some k →
  k ≠ INT_MIN →
  GetDerefOffset_loop Lex Opc Cs2 Cs1 (- Offset) = Some (- k).
Proof.
  induction Cs1 as [|C1 Cs1 IH]; intros [|C2 Cs2] Offset k;
    cbn [GetDerefOffset_loop]; try (by intros [= ->]).
  rewrite <- Compare_Equal_sym.
  destruct (Result_eqb _ _); [by apply IH|].
  destruct C1 as [| | | |E1]; try done. destruct C2 as [| | | |E2]; try done.
  destruct (isIntegerConstantExpr E1) as [u|]; [|done].
  destruct (isIntegerConstantExpr E2) as [d|]; [|done].
  destruct (negb _); [done|].
  destruct (Offset =? 0) eqn:H0; cbn [negb]; [|done].
  apply Z.eqb_eq in H0 as ->. cbn [Z.opp Z.eqb negb].
  destruct (ssub_ov d u) as [v|] eqn:Hv; [|done].
  intros Hloop Hk.
  assert (Hv' : v ≠ INT_MIN).
  { intros ->. apply GetDerefOffset_loop_final in Hloop; [done|].
    unfold INT_MIN, IntWidth. lia. }
  rewrite (ssub_ov_swap d u v Hv Hv'). by apply IH.
Qed.

(** X6: when [GetDerefOffset] finds the offset [k] of [D] from [U], it
    finds the offset [-k] of [U] from [D], unless [-k] is not an [int]
    ([k] is [INT_MIN]). *)
Theorem GetDerefOffset_swap U D k :
  GetDerefOffset Lex U D 0 = Some k → k ≠ INT_MIN →
  GetDerefOffset Lex D U 0 = Some (- k).
Proof.
  unfold GetDerefOffset.
  destruct U as [Opc1 Cs1| | | |]; try done.
  destruct D as [Opc2 Cs2| | | |]; try done.
  unfold BinaryOperatorKind_eqb. rewrite (Z.eqb_sym (BinaryOpcode Opc2)).
  destruct (BinaryOpcode Opc1 =? BinaryOpcode Opc2) eqn:Hop; cbn [negb];
    [|done].
  apply Z.eqb_eq, BinaryOpcode_inj in Hop as ->.
  rewrite (Nat.eqb_sym (length Cs2)).
  destruct (length Cs1 =? length Cs2)%nat; cbn [negb]; [|done].
  intros H Hk. by apply (GetDerefOffset_loop_swap _ _ _ 0 k).
Qed.
End OffsetSwap.

Lemma GetDerefOffset_swap_witness :
  let U := BinaryOperatorNode BO_Add
             [LeafExprNode (DeclRefExpr 0%nat);
              LeafExprNode (IntegerLiteral 2)] in
  let D := BinaryOperatorNode BO_Add
             [LeafExprNode (DeclRefExpr 0%nat);
              LeafExprNode (IntegerLiteral 5)] in
  GetDerefOffset DefaultLex U D 0 = Some 3
  ∧ GetDerefOffset DefaultLex D U 0 = Some (- 3).
Proof.
  intros U D.
  assert (H : GetDerefOffset DefaultLex U D 0 = Some 3)
    by (vm_compute; reflexivity).
  split; [exact H|].
  apply (GetDerefOffset_swap DefaultLex DefaultLex_Expr_order
           DefaultLex_Decl_order U D 3 H).
  unfold INT_MIN, IntWidth. lia.
Defined.

(** ** Offsets between a variable plus constants *)

Lemma ssub_ov_self c : INT_MIN <= c <= INT_MAX → ssub_ov c c = Some 0.
Proof.
  intros _. unfold ssub_ov, checked. by rewrite Z.sub_diag.
Qed.

Lemma GetDerefOffset_variable_plus_constants x c1 c2 :
  INT_MIN <= c1 <= INT_MAX → INT_MIN <= c2 <= INT_MAX →
  GetDerefOffset DefaultLex
    (BinaryOperatorNode BO_Add
       [LeafExprNode (DeclRefExpr x); LeafExprNode (IntegerLiteral c1)])
    (BinaryOperatorNode BO_Add
       [LeafExprNode (DeclRefExpr x); LeafExprNode (IntegerLiteral c2)]) 0
  = ssub_ov c2 c1.
Proof.
  intros H1 H2. unfold GetDerefOffset. cbn [BinaryOperatorKind_eqb length].
  cbn [BinaryOperatorKind_eqb BinaryOpcode Z.eqb Pos.eqb Nat.eqb negb].
  cbn [GetDerefOffset_loop].
  rewrite (Compare_refl DefaultLex DefaultLex_Expr_order DefaultLex_Decl_order).
  cbn [Result_eqb]. rewrite Compare_leaf_lit_lit.
  rewrite !isIntegerConstantExpr_literal by done.
  destruct (CompareZ_cases c1 c2) as [(? & -> & _)|[(-> & ->)|(? & -> & _)]];
    cbn [Result_eqb].
  - by destruct (ssub_ov c2 c1).
  - by rewrite ssub_ov_self.
  - by destruct (ssub_ov c2 c1).
Qed.

(** X7: for a variable [p] and [int] constants [c1] and [c2], [Create] and
    [Normalize] give [p + c1] and [p + c2] trees between which
    [GetDerefOffset] finds the offset [c2 - c1]; when [c2 - c1] is not an
    [int] it returns [false]. *)
Theorem GetDerefOffset_between_constant_offsets (p : VarId) (c1 c2 : Z) :
  INT_MIN <= c1 <= INT_MAX → INT_MIN <= c2 <= INT_MAX →
  ∃ RU RD,
    Normalize DefaultLex
      (Create_root (BinaryOperator BO_Add (DeclRefExpr p) (IntegerLiteral c1)))
    = Some {| Root := Some RU; Error := false |}
    ∧ Normalize DefaultLex
        (Create_root (BinaryOperator BO_Add (DeclRefExpr p) (IntegerLiteral c2)))
      = Some {| Root := Some RD; Error := false |}
    ∧ GetDerefOffset DefaultLex RU RD 0
      = if (INT_MIN <=? c2 - c1) && (c2 - c1 <=? INT_MAX)
        then Some (c2 - c1) else None.
Proof.
  intros H1 H2. eexists _, _. rewrite <- !Canonicalize_Some.
  split_and!; [by apply Canonicalize_variable_plus_constant..|].
  by rewrite GetDerefOffset_variable_plus_constants.
Qed.

Lemma GetDerefOffset_between_constant_offsets_witness :
  ∃ RU RD,
    Normalize DefaultLex
      (Create_root (BinaryOperator BO_Add (DeclRefExpr 0%nat)
                      (IntegerLiteral (- 2))))
    = Some {| Root := Some RU; Error := false |}
    ∧ Normalize DefaultLex
        (Create_root (BinaryOperator BO_Add (DeclRefExpr 0%nat)
                        (IntegerLiteral INT_MAX)))
      = Some {| Root := Some RD; Error := false |}
    ∧ GetDerefOffset DefaultLex RU RD 0
      = if (INT_MIN <=? INT_MAX - - 2) && (INT_MAX - - 2 <=? INT_MAX)
        then Some (INT_MAX - - 2) else None.
Proof.
  apply (GetDerefOffset_between_constant_offsets 0%nat (- 2) INT_MAX).
  - unfold INT_MIN, INT_MAX, IntWidth. lia.
  - unfold INT_MIN, INT_MAX, IntWidth. lia.
Defined.

(** ** Constant folding of the leaves of a node *)

Lemma ConstantFold_loop_leaves call Opc steps : ∀ I V L st,
  IsOpCommutativeAndAssociative Opc = true →
  Forall IsLeaf V → (length V - I < steps)%nat → (I <= length V)%nat →
  ConstantFold_loop call Opc steps I V L st
  = Some match FoldLeaves Opc I (drop I V) L with
         | Some L' => LoopDone V L' st
         | None => LoopOverflow V (SetError st)
         end.
Proof.
  intros I V L st Hca HV. revert I L.
  induction steps as [|steps IH]; intros I L Hst HI; [lia|].
  cbn [ConstantFold_loop].
  destruct (Nat.eqb_spec I (length V)) as [->|Hne].
  { by rewrite drop_all. }
  destruct (V !! I) as [C|] eqn:HC.
  2:{ apply lookup_ge_None in HC. lia. }
  rewrite (drop_S _ _ _ HC). cbn [FoldLeaves].
  destruct (Forall_lookup_1 _ _ _ _ HV HC) as [E ->].
  rewrite Hca. cbn [negb IsConstantLeaf].
  destruct (isIntegerConstantExpr E) as [c|].
  - destruct (FoldConstant Opc I c L) as [L'|]; [|done].
    apply IH; lia.
  - apply IH; lia.
Qed.

Lemma FoldLeaves_operands Opc Operands : ∀ I Suffix L,
  Forall (λ C, IsOperandLeaf C = true) Operands →
  FoldLeaves Opc I (Operands ++ Suffix) L
  = FoldLeaves Opc (I + length Operands) Suffix L.
Proof.
  induction Operands as [|C Cs IH]; intros I Suffix L H.
  { cbn. by rewrite Nat.add_0_r. }
  apply Forall_cons in H as [HC H]. cbn [app FoldLeaves length].
  destruct C as [| | | |E]; try done. cbn [IsOperandLeaf IsConstantLeaf] in *.
  destruct (isIntegerConstantExpr E); [done|].
  rewrite IH by done. f_equal. lia.
Qed.

(** Over constants that follow the first one. *)
Lemma FoldLeaves_constants Opc Start Consts Suffix : ∀ I cs n Acc,
  IsOpCommutativeAndAssociative Opc = true →
  Forall2 IsConstantLeafOf Consts cs →
  FoldLeaves Opc I (Consts ++ Suffix)
    {| ConstStartIdx := Start; NumConsts := S n; ConstFoldedVal := Acc |}
  = match CheckedFold Opc Acc cs with
    | Some v => FoldLeaves Opc (I + length Consts) Suffix
                  {| ConstStartIdx := Start;
                     NumConsts := S n + length Consts;
                     ConstFoldedVal := v |}
    | None => None
    end.
Proof.
  intros I cs n Acc Hca H. revert I n Acc.
  induction H as [|C c Consts cs HC _ IH]; intros I n Acc.
  { cbn. by rewrite !Nat.add_0_r. }
  cbn [app FoldLeaves CheckedFold]. rewrite HC.
  unfold FoldConstant. cbn [NumConsts ConstFoldedVal ConstStartIdx Nat.eqb].
  destruct Opc; try done.
  - destruct (smul_ov Acc c) as [v|]; [|done].
    rewrite IH. cbn [length]. destruct (CheckedFold _ _ _); [|done].
    clear IH.
    replace (S I + length Consts)%nat with (I + S (length Consts))%nat by lia.
    replace (S (S n) + length Consts)%nat
      with (S n + S (length Consts))%nat by lia.
    done.
  - destruct (sadd_ov Acc c) as [v|]; [|done].
    rewrite IH. cbn [length]. destruct (CheckedFold _ _ _); [|done].
    clear IH.
    replace (S I + length Consts)%nat with (I + S (length Consts))%nat by lia.
    replace (S (S n) + length Consts)%nat
      with (S n + S (length Consts))%nat by lia.
    done.
Qed.

Lemma CheckedFold_exact Opc Acc cs v :
  IsOpCommutativeAndAssociative Opc = true →
  CheckedFold Opc Acc cs = Some v → v = OpValue Opc (Acc :: cs).
Proof.
  intros Hca. revert Acc. induction cs as [|c cs IH]; intros Acc.
  { cbn. intros [= <-]. destruct Opc; try done; cbn; lia. }
  cbn [CheckedFold]. destruct Opc; try done.
  - unfold smul_ov, checked. destruct (InIntRange _); [|done].
    intros ->%IH. cbn. lia.
  - unfold sadd_ov, checked. destruct (InIntRange _); [|done].
    intros ->%IH. cbn. lia.
Qed.

Lemma CheckedFold_range Opc Acc cs v :
  IsOpCommutativeAndAssociative Opc = true → cs ≠ [] →
  CheckedFold Opc Acc cs = Some v → INT_MIN <= v <= INT_MAX.
Proof.
  intros Hca. revert Acc. induction cs as [|c cs IH]; intros Acc Hne; [done|].
  cbn [CheckedFold].
  assert (Hstep : ∀ w, InIntRange w = true →
            CheckedFold Opc w cs = Some v → INT_MIN <= v <= INT_MAX).
  { intros w Hw. destruct cs as [|c' cs'].
    - cbn. intros [= <-]. by apply InIntRange_spec.
    - by apply IH. }
  destruct Opc; try done.
  - unfold smul_ov, checked. destruct (InIntRange _) eqn:Hr; [|done].
    by apply Hstep.
  - unfold sadd_ov, checked. destruct (InIntRange _) eqn:Hr; [|done].
    by apply Hstep.
Qed.

(** X8: [ConstantFold] on a [+] or [*] node whose children are leaves,
    with its integer constants next to each other (two or more, after the
    operands [Pre] and before the operands [Post]): the constants are
    replaced by one literal, put last, whose value is their sum or product
    in the integers, and [Changed] is set; the operands are kept, in their
    order.  When an intermediate result of the folding is not an [int],
    the node is left as it is and [Error] is set. *)
Theorem ConstantFold_adjacent_constants fuel Opc Pre K1 c1 Consts cs Post
    P st :
  IsOpCommutativeAndAssociative Opc = true → Err st = false →
  Forall (λ C, IsOperandLeaf C = true) Pre →
  Forall (λ C, IsOperandLeaf C = true) Post →
  IsConstantLeafOf K1 c1 → Forall2 IsConstantLeafOf Consts cs →
  Consts ≠ [] →
  (Node_size (BinaryOperatorNode Opc (Pre ++ K1 :: Consts ++ Post)) < fuel)%nat →
  ConstantFold fuel (BinaryOperatorNode Opc (Pre ++ K1 :: Consts ++ Post)) P st
  = match CheckedFold Opc c1 cs with
    | None =>
        Some (Kept (BinaryOperatorNode Opc (Pre ++ K1 :: Consts ++ Post)),
              SetError st)
    | Some v =>
        if (length (Pre ++ Post) =? 0)%nat
           && CanCoalesce Opc [LeafExprNode (IntegerLiteral v)] P
        then Some (Merged [LeafExprNode (IntegerLiteral v)], SetChanged st)
        else Some (Kept (BinaryOperatorNode Opc
                           (Pre ++ Post ++ [LeafExprNode (IntegerLiteral v)])),
                   SetChanged st)
    end
  ∧ ∀ v, CheckedFold Opc c1 cs = Some v →
         v = OpValue Opc (c1 :: cs) ∧ INT_MIN <= v <= INT_MAX.
Proof.
  intros Hca He HPre HPost HK1 HConsts Hne Hsz. split.
  2:{ intros v Hv. split; [by apply CheckedFold_exact|].
      apply (CheckedFold_range Opc c1 cs v Hca); [|done].
      intros ->. by inversion HConsts. }
  set (V := Pre ++ K1 :: Consts ++ Post) in *.
  destruct fuel as [|fuel]; [lia|]. cbn [ConstantFold]. rewrite He.
  assert (HV : Forall IsLeaf V).
  { assert (Hop : ∀ L, Forall (λ C, IsOperandLeaf C = true) L →
                       Forall IsLeaf L).
    { intros L HL. eapply Forall_impl; [exact HL|].
      intros [| | | |E] HC; try done. by exists E. }
    assert (Hco : ∀ C c, IsConstantLeafOf C c → IsLeaf C).
    { intros [| | | |E] c HC; try done. by exists E. }
    unfold V. apply Forall_app. split; [by apply Hop|].
    constructor; [by eapply Hco|]. apply Forall_app. split; [|by apply Hop].
    clear -HConsts Hco. induction HConsts; constructor; eauto. }
  rewrite Node_size_Binary in Hsz. pose proof (length_le_list_size V) as Hlen.
  rewrite ConstantFold_loop_leaves by (try done; lia).
  rewrite drop_0. unfold V at 1.
  rewrite FoldLeaves_operands by done. cbn [FoldLeaves Nat.add].
  rewrite HK1. unfold FoldConstant at 1. cbn [NumConsts Nat.eqb].
  rewrite (FoldLeaves_constants Opc _ Consts Post _ cs) by done.
  destruct (CheckedFold Opc c1 cs) as [v|]; [|done].
  rewrite <- (app_nil_r Post) at 1. rewrite FoldLeaves_operands by done.
  cbn [FoldLeaves NumConsts ConstStartIdx ConstFoldedVal].
  assert (HNum : (1 + length Consts <=? 1)%nat = false).
  { apply Nat.leb_gt. destruct Consts; [done|]. cbn [length]. lia. }
  rewrite HNum.
  assert (Htake : take (length Pre) V = Pre)
    by (unfold V; by rewrite take_app_length).
  assert (Hdrop : drop (length Pre + (1 + length Consts)) V = Post).
  { unfold V. rewrite drop_app_add.
    change (K1 :: Consts ++ Post) with ((K1 :: Consts) ++ Post).
    by apply drop_app_length'. }
  rewrite Htake, Hdrop, <- app_assoc.
  assert (Hlen1 : (length (Pre ++ Post ++ [LeafExprNode (IntegerLiteral v)])
                   =? 1)%nat = (length (Pre ++ Post) =? 0)%nat).
  { rewrite app_assoc, (length_app (Pre ++ Post)). cbn [length].
    destruct (length (Pre ++ Post)); [done|]. cbn.
    by rewrite Nat.add_1_r. }
  rewrite Hlen1.
  destruct (length (Pre ++ Post) =? 0)%nat eqn:H0; cbn [andb]; [|done].
  apply Nat.eqb_eq, length_zero_iff_nil, app_eq_nil in H0 as [-> ->].
  cbn [app].
  destruct (CanCoalesce Opc [LeafExprNode (IntegerLiteral v)] P) eqn:Hcan;
    [|done].
  rewrite Coalesce_single_leaf by done. by rewrite He.
Qed.

Lemma ConstantFold_adjacent_constants_witness :
  let x := LeafExprNode (DeclRefExpr 0%nat) in
  let y := LeafExprNode (OtherExpr 0%nat) in
  let k c := LeafExprNode (IntegerLiteral c) in
  let st := {| Changed := false; Err := false |} in
  ConstantFold 10 (BinaryOperatorNode BO_Add ([x] ++ k 2 :: [k 3; k 4] ++ [y]))
    None st
  = match CheckedFold BO_Add 2 [3; 4] with
    | None =>
        Some (Kept (BinaryOperatorNode BO_Add
                      ([x] ++ k 2 :: [k 3; k 4] ++ [y])),
              SetError st)
    | Some v =>
        if (length ([x] ++ [y]) =? 0)%nat
           && CanCoalesce BO_Add [LeafExprNode (IntegerLiteral v)] None
        then Some (Merged [LeafExprNode (IntegerLiteral v)], SetChanged st)
        else Some (Kept (BinaryOperatorNode BO_Add
                           ([x] ++ [y] ++ [LeafExprNode (IntegerLiteral v)])),
                   SetChanged st)
    end
  ∧ ∀ v, CheckedFold BO_Add 2 [3; 4] = Some v →
         v = OpValue BO_Add (2 :: [3; 4]) ∧ INT_MIN <= v <= INT_MAX.
Proof.
  intros x y k st.
  apply (ConstantFold_adjacent_constants 10 BO_Add [x] (k 2) 2 [k 3; k 4]
           [3; 4] [y] None st).
  - reflexivity.
  - reflexivity.
  - repeat constructor.
  - repeat constructor.
  - reflexivity.
  - repeat constructor.
  - discriminate.
  - vm_compute. lia.
Defined.

(** X9: [ConstantFold] erases as many children as it has counted
    constants, from the first constant on.  On a [+] or [*] node whose
    children are leaves with two integer constants [K1] and [K2] that are
    not next to each other, the operand [X] that follows [K1] is erased
    with [K1], and [K2] is kept beside the literal that holds the sum or
    product of the two. *)
Theorem ConstantFold_separated_constants fuel Opc Pre K1 c1 X Mid K2 c2 Post
    P st v :
  IsOpCommutativeAndAssociative Opc = true → Err st = false →
  Forall (λ C, IsOperandLeaf C = true) Pre →
  IsOperandLeaf X = true →
  Forall (λ C, IsOperandLeaf C = true) Mid →
  Forall (λ C, IsOperandLeaf C = true) Post →
  IsConstantLeafOf K1 c1 → IsConstantLeafOf K2 c2 →
  CheckedFold Opc c1 [c2] = Some v →
  (Node_size (BinaryOperatorNode Opc (Pre ++ K1 :: X :: Mid ++ K2 :: Post))
   < fuel)%nat →
  ConstantFold fuel
    (BinaryOperatorNode Opc (Pre ++ K1 :: X :: Mid ++ K2 :: Post)) P st
  = Some (Kept (BinaryOperatorNode Opc
                  (Pre ++ Mid ++ K2 :: Post
                   ++ [LeafExprNode (IntegerLiteral v)])),
          SetChanged st).
Proof.
  intros Hca He HPre HX HMid HPost HK1 HK2 Hv Hsz.
  set (V := Pre ++ K1 :: X :: Mid ++ K2 :: Post) in *.
  destruct fuel as [|fuel]; [lia|]. cbn [ConstantFold]. rewrite He.
  assert (Hop : ∀ L, Forall (λ C, IsOperandLeaf C = true) L →
                     Forall IsLeaf L).
  { intros L HL. eapply Forall_impl; [exact HL|].
    intros [| | | |E] HC; try done. by exists E. }
  assert (Hco : ∀ C c, IsConstantLeafOf C c → IsLeaf C).
  { intros [| | | |E] c HC; try done. by exists E. }
  assert (HV : Forall IsLeaf V).
  { unfold V. apply Forall_app. split; [by apply Hop|].
    constructor; [by eapply Hco|].
    constructor; [by apply (Forall_inv (Hop [X] ltac:(by constructor)))|].
    apply Forall_app. split; [by apply Hop|].
    constructor; [by eapply Hco|by apply Hop]. }
  rewrite Node_size_Binary in Hsz. pose proof (length_le_list_size V) as Hlen.
  rewrite ConstantFold_loop_leaves by (try done; lia).
  rewrite drop_0. unfold V at 1.
  rewrite FoldLeaves_operands by done. cbn [FoldLeaves Nat.add].
  rewrite HK1. unfold FoldConstant at 1. cbn [NumConsts Nat.eqb].
  assert (HXc : IsConstantLeaf X = None).
  { destruct X as [| | | |E]; try done. cbn in *.
    by destruct (isIntegerConstantExpr E). }
  rewrite HXc. change (K2 :: Post) with ([K2] ++ Post).
  rewrite (FoldLeaves_operands Opc Mid) by done.
  rewrite (FoldLeaves_constants Opc _ [K2] Post _ [c2])
    by (try done; by repeat constructor).
  rewrite Hv. rewrite <- (app_nil_r Post) at 1.
  rewrite FoldLeaves_operands by done.
  cbn [FoldLeaves NumConsts ConstStartIdx ConstFoldedVal length Nat.add
       Nat.leb].
  assert (Htake : take (length Pre) V = Pre)
    by (unfold V; by rewrite take_app_length).
  assert (Hdrop : drop (length Pre + 2) V = Mid ++ K2 :: Post).
  { unfold V. rewrite drop_app_add. done. }
  rewrite Htake, Hdrop.
  assert (Hlen1 : (length ((Pre ++ Mid ++ K2 :: Post)
                           ++ [LeafExprNode (IntegerLiteral v)]) =? 1)%nat
                  = false).
  { apply Nat.eqb_neq. rewrite !length_app. cbn [length]. lia. }
  rewrite Hlen1. cbn [andb]. by rewrite <- !app_assoc.
Qed.

Lemma ConstantFold_separated_constants_witness :
  let x := LeafExprNode (DeclRefExpr 0%nat) in
  let k c := LeafExprNode (IntegerLiteral c) in
  let st := {| Changed := false; Err := false |} in
  ConstantFold 10
    (BinaryOperatorNode BO_Add ([] ++ k 2 :: x :: [] ++ k 3 :: [])) None st
  = Some (Kept (BinaryOperatorNode BO_Add
                  ([] ++ [] ++ k 3 :: [] ++ [LeafExprNode (IntegerLiteral 5)])),
          SetChanged st).
Proof.
  intros x k st.
  apply (ConstantFold_separated_constants 10 BO_Add [] (k 2) 2 x [] (k 3) 3
           [] None st 5).
  - reflexivity.
  - reflexivity.
  - constructor.
  - reflexivity.
  - constructor.
  - constructor.
  - reflexivity.
  - reflexivity.
  - reflexivity.
  - vm_compute. lia.
Defined.

(* ===================================================================== *)
(** ** Equivalent spellings of a member access and of a dereference        *)
(* ===================================================================== *)

(** X10: the spellings [a->f], [( *a).f] and [a[i].f] versus [(a + i)->f] of
    a member access build the same tree for every base expression, and for a
    variable [p] the four forms [p->f], [( *p).f], [(p + 0)->f] and [p[0].f]
    all normalize to the member node with base [p + 0]. *)
Theorem member_access_spellings :
  (∀ (a : Expr) (f : FieldId),
     Create_root (MemberExpr (UnaryOperator UO_Deref a) f false)
     = Create_root (MemberExpr a f true))
  ∧ (∀ (a i : Expr) (f : FieldId),
       Create_root (MemberExpr (ArraySubscriptExpr a i) f false)
       = Create_root (MemberExpr (BinaryOperator BO_Add a i) f true))
  ∧ (∀ (p : VarId) (f : FieldId),
       let T := {| Root := Some (BinaryOperatorNode BO_Add
                     [MemberNode
                        (BinaryOperatorNode BO_Add
                           [LeafExprNode (DeclRefExpr p);
                            LeafExprNode (IntegerLiteral 0)]) f true;
                      LeafExprNode (IntegerLiteral 0)]);
                   Error := false |} in
       Normalize DefaultLex (Create_root (MemberExpr (DeclRefExpr p) f true))
       = Some T
       ∧ Normalize DefaultLex
           (Create_root
              (MemberExpr (UnaryOperator UO_Deref (DeclRefExpr p)) f false))
         = Some T
       ∧ Normalize DefaultLex
           (Create_root
              (MemberExpr (BinaryOperator BO_Add (DeclRefExpr p)
                             (IntegerLiteral 0)) f true))
         = Some T
       ∧ Normalize DefaultLex
           (Create_root
              (MemberExpr (ArraySubscriptExpr (DeclRefExpr p)
                             (IntegerLiteral 0)) f false))
         = Some T).
Proof.
  split_and!.
  - intros a f. unfold Create_root. by simp Create.
  - intros a i f. unfold Create_root. by simp Create.
  - intros p f T. subst T. split_and!; vm_compute; reflexivity.
Qed.

(** X11: [e1[e2]] builds the tree of [*(e1 + e2)] for all expressions, and
    for a variable [p] the forms [*p], [*(p + 0)] and [p[0]] normalize to
    one tree, as do [p] and [p + 0]. *)
Theorem dereference_spellings :
  (∀ e1 e2 : Expr,
     Create_root (ArraySubscriptExpr e1 e2)
     = Create_root (UnaryOperator UO_Deref (BinaryOperator BO_Add e1 e2)))
  ∧ (∀ p : VarId,
       let T := {| Root := Some (BinaryOperatorNode BO_Add
                     [UnaryOperatorNode UO_Deref
                        (BinaryOperatorNode BO_Add
                           [LeafExprNode (DeclRefExpr p);
                            LeafExprNode (IntegerLiteral 0)]);
                      LeafExprNode (IntegerLiteral 0)]);
                   Error := false |} in
       Normalize DefaultLex
         (Create_root (UnaryOperator UO_Deref (DeclRefExpr p))) = Some T
       ∧ Normalize DefaultLex
           (Create_root
              (UnaryOperator UO_Deref
                 (BinaryOperator BO_Add (DeclRefExpr p) (IntegerLiteral 0))))
         = Some T
       ∧ Normalize DefaultLex
           (Create_root
              (ArraySubscriptExpr (DeclRefExpr p) (IntegerLiteral 0)))
         = Some T)
  ∧ (∀ p : VarId,
       let T := {| Root := Some (BinaryOperatorNode BO_Add
                     [LeafExprNode (DeclRefExpr p);
                      LeafExprNode (IntegerLiteral 0)]);
                   Error := false |} in
       Normalize DefaultLex (Create_root (DeclRefExpr p)) = Some T
       ∧ Normalize DefaultLex
           (Create_root
              (BinaryOperator BO_Add (DeclRefExpr p) (IntegerLiteral 0)))
         = Some T).
Proof.
  split_and!.
  - intros e1 e2. unfold Create_root. by simp Create.
  - intros p T. subst T. split_and!; vm_compute; reflexivity.
  - intros p T. subst T. split_and!; vm_compute; reflexivity.
Qed.

(* ===================================================================== *)
(** ** QueueSet: first in, first out                                       *)
(* ===================================================================== *)

(** X12: after the front [F] has been taken off a queue that agrees with
    its set, appending [B] leaves the pending elements in their order and
    puts [B] behind them unless it is pending already; in particular [F]
    itself can be queued again at once and goes to the back. *)
Theorem QueueSet_first_in_first_out {T : Type} `{Countable T}
    (q : QueueSet.t (T := T)) (F B : T) :
  QueueSet.consistent q → QueueSet.next q = Some F →
  let Pending := tail (QueueSet._queue q) in
  QueueSet._queue (QueueSet.append B (QueueSet.remove F q))
  = (if decide (B ∈ Pending) then Pending else Pending ++ [B])
  ∧ QueueSet._queue (QueueSet.append F (QueueSet.remove F q))
    = Pending ++ [F]
  ∧ QueueSet.consistent (QueueSet.append B (QueueSet.remove F q)).
Proof.
  intros Hc Hn Pending.
  pose proof (QueueSetFacts.consistent_remove_front F q Hc Hn) as Hc'.
  assert (Hq : QueueSet._queue (QueueSet.remove F q) = Pending).
  { subst Pending. clear. by destruct q as [[|F' rest] s]. }
  assert (Happ : ∀ C,
    QueueSet._queue (QueueSet.append C (QueueSet.remove F q))
    = if decide (C ∈ Pending) then Pending else Pending ++ [C]).
  { intros C. destruct Hc' as [_ Hset]. unfold QueueSet.append.
    destruct (decide (C ∈ QueueSet._set (QueueSet.remove F q))) as [Hin|Hn'].
    - apply Hset in Hin. rewrite Hq in Hin. by rewrite decide_True.
    - rewrite decide_False; [by cbn; rewrite Hq|].
      intros Hin. apply Hn', Hset. by rewrite Hq. }
  split_and!.
  - apply Happ.
  - rewrite Happ, decide_False; [done|].
    destruct Hc as [Hnd _]. unfold QueueSet.next, Pending in *.
    destruct (QueueSet._queue q) as [|F' rest]; [done|].
    cbn in Hn. injection Hn as ->. cbn. by apply NoDup_cons in Hnd as [? _].
  - by apply QueueSetFacts.consistent_append.
Qed.

Lemma QueueSet_first_in_first_out_witness :
  let q : QueueSet.t (T := nat) :=
    QueueSet.mk [1%nat; 2%nat] ({[ 1%nat ]} ∪ {[ 2%nat ]}) in
  QueueSet.consistent q
  ∧ QueueSet.next q = Some 1%nat
  ∧ QueueSet._queue (QueueSet.append 1%nat (QueueSet.remove 1%nat q))
    = [2%nat] ++ [1%nat].
Proof.
  intros q.
  assert (Hc : QueueSet.consistent q).
  { split; cbn.
    - apply NoDup_cons_2; [|apply NoDup_singleton].
      intros Hin. apply list_elem_of_singleton in Hin. lia.
    - intros x. rewrite elem_of_union, !elem_of_singleton, elem_of_cons,
        list_elem_of_singleton. tauto. }
  split_and!; [exact Hc|reflexivity|].
  exact (proj1 (proj2 (QueueSet_first_in_first_out q 1%nat 1%nat Hc eq_refl))).
Defined.

(* ===================================================================== *)
(** ** Sort: the order of the operands does not matter                     *)
(* ===================================================================== *)

Section SortOperands.
Variable Lex : Lexicographic.
Hypothesis Expr_order : TotalOrder (CompareExpr Lex).
Hypothesis Decl_order : TotalOrder (CompareDecl Lex).

(** X13: for a commutative and associative operator [Sort] gives the same
    node for every arrangement of the same operands, while for any other
    operator the operands keep their places. *)
Theorem Sort_arrangement (Opc : BinaryOperatorKind) (Cs Cs' : list Node) :
  (IsOpCommutativeAndAssociative Opc = true → Cs ≡ₚ Cs' →
   Sort Lex (BinaryOperatorNode Opc Cs)
   = Sort Lex (BinaryOperatorNode Opc Cs'))
  ∧ (IsOpCommutativeAndAssociative Opc = false →
     Sort Lex (BinaryOperatorNode Opc Cs)
     = BinaryOperatorNode Opc (map (Sort Lex) Cs)).
Proof.
  split; intros Hca; cbn [Sort]; rewrite Hca; cbn [negb]; [|done].
  intros HP. f_equal. fold (NodeLT Lex).
  apply (llvm_sort_Permutation_eq Lex Expr_order Decl_order).
  by apply fmap_Permutation.
Qed.
End SortOperands.

Lemma Sort_arrangement_witness :
  let x := LeafExprNode (DeclRefExpr 0%nat) in
  let y := LeafExprNode (DeclRefExpr 1%nat) in
  Sort DefaultLex (BinaryOperatorNode BO_Add [y; x])
  = Sort DefaultLex (BinaryOperatorNode BO_Add [x; y])
  ∧ Sort DefaultLex (BinaryOperatorNode BO_Sub [y; x])
    = BinaryOperatorNode BO_Sub (map (Sort DefaultLex) [y; x]).
Proof.
  intros x y.
  destruct (Sort_arrangement DefaultLex DefaultLex_Expr_order
              DefaultLex_Decl_order BO_Add [y; x] [x; y]) as [H1 _].
  destruct (Sort_arrangement DefaultLex DefaultLex_Expr_order
              DefaultLex_Decl_order BO_Sub [y; x] [y; x]) as [_ H2].
  split; [apply H1; [reflexivity|apply perm_swap]|apply H2; reflexivity].
Defined.

(* ===================================================================== *)
(** ** The integer functions of the test                                   *)
(* ===================================================================== *)

Lemma checked_Some v r :
  checked v = Some r ↔ r = v ∧ INT_MIN <= v <= INT_MAX.
Proof.
  unfold checked, InIntRange.
  destruct (INT_MIN <=? v) eqn:H1; destruct (v <=? INT_MAX) eqn:H2; cbn;
    split; try (intros [= <-]; split; [done|]); try (intros [-> ?]); try done;
    lia.
Qed.

Lemma Factorial_step n : 0 < n → Factorial n = n * Factorial (n - 1).
Proof.
  intros Hn. unfold Factorial.
  replace (Z.to_nat n) with (S (Z.to_nat (n - 1))) by lia.
  cbn [Factorial_nat]. f_equal. lia.
Qed.

Lemma Factorial_nat_pos n : 0 < Factorial_nat n.
Proof. induction n as [|n IH]; cbn [Factorial_nat]; lia. Qed.

Lemma Factorial_nat_mono n m :
  (n <= m)%nat → Factorial_nat n <= Factorial_nat m.
Proof.
  induction 1 as [|m Hle IH]; [lia|]. cbn [Factorial_nat].
  pose proof (Factorial_nat_pos m). nia.
Qed.

Lemma Factorial_12 : Factorial 12 = 479001600.
Proof. reflexivity. Qed.

Lemma fact_fuel fuel : ∀ n,
  0 <= n <= 12 → (Z.to_nat n < fuel)%nat → fact fuel n = Some (Factorial n).
Proof.
  induction fuel as [|fuel IH]; intros n Hn Hf; [lia|]. cbn [fact].
  destruct (n =? 0) eqn:Hn0.
  { apply Z.eqb_eq in Hn0 as ->. reflexivity. }
  apply Z.eqb_neq in Hn0.
  assert (Hm : checked (n - 1) = Some (n - 1)).
  { apply checked_Some. unfold INT_MIN, INT_MAX, IntWidth. lia. }
  rewrite Hm, (IH (n - 1)) by lia.
  apply checked_Some. rewrite <- Factorial_step by lia. split; [done|].
  unfold Factorial.
  pose proof (Factorial_nat_pos (Z.to_nat n)).
  pose proof (Factorial_nat_mono (Z.to_nat n) 12 ltac:(lia)) as Hle.
  change (Factorial_nat 12) with 479001600 in Hle.
  unfold INT_MIN, INT_MAX, IntWidth. lia.
Qed.

(** X14: [fact] returns exactly on the arguments 0 to 12, where its result
    is the factorial; on every other argument the multiplication overflows
    or the recursion never reaches 0. *)
Theorem fact_returns_factorial :
  (∀ fuel n r, fact fuel n = Some r → 0 <= n <= 12 ∧ r = Factorial n)
  ∧ (∀ n, 0 <= n <= 12 → fact (S (Z.to_nat n)) n = Some (Factorial n)).
Proof.
  split.
  - induction fuel as [|fuel IH]; intros n r; [done|]. cbn [fact].
    destruct (n =? 0) eqn:Hn0.
    { apply Z.eqb_eq in Hn0 as ->. intros [= <-]. split; [lia|done]. }
    apply Z.eqb_neq in Hn0.
    destruct (checked (n - 1)) as [m|] eqn:Hm; [|done].
    apply checked_Some in Hm as [-> _].
    destruct (fact fuel (n - 1)) as [r'|] eqn:Hr'; [|done].
    apply IH in Hr' as [Hrange ->]. intros [-> Hr]%checked_Some.
    rewrite <- Factorial_step in * by lia. split; [|done].
    destruct (decide (n <= 12)); [lia|]. exfalso.
    rewrite Factorial_step in Hr by lia.
    assert (n - 1 = 12) as Heq by lia. rewrite Heq, Factorial_12 in Hr.
    unfold INT_MAX, IntWidth in Hr. lia.
  - intros n Hn. apply fact_fuel; [done|lia].
Qed.

Lemma fact_returns_factorial_witness :
  (0 <= 5 <= 12 ∧ 120 = Factorial 5)
  ∧ fact (S (Z.to_nat 12)) 12 = Some (Factorial 12).
Proof.
  split.
  - apply (proj1 fact_returns_factorial 6%nat 5 120). reflexivity.
  - apply (proj2 fact_returns_factorial 12). lia.
Defined.

Lemma Fibonacci_pair_snd k :
  snd (Fibonacci_pair k) = fst (Fibonacci_pair (S k)).
Proof. cbn [Fibonacci_pair]. by destruct (Fibonacci_pair k). Qed.

Lemma Fibonacci_pair_step k :
  fst (Fibonacci_pair (S (S k)))
  = fst (Fibonacci_pair (S k)) + fst (Fibonacci_pair k).
Proof.
  rewrite <- (Fibonacci_pair_snd (S k)). cbn [Fibonacci_pair].
  destruct (Fibonacci_pair k) as [a b]. cbn. lia.
Qed.

Lemma Fibonacci_step n :
  2 <= n → Fibonacci n = Fibonacci (n - 1) + Fibonacci (n - 2).
Proof.
  intros Hn. unfold Fibonacci.
  replace (Z.to_nat n) with (S (S (Z.to_nat (n - 2)))) by lia.
  replace (Z.to_nat (n - 1)) with (S (Z.to_nat (n - 2))) by lia.
  apply Fibonacci_pair_step.
Qed.

Lemma Fibonacci_pair_mono k :
  0 <= fst (Fibonacci_pair k) <= snd (Fibonacci_pair k)
  ∧ fst (Fibonacci_pair k) <= fst (Fibonacci_pair (S k)).
Proof.
  induction k as [|k IH]; [cbn; lia|].
  rewrite Fibonacci_pair_snd in *. rewrite Fibonacci_pair_step. lia.
Qed.

Lemma Fibonacci_nat_mono n m :
  (n <= m)%nat → fst (Fibonacci_pair n) <= fst (Fibonacci_pair m).
Proof.
  induction 1 as [|m Hle IH]; [lia|].
  pose proof (Fibonacci_pair_mono m). lia.
Qed.

Lemma Fibonacci_range n : 0 <= n <= 46 → 0 <= Fibonacci n <= INT_MAX.
Proof.
  intros Hn. unfold Fibonacci.
  pose proof (Fibonacci_pair_mono (Z.to_nat n)).
  pose proof (Fibonacci_nat_mono (Z.to_nat n) 46 ltac:(lia)) as Hle.
  assert (H46 : fst (Fibonacci_pair 46) = 1836311903) by (vm_compute; done).
  rewrite H46 in Hle. unfold INT_MAX, IntWidth. lia.
Qed.

Lemma fib_fuel fuel : ∀ n,
  0 <= n <= 46 → (Z.to_nat n < fuel)%nat → fib fuel n = Some (Fibonacci n).
Proof.
  induction fuel as [|fuel IH]; intros n Hn Hf; [lia|]. cbn [fib].
  destruct (n =? 0) eqn:Hn0.
  { apply Z.eqb_eq in Hn0 as ->. reflexivity. }
  destruct (n =? 1) eqn:Hn1.
  { apply Z.eqb_eq in Hn1 as ->. reflexivity. }
  apply Z.eqb_neq in Hn0, Hn1.
  assert (H1 : checked (n - 1) = Some (n - 1)).
  { apply checked_Some. unfold INT_MIN, INT_MAX, IntWidth. lia. }
  assert (H2 : checked (n - 2) = Some (n - 2)).
  { apply checked_Some. unfold INT_MIN, INT_MAX, IntWidth. lia. }
  rewrite H1, H2, (IH (n - 1)), (IH (n - 2)) by lia.
  apply checked_Some. rewrite <- Fibonacci_step by lia. split; [done|].
  pose proof (Fibonacci_range n Hn). unfold INT_MIN, IntWidth. lia.
Qed.

(** X15: [fib] returns exactly on the arguments 0 to 46, where its result
    is the Fibonacci number; on every other argument the addition overflows
    or the recursion never reaches 0 or 1. *)
Theorem fib_returns_Fibonacci :
  (∀ fuel n r, fib fuel n = Some r → 0 <= n <= 46 ∧ r = Fibonacci n)
  ∧ (∀ n, 0 <= n <= 46 → fib (S (Z.to_nat n)) n = Some (Fibonacci n)).
Proof.
  split; [|intros n Hn; apply fib_fuel; [done|lia]].
  induction fuel as [|fuel IH]; intros n r; [done|]. cbn [fib].
  destruct (n =? 0) eqn:Hn0.
  { apply Z.eqb_eq in Hn0 as ->. intros [= <-]. split; [lia|done]. }
  destruct (n =? 1) eqn:Hn1.
  { apply Z.eqb_eq in Hn1 as ->. intros [= <-]. split; [lia|done]. }
  apply Z.eqb_neq in Hn0, Hn1.
  destruct (checked (n - 1)) as [n1|] eqn:H1; [|done].
  destruct (checked (n - 2)) as [n2|] eqn:H2; [|done].
  apply checked_Some in H1 as [-> _]. apply checked_Some in H2 as [-> _].
  destruct (fib fuel (n - 1)) as [a|] eqn:Ha; [|done].
  destruct (fib fuel (n - 2)) as [b|] eqn:Hb; [|done].
  apply IH in Ha as [Hr1 ->]. apply IH in Hb as [Hr2 ->].
  intros [-> Hr]%checked_Some.
  rewrite <- Fibonacci_step in * by lia. split; [|done].
  destruct (decide (n <= 46)); [lia|]. exfalso.
  assert (n = 47) as -> by lia.
  assert (H47 : Fibonacci 47 = 2971215073) by (vm_compute; done).
  rewrite H47 in Hr. unfold INT_MAX, IntWidth in Hr. lia.
Qed.

Lemma fib_returns_Fibonacci_witness :
  (0 <= 10 <= 46 ∧ 55 = Fibonacci 10)
  ∧ fib (S (Z.to_nat 10)) 10 = Some (Fibonacci 10).
Proof.
  split.
  - apply (proj1 fib_returns_Fibonacci 11%nat 10 55). reflexivity.
  - apply (proj2 fib_returns_Fibonacci 10). lia.
Defined.

(* ===================================================================== *)
(** ** Normalize: the tree never grows                                     *)
(* ===================================================================== *)

Lemma Normalize_while_in_place_size Lex iters : ∀ R E,
  WellFormed R = true → RootOpc R ≠ None → (Node_size R < iters)%nat →
  ∃ R' E', Normalize_while_in_place iters Lex R E = Some (R', E')
           ∧ WellFormed R' = true
           ∧ (Node_size R' <= Node_size R)%nat.
Proof.
  induction iters as [|iters IH]; intros R E HR Hroot Hsz; [lia|].
  cbn [Normalize_while_in_place].
  destruct (Coalesce_in_place_total (S (Node_size R)) R None
              {| Changed := false; Err := E |} HR ltac:(lia))
    as (o & st1 & HC & Hpost1 & HE1).
  rewrite HC.
  destruct (Coalesce_in_place_root _ _ _ _ _ HC Hroot) as (R1 & -> & Hroot1).
  destruct Hpost1 as [wf1 mono1 same1 size1 dec1 _ _ err1].
  cbn [outcome_wf outcome_size Changed Err] in *.
  destruct (Err st1) eqn:HErr1.
  { exists R1, true. split_and!; done. }
  subst E.
  pose proof (Sort_size Lex R1) as HszS.
  pose proof (Sort_WellFormed Lex R1 wf1) as HwfS.
  pose proof (Sort_RootOpc Lex R1) as HrootS.
  destruct (ConstantFold_total (S (Node_size (Sort Lex R1))) (Sort Lex R1)
              None st1 HwfS ltac:(lia)) as (o & st3 & HF & Hpost3 & _).
  rewrite HF.
  destruct (ConstantFold_root _ _ _ _ _ HF ltac:(congruence))
    as (R3 & -> & Hroot3).
  destruct Hpost3 as [wf3 mono3 same3 size3 dec3 _ _ err3].
  cbn [outcome_wf outcome_size Changed Err] in *.
  destruct (Err st3) eqn:HErr3.
  { exists R3, true. split_and!; [done|done|lia]. }
  destruct (Changed st3) eqn:HCh3.
  - assert (Node_size R3 < Node_size R)%nat.
    { destruct (Changed st1) eqn:HCh1.
      - specialize (dec1 eq_refl eq_refl eq_refl). lia.
      - specialize (dec3 eq_refl eq_refl eq_refl). lia. }
    destruct (IH R3 false wf3 ltac:(congruence) ltac:(lia))
      as (R' & E' & -> & HR' & Hsz').
    exists R', E'. split_and!; [done|done|lia].
  - exists R3, false. split_and!; [done|done|lia].
Qed.


